(** * API de Tarefas (TODO): a shallow embedding of [app/main.py]

    The service keeps a task list in a JSON file, optionally accelerated by
    a Redis entry, and offers list / create / edit over HTTP.  This file
    embeds the persistence layer at the level of the text stored in the
    file ([json.dumps] / [json.loads] as a printer and a parser over code
    points), the pydantic models as records with their validators, the
    Redis handle as explicit process state, and each route as a function in
    a state-and-exception monad over that state. *)

From Stdlib Require Import ZArith NArith List Ascii String Decimal DecimalFacts
  DecimalPos DecimalZ Lia Bool.
From stdpp Require Import base list.
Import ListNotations.

Local Open Scope N_scope.

(** ** Text

    A Python [str] is a sequence of Unicode code points. *)

Abbreviation char := N (only parsing).
Abbreviation str := (list N) (only parsing).

Definition lit (s : string) : str :=
  List.map N_of_ascii (list_ascii_of_string s).
Arguments lit s%_string.

Fixpoint str_eqb (a b : str) : bool :=
  match a, b with
  | [], [] => true
  | x :: a', y :: b' => (x =? y) && str_eqb a' b'
  | _, _ => false
  end.

Fixpoint prefixo (p s : str) : option str :=
  match p, s with
  | [], _ => Some s
  | a :: p', b :: s' => if a =? b then prefixo p' s' else None
  | _ :: _, [] => None
  end.

(** [str.isspace] on one code point, as [str.strip()] with no argument
    uses it (Unicode property White_Space or bidirectional class WS, B, S). *)
Definition isspace (c : char) : bool :=
  ((9 <=? c) && (c <=? 13)) || ((28 <=? c) && (c <=? 32)) || (c =? 133) ||
  (c =? 160) || (c =? 5760) || ((8192 <=? c) && (c <=? 8202)) ||
  (c =? 8232) || (c =? 8233) || (c =? 8239) || (c =? 8287) || (c =? 12288).

Fixpoint lstrip (s : str) : str :=
  match s with
  | c :: r => if isspace c then lstrip r else s
  | [] => []
  end.

Definition strip (s : str) : str := rev (lstrip (rev (lstrip s))).

(** ** Python values that [json] reads and writes

    [JFloat] keeps the text that [json.loads] hands to [float()]: no
    operation of the service computes with a float, validation only tests
    one, and no field of a task is one, so that the service never writes a
    float ([iterencode] gives the text back).

    Characters are written by their code points: 9 tab, 10 line feed,
    13 carriage return, 32 space, 34 the double quote, 44 comma, 45 minus,
    46 point, 47 slash, 48 to 57 the digits, 58 colon, 91 and 93 the
    brackets, 92 backslash, 123 and 125 the braces, and the letters
    69 E, 73 I, 78 N, 98 b, 101 e, 102 f, 110 n, 114 r, 116 t, 117 u. *)

#[local] Unset Elimination Schemes.
Inductive json : Type :=
| JNull
| JBool (b : bool)
| JInt (z : Z)
| JFloat (texto : str)
| JStr (s : str)
| JArr (itens : list json)
| JObj (pares : list (str * json)).
#[local] Set Elimination Schemes.

(** [d[k] = v] on an insertion-ordered dict. *)
Fixpoint dict_set (d : list (str * json)) (k : str) (v : json)
  : list (str * json) :=
  match d with
  | [] => [(k, v)]
  | (k', v') :: d' =>
      if str_eqb k' k then (k', v) :: d' else (k', v') :: dict_set d' k v
  end.

Fixpoint dict_get (d : list (str * json)) (k : str) : option json :=
  match d with
  | [] => None
  | (k', v) :: d' => if str_eqb k' k then Some v else dict_get d' k
  end.

Definition dict_de_pares (ps : list (str * json)) : list (str * json) :=
  fold_left (fun d kv => dict_set d (fst kv) (snd kv)) ps [].

(** [dict.update]. *)
Definition dict_update (d u : list (str * json)) : list (str * json) :=
  fold_left (fun d kv => dict_set d (fst kv) (snd kv)) u d.

(** ** [json.dumps] *)

Fixpoint chars_de_uint (u : Decimal.uint) : str :=
  match u with
  | Nil => []
  | D0 u => 48 :: chars_de_uint u
  | D1 u => 49 :: chars_de_uint u
  | D2 u => 50 :: chars_de_uint u
  | D3 u => 51 :: chars_de_uint u
  | D4 u => 52 :: chars_de_uint u
  | D5 u => 53 :: chars_de_uint u
  | D6 u => 54 :: chars_de_uint u
  | D7 u => 55 :: chars_de_uint u
  | D8 u => 56 :: chars_de_uint u
  | D9 u => 57 :: chars_de_uint u
  end.

(** [int.__repr__] *)
Definition repr_int (z : Z) : str :=
  match Z.to_int z with
  | Pos u => chars_de_uint u
  | Neg u => 45 :: chars_de_uint u
  end.

Definition hex_digito (n : N) : char :=
  if n <? 10 then 48 + n else 87 + n.

(** ['\\u{0:04x}'.format(n)] for [n < 0x10000]. *)
Definition escape_u (n : N) : str :=
  [92; 117; hex_digito (n / 4096 mod 16); hex_digito (n / 256 mod 16);
   hex_digito (n / 16 mod 16); hex_digito (n mod 16)].

Definition escape_curto (c : char) : option str :=
  if c =? 34 then Some [92; 34]
  else if c =? 92 then Some [92; 92]
  else if c =? 10 then Some [92; 110]
  else if c =? 13 then Some [92; 114]
  else if c =? 9 then Some [92; 116]
  else if c =? 12 then Some [92; 102]
  else if c =? 8 then Some [92; 98]
  else None.

(** One character of [encode_basestring] ([ensure_ascii=False]) or of
    [encode_basestring_ascii] ([ensure_ascii=True]). *)
Definition escape_char (ensure_ascii : bool) (c : char) : str :=
  match escape_curto c with
  | Some e => e
  | None =>
      if c <? 32 then escape_u c
      else if negb ensure_ascii then [c]
      else if c <? 127 then [c]
      else if c <? 65536 then escape_u c
      else
        let v := c - 65536 in
        escape_u (55296 + (v / 1024) mod 1024) ++ escape_u (56320 + v mod 1024)
  end.

Definition encode_basestring (ensure_ascii : bool) (s : str) : str :=
  34 :: flat_map (escape_char ensure_ascii) s ++ [34].

Definition espacos (n : nat) : str := repeat 32 n.

Section Dumps.
(** [indent=None] or [indent=k]; the item separator is [", "] without
    indentation and [","] followed by a new line with it, the key
    separator is [": "] in both. *)
Variable indent : option nat.
Variable ensure_ascii : bool.

Definition newline_indent (nivel : nat) : str :=
  match indent with
  | Some k => 10 :: espacos (k * nivel)
  | None => []
  end.

Definition separator (nivel : nat) : str :=
  match indent with
  | Some _ => 44 :: newline_indent nivel
  | None => [44; 32]
  end.

Fixpoint iterencode (nivel : nat) (v : json) : str :=
  match v with
  | JNull => lit "null"
  | JBool true => lit "true"
  | JBool false => lit "false"
  | JInt z => repr_int z
  | JFloat t => t
  | JStr s => encode_basestring ensure_ascii s
  | JArr [] => lit "[]"
  | JArr (x :: xs) =>
      91 :: newline_indent (S nivel) ++ iterencode (S nivel) x ++
      flat_map (fun y => separator (S nivel) ++ iterencode (S nivel) y) xs ++
      newline_indent nivel ++ [93]
  | JObj [] => lit "{}"
  | JObj ((k, x) :: ps) =>
      123 :: newline_indent (S nivel) ++
      encode_basestring ensure_ascii k ++ [58; 32] ++
      iterencode (S nivel) x ++
      flat_map (fun kv =>
                  let '(k', y) := kv in
                  separator (S nivel) ++ encode_basestring ensure_ascii k' ++
                  [58; 32] ++ iterencode (S nivel) y) ps ++
      newline_indent nivel ++ [125]
  end.

Definition json_dumps (v : json) : str := iterencode 0 v.
End Dumps.

(** ** [json.loads]

    The scanner of the standard library's decoder (strict mode): [None]
    stands for [JSONDecodeError]. *)

Definition eh_ws (c : char) : bool :=
  (c =? 32) || (c =? 9) || (c =? 10) || (c =? 13).

Fixpoint skip_ws (s : str) : str :=
  match s with
  | c :: r => if eh_ws c then skip_ws r else s
  | [] => []
  end.

Definition hex_valor (c : char) : option N :=
  if (48 <=? c) && (c <=? 57) then Some (c - 48)
  else if (97 <=? c) && (c <=? 102) then Some (c - 87)
  else if (65 <=? c) && (c <=? 70) then Some (c - 55)
  else None.

Definition hex4 (a b c d : char) : option N :=
  match hex_valor a, hex_valor b, hex_valor c, hex_valor d with
  | Some x, Some y, Some z, Some w => Some (((x * 16 + y) * 16 + z) * 16 + w)
  | _, _, _, _ => None
  end.

Definition high_surrogate (n : N) : bool := (55296 <=? n) && (n <=? 56319).
Definition low_surrogate (n : N) : bool := (56320 <=? n) && (n <=? 57343).
Definition join_surrogates (hi lo : N) : N :=
  65536 + ((hi - 55296) * 1024 + (lo - 56320)).

Definition escape_simples (e : char) : option char :=
  if e =? 34 then Some 34
  else if e =? 92 then Some 92
  else if e =? 47 then Some 47
  else if e =? 98 then Some 8
  else if e =? 102 then Some 12
  else if e =? 110 then Some 10
  else if e =? 114 then Some 13
  else if e =? 116 then Some 9
  else None.

Definition cons_fst (c : char) (r : option (str * str)) : option (str * str) :=
  match r with
  | Some (t, rest) => Some (c :: t, rest)
  | None => None
  end.

(** [scanstring] from just after the opening quote: the decoded string and
    the text after the closing quote. *)
Fixpoint scanstring (s : str) : option (str * str) :=
  match s with
  | [] => None
  | c :: r =>
      if c =? 34 then Some ([], r)
      else if c =? 92 then
        match r with
        | [] => None
        | e :: r1 =>
            if e =? 117 then
              match r1 with
              | h1 :: h2 :: h3 :: h4 :: r2 =>
                  match hex4 h1 h2 h3 h4 with
                  | None => None
                  | Some uni =>
                      match r2 with
                      | b :: u :: g1 :: g2 :: g3 :: g4 :: r3 =>
                          if high_surrogate uni && (b =? 92) && (u =? 117) then
                            match hex4 g1 g2 g3 g4 with
                            | None => None
                            | Some uni2 =>
                                if low_surrogate uni2
                                then cons_fst (join_surrogates uni uni2)
                                              (scanstring r3)
                                else cons_fst uni (scanstring r2)
                            end
                          else cons_fst uni (scanstring r2)
                      | _ => cons_fst uni (scanstring r2)
                      end
                  end
              | _ => None
              end
            else
              match escape_simples e with
              | Some ch => cons_fst ch (scanstring r1)
              | None => None
              end
        end
      else if c <? 32 then None
      else cons_fst c (scanstring r)
  end.

Definition digito (c : char) : option (Decimal.uint -> Decimal.uint) :=
  if c =? 48 then Some D0 else if c =? 49 then Some D1
  else if c =? 50 then Some D2 else if c =? 51 then Some D3
  else if c =? 52 then Some D4 else if c =? 53 then Some D5
  else if c =? 54 then Some D6 else if c =? 55 then Some D7
  else if c =? 56 then Some D8 else if c =? 57 then Some D9
  else None.

(** The longest run of decimal digits at the head of the text. *)
Fixpoint scan_digitos (s : str) : Decimal.uint * str :=
  match s with
  | c :: r =>
      match digito c with
      | Some d => let '(u, r') := scan_digitos r in (d u, r')
      | None => (Nil, s)
      end
  | [] => (Nil, [])
  end.

(** The optional fraction, a point and at least one digit: the matched
    text and what follows. *)
Definition scan_frac (s : str) : str * str :=
  match s with
  | p :: r =>
      if p =? 46 then
        match scan_digitos r with
        | (Nil, _) => ([], s)
        | (u, r') => (46 :: chars_de_uint u, r')
        end
      else ([], s)
  | [] => ([], [])
  end.

(** The optional exponent: [e] or [E], an optional sign, at least one
    digit. *)
Definition scan_exp (s : str) : str * str :=
  match s with
  | e :: r =>
      if (e =? 101) || (e =? 69) then
        let '(sinal, r1) :=
          match r with
          | g :: r' => if (g =? 45) || (g =? 43) then ([g], r') else ([], r)
          | [] => ([], r)
          end in
        match scan_digitos r1 with
        | (Nil, _) => ([], s)
        | (u, r') => (e :: sinal ++ chars_de_uint u, r')
        end
      else ([], s)
  | [] => ([], [])
  end.

(** A JSON number: an optional minus sign, then a single zero or a run of
    digits that starts with a non-zero one, then the optional fraction and
    exponent.  It is an [int] when neither is there, otherwise the float of
    the matched text. *)
Definition match_number (s : str) : option (json * str) :=
  let '(neg, s1) :=
    match s with
    | c :: r => if c =? 45 then (true, r) else (false, s)
    | [] => (false, s)
    end in
  match s1 with
  | [] => None
  | c :: r =>
      match digito c with
      | None => None
      | Some _ =>
          let '(u, r1) := if c =? 48 then (D0 Nil, r) else scan_digitos s1 in
          let '(frac, r2) := scan_frac r1 in
          let '(exp, r3) := scan_exp r2 in
          match frac, exp with
          | [], [] => Some (JInt (Z.of_int (if neg then Neg u else Pos u)), r3)
          | _, _ =>
              Some (JFloat ((if neg then [45] else []) ++ chars_de_uint u ++
                            frac ++ exp), r3)
          end
      end
  end.

Definition constante (nome : string) (v : json) (s : str)
  : option (json * str) :=
  match prefixo (lit nome) s with
  | Some r => Some (v, r)
  | None => None
  end.

(** [scan_once], [JSONObject] and [JSONArray]; the counter bounds the depth
    of the calls and is taken larger than the text is long. *)
Fixpoint scan_once (n : nat) (s : str) : option (json * str) :=
  match n with
  | O => None
  | S n' =>
      match s with
      | [] => None
      | c :: r =>
          if c =? 34 then
            match scanstring r with
            | Some (t, r') => Some (JStr t, r')
            | None => None
            end
          else if c =? 123 then
            match skip_ws r with
            | c1 :: r1 =>
                if c1 =? 125 then Some (JObj [], r1)
                else
                  match JSONObject n' (c1 :: r1) with
                  | Some (ps, r') => Some (JObj (dict_de_pares ps), r')
                  | None => None
                  end
            | [] => None
            end
          else if c =? 91 then
            match skip_ws r with
            | c1 :: r1 =>
                if c1 =? 93 then Some (JArr [], r1)
                else
                  match JSONArray n' (c1 :: r1) with
                  | Some (xs, r') => Some (JArr xs, r')
                  | None => None
                  end
            | [] => None
            end
          else if c =? 110 then constante "null" JNull s
          else if c =? 116 then constante "true" (JBool true) s
          else if c =? 102 then constante "false" (JBool false) s
          else if c =? 78 then constante "NaN" (JFloat (lit "NaN")) s
          else if c =? 73 then constante "Infinity" (JFloat (lit "Infinity")) s
          else
            match constante "-Infinity" (JFloat (lit "-Infinity")) s with
            | Some res => Some res
            | None => match_number s
            end
      end
  end
with JSONObject (n : nat) (s : str) : option (list (str * json) * str) :=
  (* at the quote of a key *)
  match n with
  | O => None
  | S n' =>
      match s with
      | c :: r =>
          if c =? 34 then
            match scanstring r with
            | None => None
            | Some (key, r1) =>
                match skip_ws r1 with
                | d :: r2 =>
                    if d =? 58 then
                      match scan_once n' (skip_ws r2) with
                      | None => None
                      | Some (v, r3) =>
                          match skip_ws r3 with
                          | e :: r4 =>
                              if e =? 125 then Some ([(key, v)], r4)
                              else if e =? 44 then
                                match JSONObject n' (skip_ws r4) with
                                | Some (ps, r5) => Some ((key, v) :: ps, r5)
                                | None => None
                                end
                              else None
                          | [] => None
                          end
                      end
                    else None
                | [] => None
                end
            end
          else None
      | [] => None
      end
  end
with JSONArray (n : nat) (s : str) : option (list json * str) :=
  (* at the first character of an item *)
  match n with
  | O => None
  | S n' =>
      match scan_once n' s with
      | None => None
      | Some (v, r1) =>
          match skip_ws r1 with
          | e :: r2 =>
              if e =? 93 then Some ([v], r2)
              else if e =? 44 then
                match JSONArray n' (skip_ws r2) with
                | Some (xs, r3) => Some (v :: xs, r3)
                | None => None
                end
              else None
          | [] => None
          end
      end
  end.

(** [JSONDecoder.decode]: one value between optional white space, and
    nothing after it. *)
Definition json_loads (s : str) : option json :=
  match scan_once (S (length s)) (skip_ws s) with
  | Some (v, r) => match skip_ws r with [] => Some v | _ :: _ => None end
  | None => None
  end.

(** ** The pydantic models *)

(** What the source leaves to the libraries and the configuration: the
    conversions pydantic tries, in its default lax mode, on an input that is
    not already of the field's type ([int_lax] for an [int] field given
    anything but an [int], [bool_lax] for a [bool] field given anything but
    a [bool]), and the cache expiry read from the environment.  Every
    property below holds whatever they are. *)
Class Ambiente := {
  int_lax : json -> option Z;
  bool_lax : json -> option bool;
  TTL_CACHE_SEGUNDOS : Z
}.

Inductive Excecao :=
| JSONDecodeError
| TypeError
| ValidationError
| IndexError
| ConnectionError
| ResponseError
| HTTPException (status_code : Z) (detail : str).

Inductive Resultado (A : Type) :=
| Ok (a : A)
| Erro (e : Excecao).
Arguments Ok {A} a.
Arguments Erro {A} e.

(** A [str] that pydantic accepts holds no surrogate code point. *)
Definition surrogate (c : char) : bool := (55296 <=? c) && (c <=? 57343).
Definition str_unicode (s : str) : bool := forallb (fun c => negb (surrogate c)) s.

(** [str] with [Field(min_length=.., max_length=..)] *)
Definition valida_str (min_length max_length : nat) (v : json) : option str :=
  match v with
  | JStr s =>
      if str_unicode s && (min_length <=? length s)%nat &&
         (length s <=? max_length)%nat
      then Some s else None
  | _ => None
  end.

Definition valida_opcional {A} (f : json -> option A) (v : json)
  : option (option A) :=
  match v with
  | JNull => Some None
  | _ => match f v with Some a => Some (Some a) | None => None end
  end.

Definition valida_int `{Ambiente} (v : json) : option Z :=
  match v with
  | JInt z => Some z
  | _ => int_lax v
  end.

Definition valida_bool `{Ambiente} (v : json) : option bool :=
  match v with
  | JBool b => Some b
  | _ => bool_lax v
  end.

(** A field read from the keyword arguments: the default when the key is
    missing, [None] (of [option]) when the field is required and missing or
    when its value is refused. *)
Definition campo {A} (d : list (str * json)) (nome : string)
    (padrao : option A) (f : json -> option A) : option A :=
  match dict_get d (lit nome) with
  | Some v => f v
  | None => padrao
  end.

Module TarefaBase.
(** [TarefaBase], and [TarefaCriar] which adds nothing to it: a payload
    that FastAPI has built from the body of a request. *)
Record t := {
  titulo : str;
  descricao : option str;
  concluida : bool
}.

(** The constraints that [Field] declares. *)
Definition valida (x : t) : Prop :=
  str_unicode (titulo x) = true /\
  (1 <= length (titulo x) <= 200)%nat /\
  match descricao x with
  | Some s => str_unicode s = true /\ (length s <= 2000)%nat
  | None => True
  end.
End TarefaBase.

Module TarefaCriar := TarefaBase.

Module TarefaAtualizar.
(** Each field is [None] when the request left it out and [Some v] when
    the request set it, [v] being [None] for an explicit [null]. *)
Record t := {
  titulo : option (option str);
  descricao : option (option str);
  concluida : option (option bool)
}.

Definition json_de_str (o : option str) : json :=
  match o with Some s => JStr s | None => JNull end.
Definition json_de_bool (o : option bool) : json :=
  match o with Some b => JBool b | None => JNull end.

(** [model_dump(exclude_unset=True)] *)
Definition model_dump_exclude_unset (p : t) : list (str * json) :=
  match titulo p with
  | Some v => [(lit "titulo", json_de_str v)] | None => [] end ++
  match descricao p with
  | Some v => [(lit "descricao", json_de_str v)] | None => [] end ++
  match concluida p with
  | Some v => [(lit "concluida", json_de_bool v)] | None => [] end.
End TarefaAtualizar.

Module Tarefa.
Record t := {
  titulo : str;
  descricao : option str;
  concluida : bool;
  id : Z
}.

(** The constructor called with the dict [d] unpacked as keyword
    arguments; keys that name no field are ignored. *)
Definition init (d : list (str * json)) `{Ambiente} : Resultado t :=
  match campo d "titulo" None (valida_str 1 200),
        campo d "descricao" (Some None) (valida_opcional (valida_str 0 2000)),
        campo d "concluida" (Some false) valida_bool,
        campo d "id" None valida_int with
  | Some a, Some b, Some c, Some i =>
      Ok {| titulo := a; descricao := b; concluida := c; id := i |}
  | _, _, _, _ => Erro ValidationError
  end.

(** [model_dump()]: the fields in declaration order, the inherited ones
    first. *)
Definition model_dump (x : t) : list (str * json) :=
  [(lit "titulo", JStr (titulo x));
   (lit "descricao", TarefaAtualizar.json_de_str (descricao x));
   (lit "concluida", JBool (concluida x));
   (lit "id", JInt (id x))].

(** [x.model_copy(update=u).model_dump()]: the copy takes the values of
    [u] unvalidated. *)
Definition model_copy_dump (x : t) (u : list (str * json))
  : list (str * json) :=
  dict_update (model_dump x) u.

(** The constraints that [Field] declares. *)
Definition valida (x : t) : Prop :=
  str_unicode (titulo x) = true /\
  (1 <= length (titulo x) <= 200)%nat /\
  match descricao x with
  | Some s => str_unicode s = true /\ (length s <= 2000)%nat
  | None => True
  end.
End Tarefa.

(** The constructor called with an arbitrary value unpacked as keyword
    arguments: only a mapping can be unpacked. *)
Definition Tarefa_de `{Ambiente} (v : json) : Resultado Tarefa.t :=
  match v with
  | JObj d => Tarefa.init d
  | _ => Erro TypeError
  end.

(** [iter(bruto)]: the items of a list, the keys of a dict, the characters
    of a str; nothing else can be iterated. *)
Definition iterar (v : json) : Resultado (list json) :=
  match v with
  | JArr xs => Ok xs
  | JObj d => Ok (List.map (fun kv => JStr (fst kv)) d)
  | JStr s => Ok (List.map (fun c => JStr [c]) s)
  | _ => Erro TypeError
  end.

(** [[f(t) for t in xs]]: the first exception ends the comprehension. *)
Fixpoint compreensao {A B} (f : A -> Resultado B) (xs : list A)
  : Resultado (list B) :=
  match xs with
  | [] => Ok []
  | x :: xs' =>
      match f x with
      | Erro e => Erro e
      | Ok y =>
          match compreensao f xs' with
          | Ok ys => Ok (y :: ys)
          | Erro e => Erro e
          end
      end
  end.

(** The list comprehension over [json.loads(texto)] that builds one
    [Tarefa] per item. *)
Definition tarefas_de_texto `{Ambiente} (texto : str)
  : Resultado (list Tarefa.t) :=
  match json_loads texto with
  | None => Erro JSONDecodeError
  | Some bruto =>
      match iterar bruto with
      | Erro e => Erro e
      | Ok itens => compreensao Tarefa_de itens
      end
  end.

(** ** Process state and effects *)

(** The Redis server as the service sees it: reachable or not, and the
    value under the one key the service uses ([None] once it has expired or
    was deleted). *)
Record ServidorRedis := {
  no_ar : bool;
  dados : option str
}.

(** The client object that [aioredis.from_url] builds. *)
Inductive Redis := ClienteRedis.

Inductive Comando :=
| PING
| GET (chave : str)
| SET (chave valor : str) (ex : Z)
| DEL (chave : str).

(** [arquivo] is the text of [ARQUIVO_DADOS], [None] when the file does not
    exist; [cliente_redis] is the module-level global of that name;
    [registro] lists the commands sent to the server, latest first.

    The file system is taken to work: [read_text] gives the text that
    [write_text] stored, and neither raises.  The server can be changed
    between two operations (it goes down or comes back, an entry expires)
    by giving the next operation another [servidor]. *)
Record Mundo := {
  arquivo : option str;
  cliente_redis : option Redis;
  servidor : ServidorRedis;
  registro : list Comando
}.

Definition com_arquivo (a : option str) (w : Mundo) : Mundo :=
  {| arquivo := a; cliente_redis := cliente_redis w;
     servidor := servidor w; registro := registro w |}.
Definition com_cliente (c : option Redis) (w : Mundo) : Mundo :=
  {| arquivo := arquivo w; cliente_redis := c;
     servidor := servidor w; registro := registro w |}.
Definition com_servidor (s : ServidorRedis) (w : Mundo) : Mundo :=
  {| arquivo := arquivo w; cliente_redis := cliente_redis w;
     servidor := s; registro := registro w |}.
Definition registrar (c : Comando) (w : Mundo) : Mundo :=
  {| arquivo := arquivo w; cliente_redis := cliente_redis w;
     servidor := servidor w; registro := c :: registro w |}.

(** A coroutine of the service run to completion: it returns or raises,
    and leaves a new state. *)
Definition M (A : Type) : Type := Mundo -> Resultado A * Mundo.

Definition ret {A} (a : A) : M A := fun w => (Ok a, w).
Definition raise {A} (e : Excecao) : M A := fun w => (Erro e, w).
Definition bind {A B} (m : M A) (k : A -> M B) : M B :=
  fun w => match m w with
           | (Ok a, w') => k a w'
           | (Erro e, w') => (Erro e, w')
           end.
(** [try: m  except Exception: h] *)
Definition try_except {A} (m : M A) (h : M A) : M A :=
  fun w => match m w with
           | (Ok a, w') => (Ok a, w')
           | (Erro _, w') => h w'
           end.
Definition elevar {A} (r : Resultado A) : M A := fun w => (r, w).

Notation "x <- m ;; k" := (bind m (fun x => k))
  (at level 100, m at next level, right associativity).
Notation "m ;;; k" := (bind m (fun _ => k))
  (at level 100, right associativity).

(** *** Redis commands *)

Definition comando {A} (c : Comando)
    (f : ServidorRedis -> Resultado A * ServidorRedis) : M A :=
  fun w =>
    let w1 := registrar c w in
    if no_ar (servidor w1) then
      let '(r, s') := f (servidor w1) in (r, com_servidor s' w1)
    else (Erro ConnectionError, w1).

Definition redis_ping (r : Redis) : M unit :=
  comando PING (fun s => (Ok tt, s)).

Definition redis_get (r : Redis) (chave : str) : M (option str) :=
  comando (GET chave) (fun s => (Ok (dados s), s)).

Definition redis_set (r : Redis) (chave valor : str) (ex : Z) : M unit :=
  comando (SET chave valor ex)
    (fun s => if (0 <? ex)%Z
              then (Ok tt, {| no_ar := no_ar s; dados := Some valor |})
              else (Erro ResponseError, s)).

Definition redis_delete (r : Redis) (chave : str) : M unit :=
  comando (DEL chave)
    (fun s => (Ok tt, {| no_ar := no_ar s; dados := None |})).

(** ** The service *)

Section Servico.
Context `{amb : Ambiente}.

(** *** Persistence in the JSON file *)

Definition _ler_todas_as_tarefas : M (list Tarefa.t) :=
  fun w =>
    match arquivo w with
    | None => (Ok [], w)
    | Some conteudo =>
        match strip conteudo with
        | [] => (Ok [], w)
        | _ :: _ => (tarefas_de_texto conteudo, w)
        end
    end.

Definition _gravar_todas_as_tarefas (tarefas : list Tarefa.t) : M unit :=
  fun w =>
    let texto :=
      json_dumps (Some 2%nat) false
        (JArr (List.map (fun t => JObj (Tarefa.model_dump t)) tarefas)) in
    (Ok tt, com_arquivo (Some texto) w).

(** [max((t.id for t in tarefas), default=0) + 1] *)
Definition max_default (ids : list Z) (default : Z) : Z :=
  match ids with
  | [] => default
  | x :: xs => fold_left Z.max xs x
  end.

Definition _proximo_id (tarefas : list Tarefa.t) : Z :=
  (max_default (List.map Tarefa.id tarefas) 0 + 1)%Z.

(** *** Cache *)

Definition ler_cliente_redis : M (option Redis) :=
  fun w => (Ok (cliente_redis w), w).
Definition atribuir_cliente_redis (c : option Redis) : M unit :=
  fun w => (Ok tt, com_cliente c w).

Definition obter_redis : M (option Redis) :=
  atual <- ler_cliente_redis ;;
  match atual with
  | None =>
      try_except
        (atribuir_cliente_redis (Some ClienteRedis) ;;;
         redis_ping ClienteRedis)
        (atribuir_cliente_redis None)
  | Some _ => ret tt
  end ;;;
  ler_cliente_redis.

Definition CHAVE_CACHE_TAREFAS : str := lit "tasks:all".

Definition invalidar_cache_tarefas : M unit :=
  r <- obter_redis ;;
  match r with
  | Some r => try_except (redis_delete r CHAVE_CACHE_TAREFAS) (ret tt)
  | None => ret tt
  end.

(** *** Routes *)

Record Saude := { status : str; redis : bool }.

Definition saude : M Saude :=
  r <- obter_redis ;;
  ret {| status := lit "ok";
         redis := match r with Some _ => true | None => false end |}.

Definition listar_tarefas : M (list Tarefa.t) :=
  r <- obter_redis ;;
  achado <-
    match r with
    | Some r =>
        try_except
          (em_cache <- redis_get r CHAVE_CACHE_TAREFAS ;;
           match em_cache with
           | Some (c :: s) =>
               ts <- elevar (tarefas_de_texto (c :: s)) ;; ret (Some ts)
           | _ => ret None
           end)
          (ret None)
    | None => ret None
    end ;;
  match achado with
  | Some ts => ret ts
  | None =>
      tarefas <- _ler_todas_as_tarefas ;;
      match r with
      | Some r =>
          try_except
            (redis_set r CHAVE_CACHE_TAREFAS
               (json_dumps None true
                  (JArr (List.map (fun t => JObj (Tarefa.model_dump t))
                                  tarefas)))
               TTL_CACHE_SEGUNDOS)
            (ret tt)
      | None => ret tt
      end ;;;
      ret tarefas
  end.

Definition adicionar_tarefa (payload : TarefaCriar.t) : M Tarefa.t :=
  tarefas <- _ler_todas_as_tarefas ;;
  let novo_id := _proximo_id tarefas in
  tarefa <- elevar (Tarefa.init
    [(lit "id", JInt novo_id);
     (lit "titulo", JStr (TarefaCriar.titulo payload));
     (lit "descricao", TarefaAtualizar.json_de_str (TarefaCriar.descricao payload));
     (lit "concluida", JBool (TarefaCriar.concluida payload))]) ;;
  let tarefas := tarefas ++ [tarefa] in
  _gravar_todas_as_tarefas tarefas ;;;
  invalidar_cache_tarefas ;;;
  ret tarefa.

(** [l[i] = x] and [l[i]] for an index that is not negative:
    [IndexError] out of range. *)
Definition setitem {A} (l : list A) (i : nat) (x : A) : M (list A) :=
  if (i <? length l)%nat then ret (<[i := x]> l) else raise IndexError.
Definition getitem {A} (l : list A) (i : nat) : M A :=
  match l !! i with
  | Some x => ret x
  | None => raise IndexError
  end.

(** The body of the loop of [editar_tarefa], run at the first task [t],
    found at position [idx], whose id is the one asked for. *)
Definition editar_corpo (payload : TarefaAtualizar.t)
    (tarefas : list Tarefa.t) (idx : nat) (t : Tarefa.t) : M Tarefa.t :=
  let atualizado :=
    Tarefa.model_copy_dump t
      (TarefaAtualizar.model_dump_exclude_unset payload) in
  nova <- elevar (Tarefa.init atualizado) ;;
  tarefas <- setitem tarefas idx nova ;;
  _gravar_todas_as_tarefas tarefas ;;;
  invalidar_cache_tarefas ;;;
  getitem tarefas idx.

Definition nao_encontrada : Excecao :=
  HTTPException 404 (lit "Tarefa n" ++ [227] ++ lit "o encontrada").

(** The loop of [editar_tarefa] from position [idx], [resto] being what
    is left to enumerate of [tarefas]. *)
Fixpoint editar_laco (task_id : Z) (payload : TarefaAtualizar.t)
    (tarefas : list Tarefa.t) (idx : nat) (resto : list Tarefa.t)
  : M Tarefa.t :=
  match resto with
  | [] => raise nao_encontrada
  | t :: resto' =>
      if (Tarefa.id t =? task_id)%Z
      then editar_corpo payload tarefas idx t
      else editar_laco task_id payload tarefas (S idx) resto'
  end.

Definition editar_tarefa (task_id : Z) (payload : TarefaAtualizar.t)
  : M Tarefa.t :=
  tarefas <- _ler_todas_as_tarefas ;;
  editar_laco task_id payload tarefas 0 tarefas.

(** The startup hook: it writes the empty list when there is no file (not
    under the lock: no request is served yet), and tries the cache once. *)
Definition ao_iniciar : M unit :=
  (fun w => match arquivo w with
            | None => (Ok tt, com_arquivo (Some (lit "[]")) w)
            | Some _ => (Ok tt, w)
            end) ;;;
  obter_redis ;;;
  ret tt.
End Servico.

(** ** The service without a cache

    The second reading of each operation, following the specification's
    words for a system that runs on the Store alone (section 4.3 with every
    Cache step left out, and [/health] reporting the cache as unavailable).
    The routes above are compared with these. *)

Section SoStore.
Context `{amb : Ambiente}.

Definition listar_so_store : M (list Tarefa.t) := _ler_todas_as_tarefas.

Definition criar_so_store (payload : TarefaCriar.t) : M Tarefa.t :=
  tarefas <- _ler_todas_as_tarefas ;;
  tarefa <- elevar (Tarefa.init
    [(lit "id", JInt (_proximo_id tarefas));
     (lit "titulo", JStr (TarefaCriar.titulo payload));
     (lit "descricao", TarefaAtualizar.json_de_str (TarefaCriar.descricao payload));
     (lit "concluida", JBool (TarefaCriar.concluida payload))]) ;;
  _gravar_todas_as_tarefas (tarefas ++ [tarefa]) ;;;
  ret tarefa.

Definition atualizar_corpo_so_store (payload : TarefaAtualizar.t)
    (tarefas : list Tarefa.t) (idx : nat) (t : Tarefa.t) : M Tarefa.t :=
  nova <- elevar (Tarefa.init
            (Tarefa.model_copy_dump t
               (TarefaAtualizar.model_dump_exclude_unset payload))) ;;
  tarefas <- setitem tarefas idx nova ;;
  _gravar_todas_as_tarefas tarefas ;;;
  getitem tarefas idx.

Fixpoint atualizar_laco_so_store (task_id : Z) (payload : TarefaAtualizar.t)
    (tarefas : list Tarefa.t) (idx : nat) (resto : list Tarefa.t)
  : M Tarefa.t :=
  match resto with
  | [] => raise nao_encontrada
  | t :: resto' =>
      if (Tarefa.id t =? task_id)%Z
      then atualizar_corpo_so_store payload tarefas idx t
      else atualizar_laco_so_store task_id payload tarefas (S idx) resto'
  end.

Definition atualizar_so_store (task_id : Z) (payload : TarefaAtualizar.t)
  : M Tarefa.t :=
  tarefas <- _ler_todas_as_tarefas ;;
  atualizar_laco_so_store task_id payload tarefas 0 tarefas.

Definition saude_so_store : M Saude :=
  ret {| status := lit "ok"; redis := false |}.

(** *** Requests, one after another *)

Inductive Requisicao :=
| GET_health
| GET_tasks
| POST_tasks (payload : TarefaCriar.t)
| PUT_tasks (task_id : Z) (payload : TarefaAtualizar.t).

Inductive Resposta :=
| RSaude (s : Saude)
| RLista (l : list Tarefa.t)
| RTarefa (t : Tarefa.t).

Definition mapear {A B} (f : A -> B) (m : M A) : M B :=
  a <- m ;; ret (f a).

Definition rota (r : Requisicao) : M Resposta :=
  match r with
  | GET_health => mapear RSaude saude
  | GET_tasks => mapear RLista listar_tarefas
  | POST_tasks p => mapear RTarefa (adicionar_tarefa p)
  | PUT_tasks i p => mapear RTarefa (editar_tarefa i p)
  end.

Definition rota_so_store (r : Requisicao) : M Resposta :=
  match r with
  | GET_health => mapear RSaude saude_so_store
  | GET_tasks => mapear RLista listar_so_store
  | POST_tasks p => mapear RTarefa (criar_so_store p)
  | PUT_tasks i p => mapear RTarefa (atualizar_so_store i p)
  end.

(** The answers to a sequence of requests; a request that raises does not
    stop the process. *)
Fixpoint atender (h : Requisicao -> M Resposta) (rs : list Requisicao)
    (w : Mundo) : list (Resultado Resposta) * Mundo :=
  match rs with
  | [] => ([], w)
  | r :: rs' =>
      let '(a, w1) := h r w in
      let '(l, w2) := atender h rs' w1 in
      (a :: l, w2)
  end.
End SoStore.

(** ** The file lock

    [_trava_arquivo] is one [asyncio.Lock] for the process, and the body of
    [_ler_todas_as_tarefas] and of [_gravar_todas_as_tarefas] is an
    [async with] on it.  Coroutines interleave at their [await]s; this is
    the control flow of the two functions between those points, with the
    data left out: where the source branches on data, either branch is a
    possible step. *)

Module Trava.
Inductive Ponto :=
| LerEspera      (* at [async with], waiting for the lock *)
| LerExiste      (* inside, before [ARQUIVO_DADOS.exists()] *)
| LerEmVoo       (* inside, awaiting [to_thread(read_text)] *)
| LerLido        (* inside, the text read, before [strip] and [json.loads] *)
| GravarEspera   (* at [async with], waiting for the lock *)
| GravarDumps    (* inside, awaiting [to_thread(json.dumps, ...)] *)
| GravarEmVoo    (* inside, awaiting [to_thread(write_text, texto)] *)
| Retornou       (* left the function by [return] *)
| Levantou.      (* left the function by an exception *)

(** Inside the [async with] block. *)
Definition dentro (p : Ponto) : bool :=
  match p with
  | LerExiste | LerEmVoo | LerLido | GravarDumps | GravarEmVoo => true
  | _ => false
  end.

(** A read or a write of the file is running in a worker thread. *)
Definition em_voo (p : Ponto) : bool :=
  match p with
  | LerEmVoo | GravarEmVoo => true
  | _ => false
  end.

Definition terminou (p : Ponto) : bool :=
  match p with
  | Retornou | Levantou => true
  | _ => false
  end.

(** [locked] is the lock's [_locked]; [corrotinas] are the calls of the
    two functions made so far, each at its point. *)
Record Estado := {
  locked : bool;
  corrotinas : list Ponto
}.

Definition inicial : Estado := {| locked := false; corrotinas := [] |}.

Inductive Desfecho := Segue | Retorna | Levanta.

Inductive Evento :=
| ChamarLer
| ChamarGravar
| Retomar (i : nat) (d : Desfecho).

(** What coroutine at point [p] does when the loop resumes it: the next
    point, and whether the step acquires ([Some true]) or releases
    ([Some false]) the lock. *)
Definition retomar (p : Ponto) (d : Desfecho)
  : option (Ponto * option bool) :=
  match p, d with
  | LerEspera, Segue => Some (LerExiste, Some true)
  | LerExiste, Segue => Some (LerEmVoo, None)
  | LerExiste, Retorna => Some (Retornou, Some false)
  | LerEmVoo, Segue => Some (LerLido, None)
  | LerLido, Retorna => Some (Retornou, Some false)
  | GravarEspera, Segue => Some (GravarDumps, Some true)
  | GravarDumps, Segue => Some (GravarEmVoo, None)
  | GravarEmVoo, Retorna => Some (Retornou, Some false)
  | (LerExiste | LerEmVoo | LerLido | GravarDumps | GravarEmVoo), Levanta =>
      Some (Levantou, Some false)
  | _, _ => None
  end.

(** One step of the event loop; [None] when the event cannot happen (a
    coroutine waiting for a lock that is held is not resumed). *)
Definition passo (e : Evento) (s : Estado) : option Estado :=
  match e with
  | ChamarLer =>
      Some {| locked := locked s; corrotinas := corrotinas s ++ [LerEspera] |}
  | ChamarGravar =>
      Some {| locked := locked s;
              corrotinas := corrotinas s ++ [GravarEspera] |}
  | Retomar i d =>
      match corrotinas s !! i with
      | None => None
      | Some p =>
          match retomar p d with
          | None => None
          | Some (p', None) =>
              Some {| locked := locked s;
                      corrotinas := <[i := p']> (corrotinas s) |}
          | Some (p', Some true) =>
              if locked s then None
              else Some {| locked := true;
                           corrotinas := <[i := p']> (corrotinas s) |}
          | Some (p', Some false) =>
              Some {| locked := false;
                      corrotinas := <[i := p']> (corrotinas s) |}
          end
      end
  end.

Fixpoint executar (es : list Evento) (s : Estado) : option Estado :=
  match es with
  | [] => Some s
  | e :: es' =>
      match passo e s with
      | Some s' => executar es' s'
      | None => None
      end
  end.
End Trava.

(** ** Notions used to state the properties *)

(** A computation that leaves the file as it found it. *)
Definition preserva_arquivo {A} (m : M A) : Prop :=
  forall w, arquivo (snd (m w)) = arquivo w.


(** What may follow a number in a text without changing how the number
    reads: the end, or a character that is no digit, point or exponent
    mark. *)
Definition fim_numero (rest : str) : bool :=
  match rest with
  | [] => true
  | c :: _ =>
      match digito c with
      | Some _ => false
      | None => negb ((c =? 46) || (c =? 101) || (c =? 69))
      end
  end.

(** The number of calls that scanning a value takes. *)
Fixpoint tamanho (v : json) : nat :=
  match v with
  | JArr xs => S (list_sum (List.map (fun x => S (tamanho x)) xs))
  | JObj ps => S (list_sum (List.map (fun kv => S (tamanho (snd kv))) ps))
  | _ => 1
  end.

(** Values without floats whose dicts have distinct keys, as [model_dump]
    produces them. *)
#[local] Unset Elimination Schemes.
Inductive bem_formado : json -> Prop :=
| bf_null : bem_formado JNull
| bf_bool b : bem_formado (JBool b)
| bf_int z : bem_formado (JInt z)
| bf_str s : bem_formado (JStr s)
| bf_arr xs : Forall bem_formado xs -> bem_formado (JArr xs)
| bf_obj ps :
    List.NoDup (List.map fst ps) ->
    Forall (fun kv => bem_formado (snd kv)) ps ->
    bem_formado (JObj ps).
#[local] Set Elimination Schemes.

(** With [n] calls allowed, the scanner reads back every well-formed value
    that takes at most [n], whatever follows it. *)
Definition relido (indent : option nat) (n : nat) : Prop :=
  forall v, bem_formado v -> (tamanho v <= n)%nat ->
  forall nivel rest, fim_numero rest = true ->
  scan_once n (iterencode indent false nivel v ++ rest) = Some (v, rest).

(** The text that [_gravar_todas_as_tarefas] writes for a list. *)
Definition texto_de (ts : list Tarefa.t) : str :=
  json_dumps (Some 2%nat) false
    (JArr (List.map (fun t => JObj (Tarefa.model_dump t)) ts)).


(** The sentence of the specification on the cache handle, as it is
    worded: once a call of [obter_redis] has failed to initialise the
    handle, every later call, whatever the server has become, returns no
    handle and sends nothing. *)
Definition handle_permanente : Prop :=
  forall w w1 : Mundo,
    cliente_redis w = None ->
    obter_redis w = (Ok None, w1) ->
    forall s : ServidorRedis,
      obter_redis (com_servidor s w1) = (Ok None, com_servidor s w1).

(** How many coroutines are inside the [async with] block. *)
Definition quantos_dentro (l : list Trava.Ponto) : nat :=
  length (List.filter Trava.dentro l).

(** The lock is held exactly when one coroutine is inside the block, and
    then no other is. *)
Definition trava_coerente (s : Trava.Estado) : Prop :=
  quantos_dentro (Trava.corrotinas s) =
  if Trava.locked s then 1%nat else 0%nat.

(** A store-only world [v] stands for the world [w] of a process whose
    Redis server does not answer and whose handle is [c]: the file is the
    same.  The handle is [None] when the server has been down since the
    process started. *)
Definition sem_cache (c : option Redis) (w v : Mundo) : Prop :=
  arquivo w = arquivo v /\ cliente_redis w = c /\
  no_ar (servidor w) = false.

(** Two outcomes that agree: the same answer, in worlds that correspond. *)
Definition corresponde {A} (c : option Redis) (x y : Resultado A * Mundo)
  : Prop :=
  fst x = fst y /\ sem_cache c (snd x) (snd y).

(** The exceptions that only a Redis command raises. *)
Definition erro_de_cache (e : Excecao) : Prop :=
  e = ConnectionError \/ e = ResponseError.

(** ** Concrete data for the examples *)

(** An environment whose lax conversions accept nothing more than the
    field's own type, with the default expiry of 60 seconds. *)
Definition amb_estrito : Ambiente :=
  {| int_lax := fun _ => None; bool_lax := fun _ => None;
     TTL_CACHE_SEGUNDOS := 60 |}.

(** A process that has just started, with no data file and a Redis server
    that does not answer. *)
Definition mundo_novo : Mundo :=
  {| arquivo := None; cliente_redis := None;
     servidor := {| no_ar := false; dados := None |}; registro := [] |}.

Definition buy_milk : TarefaCriar.t :=
  {| TarefaBase.titulo := lit "Buy milk"; TarefaBase.descricao := None;
     TarefaBase.concluida := false |}.

Definition tarefa_1 : Tarefa.t :=
  {| Tarefa.titulo := lit "Buy milk"; Tarefa.descricao := None;
     Tarefa.concluida := false; Tarefa.id := 1 |}.

Definition tarefa_2 : Tarefa.t :=
  {| Tarefa.titulo := lit "Walk dog"; Tarefa.descricao := Some (lit "at 6");
     Tarefa.concluida := false; Tarefa.id := 2 |}.

(** The state after [tarefa_1] and [tarefa_2] were saved. *)
Definition mundo_2 : Mundo :=
  com_arquivo (Some (texto_de [tarefa_1; tarefa_2])) mundo_novo.

(** The patch that sets [concluida] to true and nothing else. *)
Definition so_concluida : TarefaAtualizar.t :=
  {| TarefaAtualizar.titulo := None; TarefaAtualizar.descricao := None;
     TarefaAtualizar.concluida := Some (Some true) |}.

(** A file with one record that has an id and no title. *)
Definition mundo_sem_titulo : Mundo :=
  com_arquivo
    (Some (json_dumps (Some 2%nat) false (JArr [JObj [(lit "id", JInt 1)]])))
    mundo_novo.

(** Two calls, of which the first has started to read the file. *)
Definition leitura_em_voo : Trava.Estado :=
  {| Trava.locked := true;
     Trava.corrotinas := [Trava.LerEmVoo; Trava.GravarEspera] |}.

(** A scanner called with [n] calls allowed needs no more than it has
    characters to read: a result is strictly shorter than the text, and
    comes out the same with any allowance above the number of characters
    read. *)
Definition basta {A} (f : nat -> str -> option (A * str)) (n : nat) : Prop :=
  forall s x r,
    f n s = Some (x, r) ->
    (length r < length s)%nat /\
    forall m, (length s - length r < m)%nat -> f m s = Some (x, r).

(** ** Notions used for the remaining properties *)

(** A patch whose supplied values a task accepts: a title, when given, is a
    string of 1 to 200 characters; a description, when given, is [null] or
    a string of at most 2000 characters; [concluida], when given, is a
    boolean. *)
Definition remendo_aceito (p : TarefaAtualizar.t) : Prop :=
  match TarefaAtualizar.titulo p with
  | None => True
  | Some None => False
  | Some (Some s) => str_unicode s = true /\ (1 <= length s <= 200)%nat
  end /\
  match TarefaAtualizar.descricao p with
  | Some (Some s) => str_unicode s = true /\ (length s <= 2000)%nat
  | _ => True
  end /\
  TarefaAtualizar.concluida p <> Some None.

(** The task [t] with every field that the patch supplies replaced. *)
Definition remendar (p : TarefaAtualizar.t) (t : Tarefa.t) : Tarefa.t :=
  {| Tarefa.titulo :=
       match TarefaAtualizar.titulo p with
       | Some (Some s) => s
       | _ => Tarefa.titulo t
       end;
     Tarefa.descricao :=
       match TarefaAtualizar.descricao p with
       | Some d => d
       | None => Tarefa.descricao t
       end;
     Tarefa.concluida :=
       match TarefaAtualizar.concluida p with
       | Some (Some b) => b
       | _ => Tarefa.concluida t
       end;
     Tarefa.id := Tarefa.id t |}.


(** The text that [listar_tarefas] stores in the cache for a list. *)
Definition texto_cache (ts : list Tarefa.t) : str :=
  json_dumps None true
    (JArr (List.map (fun t => JObj (Tarefa.model_dump t)) ts)).

(** What a list request finds in the cache of [w]: the tasks of the entry,
    when the server answers and holds a text that is not empty and that
    [json.loads] and the [Tarefa] constructor accept. *)
Definition lido_do_cache `{Ambiente} (w : Mundo) : option (list Tarefa.t) :=
  if no_ar (servidor w) then
    match dados (servidor w) with
    | Some (c :: s) =>
        match tarefas_de_texto (c :: s) with
        | Ok ts => Some ts
        | Erro _ => None
        end
    | _ => None
    end
  else None.

(** The first task of a list with a given id, and its position: what the
    loop of [editar_tarefa] stops at. *)
Fixpoint posicao (task_id : Z) (ts : list Tarefa.t)
  : option (nat * Tarefa.t) :=
  match ts with
  | [] => None
  | t :: r =>
      if (Tarefa.id t =? task_id)%Z then Some (0%nat, t)
      else match posicao task_id r with
           | Some (i, x) => Some (S i, x)
           | None => None
           end
  end.

(** The two write requests without their effects: from the list that was
    read, the task to answer and the list to store, or the exception. *)
Definition criar_puro `{Ambiente} (p : TarefaCriar.t) (ts : list Tarefa.t)
  : Resultado (Tarefa.t * list Tarefa.t) :=
  match Tarefa.init
          [(lit "id", JInt (_proximo_id ts));
           (lit "titulo", JStr (TarefaCriar.titulo p));
           (lit "descricao",
            TarefaAtualizar.json_de_str (TarefaCriar.descricao p));
           (lit "concluida", JBool (TarefaCriar.concluida p))] with
  | Ok t => Ok (t, ts ++ [t])
  | Erro e => Erro e
  end.

Definition editar_puro `{Ambiente} (task_id : Z) (p : TarefaAtualizar.t)
    (ts : list Tarefa.t) : Resultado (Tarefa.t * list Tarefa.t) :=
  match posicao task_id ts with
  | None => Erro nao_encontrada
  | Some (idx, t) =>
      match Tarefa.init
              (Tarefa.model_copy_dump t
                 (TarefaAtualizar.model_dump_exclude_unset p)) with
      | Ok nova => Ok (nova, <[idx := nova]> ts)
      | Erro e => Erro e
      end
  end.

Definition resultado_escrita `{Ambiente}
    (puro : list Tarefa.t -> Resultado (Tarefa.t * list Tarefa.t))
    (w : Mundo) : Resultado (Tarefa.t * list Tarefa.t) :=
  match fst (_ler_todas_as_tarefas w) with
  | Ok ts => puro ts
  | Erro e => Erro e
  end.

(** What a write request leaves behind in [w'] when it started in [w] and
    its pure part came out as [r]: on success the file holds the new list
    and the cached list is gone if the server answers; on failure the file
    and the cache are as before. *)
Definition apos_escrita (r : Resultado (Tarefa.t * list Tarefa.t))
    (w w' : Mundo) : Prop :=
  arquivo w' =
    match r with
    | Ok (_, ts') => Some (texto_de ts')
    | Erro _ => arquivo w
    end /\
  no_ar (servidor w') = no_ar (servidor w) /\
  dados (servidor w') =
    match r with
    | Ok _ => if no_ar (servidor w) then None else dados (servidor w)
    | Erro _ => dados (servidor w)
    end.

Definition resposta_escrita (r : Resultado (Tarefa.t * list Tarefa.t))
  : Resultado Tarefa.t :=
  match r with
  | Ok (t, _) => Ok t
  | Erro e => Erro e
  end.

(** The step that a call takes at point [p] when nothing fails and the
    file is there, and how many such steps it has left. *)
Definition segue_normal (p : Trava.Ponto) : option Trava.Desfecho :=
  match p with
  | Trava.LerEspera | Trava.LerExiste | Trava.LerEmVoo
  | Trava.GravarEspera | Trava.GravarDumps => Some Trava.Segue
  | Trava.LerLido | Trava.GravarEmVoo => Some Trava.Retorna
  | Trava.Retornou | Trava.Levantou => None
  end.

Definition falta (p : Trava.Ponto) : nat :=
  match p with
  | Trava.LerEspera => 4
  | Trava.LerExiste | Trava.GravarEspera => 3
  | Trava.LerEmVoo | Trava.GravarDumps => 2
  | Trava.LerLido | Trava.GravarEmVoo => 1
  | Trava.Retornou | Trava.Levantou => 0
  end.

Definition falta_total (l : list Trava.Ponto) : nat :=
  list_sum (List.map falta l).

(** An event that resumes a call and does not make it raise. *)
Definition retomada_normal (e : Trava.Evento) : Prop :=
  match e with
  | Trava.Retomar _ d => d <> Trava.Levanta
  | _ => False
  end.

(** ** Strings under [ensure_ascii=True] *)

(** A Unicode scalar value: a code point that is no surrogate. *)
Definition escalar (c : char) : bool :=
  (c <? 1114112) && negb (surrogate c).

(** The strings that [json.loads] gives back from what [json.dumps] writes
    for them: every string when the characters are kept as they are, and
    the strings of scalar values when [ensure_ascii=True] writes the
    characters beyond the Basic Multilingual Plane as surrogate pairs. *)
Definition legivel (ensure_ascii : bool) (s : str) : Prop :=
  ensure_ascii = true -> forallb escalar s = true.

(** Every string of a value, keys included, satisfies [P]. *)
#[local] Unset Elimination Schemes.
Inductive strings_em (P : str -> Prop) : json -> Prop :=
| se_null : strings_em P JNull
| se_bool b : strings_em P (JBool b)
| se_int z : strings_em P (JInt z)
| se_float t : strings_em P (JFloat t)
| se_str s : P s -> strings_em P (JStr s)
| se_arr xs : Forall (strings_em P) xs -> strings_em P (JArr xs)
| se_obj ps :
    Forall (fun kv => P (fst kv) /\ strings_em P (snd kv)) ps ->
    strings_em P (JObj ps).
#[local] Set Elimination Schemes.

(** With [n] calls allowed, the scanner reads back every well-formed value
    of legible strings that takes at most [n], whatever the layout. *)
Definition relido_em (indent : option nat) (ensure_ascii : bool) (n : nat)
  : Prop :=
  forall v, bem_formado v -> strings_em (legivel ensure_ascii) v ->
  (tamanho v <= n)%nat ->
  forall nivel rest, fim_numero rest = true ->
  scan_once n (iterencode indent ensure_ascii nivel v ++ rest) =
  Some (v, rest).

(** The strings of a task hold code points of Unicode only. *)
Definition codigos (s : str) : bool := forallb (fun c => c <? 1114112) s.

Definition tarefa_unicode (t : Tarefa.t) : Prop :=
  codigos (Tarefa.titulo t) = true /\
  match Tarefa.descricao t with
  | Some s => codigos s = true
  | None => True
  end.

(** ** The cache while the server answers *)

(** The cached list, when there is one that a list request would use, is
    the list that the file holds. *)
Definition cache_coerente `{Ambiente} (w : Mundo) : Prop :=
  forall ts, lido_do_cache w = Some ts ->
             fst (_ler_todas_as_tarefas w) = Ok ts.

(** The tasks of the file hold code points of Unicode only, as every
    Python [str] does. *)
Definition arquivo_unicode `{Ambiente} (w : Mundo) : Prop :=
  forall ts, fst (_ler_todas_as_tarefas w) = Ok ts ->
             Forall tarefa_unicode ts.

(** The same of the strings that a request carries. *)
Definition requisicao_unicode (r : Requisicao) : Prop :=
  match r with
  | POST_tasks p =>
      codigos (TarefaCriar.titulo p) = true /\
      match TarefaCriar.descricao p with
      | Some s => codigos s = true
      | None => True
      end
  | PUT_tasks _ p =>
      match TarefaAtualizar.titulo p with
      | Some (Some s) => codigos s = true
      | _ => True
      end /\
      match TarefaAtualizar.descricao p with
      | Some (Some s) => codigos s = true
      | _ => True
      end
  | _ => True
  end.

(** An answer with the cache flag of a health report cleared. *)
Definition sem_redis (a : Resultado Resposta) : Resultado Resposta :=
  match a with
  | Ok (RSaude s) => Ok (RSaude {| status := status s; redis := false |})
  | _ => a
  end.

(** A process whose server answers, whose cached list, if any, is the
    list of the file, and whose file holds Unicode text. *)
Definition servido_com_cache `{Ambiente} (w : Mundo) : Prop :=
  no_ar (servidor w) = true /\ cache_coerente w /\ arquivo_unicode w.

(** ** Requests that interleave *)


(** The state with the server of [w] answering again, its entry as it
    was left. *)
Definition servidor_de_volta (w : Mundo) : Mundo :=
  com_servidor {| no_ar := true; dados := dados (servidor w) |} w.

(** ** More concrete data *)

(** The state of [mundo_2] with a Redis server that answers and holds no
    entry. *)
Definition mundo_2_no_ar : Mundo :=
  com_servidor {| no_ar := true; dados := None |} mundo_2.

(** The state of [mundo_2] with a server that does not answer and still
    holds the list cached when [tarefa_1] was the only task. *)
Definition mundo_2_sem_resposta : Mundo :=
  com_servidor {| no_ar := false; dados := Some (texto_cache [tarefa_1]) |}
    mundo_2.

(** A patch that renames a task, clears its description and completes
    it. *)
Definition renomear : TarefaAtualizar.t :=
  {| TarefaAtualizar.titulo := Some (Some (lit "Walk cat"));
     TarefaAtualizar.descricao := Some None;
     TarefaAtualizar.concluida := Some (Some true) |}.

Definition tarefa_3 : Tarefa.t :=
  {| Tarefa.titulo := lit "Buy milk"; Tarefa.descricao := None;
     Tarefa.concluida := false; Tarefa.id := 3 |}.

(** The ids of a list count from one in the order of the list. *)
Definition ids_de_um (ts : list Tarefa.t) : Prop :=
  List.map Tarefa.id ts = List.map Z.of_nat (seq 1 (length ts)).
(** * Text and dictionaries *)

Lemma str_eqb_eq (a b : str) : str_eqb a b = true <-> a = b.
Proof.
  revert b; induction a as [|x a IH]; intros [|y b]; simpl; try easy.
  rewrite andb_true_iff, N.eqb_eq, IH. split.
  - intros [-> ->]; reflexivity.
  - intros H; injection H; auto.
Qed.

Lemma str_eqb_refl (a : str) : str_eqb a a = true.
Proof. apply str_eqb_eq; reflexivity. Qed.

Lemma str_eqb_neq (a b : str) : a <> b -> str_eqb a b = false.
Proof.
  intros H. destruct (str_eqb a b) eqn:E; [|reflexivity].
  apply str_eqb_eq in E. contradiction.
Qed.

Lemma dict_set_novo d k v :
  ~ In k (List.map fst d) -> dict_set d k v = d ++ [(k, v)].
Proof.
  induction d as [|[k' v'] d IH]; simpl; intros H; [reflexivity|].
  rewrite str_eqb_neq by (intros ->; apply H; auto).
  rewrite IH by (intros Hin; apply H; auto). reflexivity.
Qed.

Lemma dict_de_pares_acc ps : forall acc,
  List.NoDup (List.map fst (acc ++ ps)) ->
  fold_left (fun d kv => dict_set d (fst kv) (snd kv)) ps acc = acc ++ ps.
Proof.
  induction ps as [|[k v] ps IH]; intros acc H; simpl.
  - rewrite app_nil_r; reflexivity.
  - rewrite dict_set_novo.
    + rewrite IH; rewrite <- app_assoc; [reflexivity | exact H].
    + rewrite List.map_app in H. simpl in H.
      apply List.NoDup_remove_2 in H. intros Hin; apply H.
      apply List.in_or_app; left; exact Hin.
Qed.

Lemma dict_de_pares_id ps :
  List.NoDup (List.map fst ps) -> dict_de_pares ps = ps.
Proof. intros H. unfold dict_de_pares. rewrite dict_de_pares_acc; auto. Qed.

(** * White space *)

Lemma skip_ws_espacos n s : skip_ws (espacos n ++ s) = skip_ws s.
Proof. induction n as [|n IH]; simpl; auto. Qed.

Lemma skip_ws_id c s : eh_ws c = false -> skip_ws (c :: s) = c :: s.
Proof. intros H; simpl; rewrite H; reflexivity. Qed.

Lemma skip_ws_newline_indent indent nivel s :
  skip_ws (newline_indent indent nivel ++ s) = skip_ws s.
Proof.
  destruct indent as [k|]; simpl; [apply skip_ws_espacos | reflexivity].
Qed.

(** * Strings *)

Lemma cons_fst_some c t r : cons_fst c (Some (t, r)) = Some (c :: t, r).
Proof. reflexivity. Qed.

Lemma hex_valor_digito n : n < 16 -> hex_valor (hex_digito n) = Some n.
Proof.
  intros H. rewrite <- (N2Nat.id n).
  assert (Hk : (N.to_nat n < 16)%nat) by lia.
  revert Hk. generalize (N.to_nat n) as k. intros k Hk.
  do 16 (destruct k as [|k]; [reflexivity|]). lia.
Qed.

Lemma hex4_escape n :
  n < 65536 ->
  hex4 (hex_digito (n / 4096 mod 16)) (hex_digito (n / 256 mod 16))
       (hex_digito (n / 16 mod 16)) (hex_digito (n mod 16)) = Some n.
Proof.
  intros H. unfold hex4.
  rewrite !hex_valor_digito by (apply N.mod_lt; discriminate).
  f_equal.
  replace (n / 256) with (n / 16 / 16) by (rewrite N.Div0.div_div; reflexivity).
  replace (n / 4096) with (n / 16 / 16 / 16)
    by (rewrite !N.Div0.div_div; reflexivity).
  pose proof (N.div_mod n 16 ltac:(discriminate)) as E0.
  pose proof (N.div_mod (n / 16) 16 ltac:(discriminate)) as E1.
  pose proof (N.div_mod (n / 16 / 16) 16 ltac:(discriminate)) as E2.
  assert (H1 : n / 16 / 16 / 16 < 16).
  { rewrite !N.Div0.div_div. apply N.Div0.div_lt_upper_bound. simpl. lia. }
  rewrite (N.mod_small (n / 16 / 16 / 16)) by exact H1.
  lia.
Qed.

Lemma scanstring_cru c r :
  c <> 34 -> c <> 92 -> 32 <= c ->
  scanstring (c :: r) = cons_fst c (scanstring r).
Proof.
  intros H1 H2 H3. simpl.
  destruct (N.eqb_spec c 34); [contradiction|].
  destruct (N.eqb_spec c 92); [contradiction|].
  destruct (N.ltb_spec c 32); [lia|]. reflexivity.
Qed.

Lemma scanstring_simples e ch r :
  e <> 117 -> escape_simples e = Some ch ->
  scanstring (92 :: e :: r) = cons_fst ch (scanstring r).
Proof.
  intros H1 H2. simpl.
  destruct (N.eqb_spec e 117); [contradiction|].
  rewrite H2. reflexivity.
Qed.

Lemma scanstring_u h1 h2 h3 h4 uni r :
  hex4 h1 h2 h3 h4 = Some uni -> high_surrogate uni = false ->
  scanstring (92 :: 117 :: h1 :: h2 :: h3 :: h4 :: r) =
  cons_fst uni (scanstring r).
Proof.
  intros H1 H2. cbn [scanstring N.eqb Pos.eqb]. rewrite H1, H2.
  destruct r as [|b [|u [|g1 [|g2 [|g3 [|g4 r3]]]]]]; reflexivity.
Qed.

Lemma scanstring_escape_char c r :
  scanstring (escape_char false c ++ r) = cons_fst c (scanstring r).
Proof.
  unfold escape_char, escape_curto.
  destruct (N.eqb_spec c 34) as [->|H34]; [reflexivity|].
  destruct (N.eqb_spec c 92) as [->|H92]; [reflexivity|].
  destruct (N.eqb_spec c 10) as [->|H10]; [reflexivity|].
  destruct (N.eqb_spec c 13) as [->|H13]; [reflexivity|].
  destruct (N.eqb_spec c 9) as [->|H9]; [reflexivity|].
  destruct (N.eqb_spec c 12) as [->|H12]; [reflexivity|].
  destruct (N.eqb_spec c 8) as [->|H8]; [reflexivity|].
  destruct (N.ltb_spec c 32) as [Hlt|Hge].
  - unfold escape_u. cbn [app].
    apply scanstring_u.
    + apply hex4_escape. lia.
    + unfold high_surrogate. destruct (N.leb_spec 55296 c); [lia | reflexivity].
  - cbn [negb app]. apply scanstring_cru; assumption.
Qed.

Lemma scanstring_escape s rest :
  scanstring (flat_map (escape_char false) s ++ 34 :: rest) = Some (s, rest).
Proof.
  induction s as [|c s IH]; [reflexivity|].
  cbn [flat_map]. rewrite <- app_assoc, scanstring_escape_char, IH.
  reflexivity.
Qed.

Lemma scan_once_str n s rest :
  scan_once (S n) (encode_basestring false s ++ rest) = Some (JStr s, rest).
Proof.
  unfold encode_basestring. cbn [app scan_once N.eqb Pos.eqb].
  rewrite <- app_assoc. cbn [app]. rewrite scanstring_escape. reflexivity.
Qed.

(** * Numbers *)

Ltac casos_digito c :=
  unfold digito in *;
  repeat match goal with
         | |- context [N.eqb c ?k] => destruct (N.eqb_spec c k); [subst c|]
         | H : context [N.eqb c ?k] |- _ => destruct (N.eqb_spec c k); [subst c|]
         end.

Lemma digito_intervalo c : digito c <> None <-> 48 <= c <= 57.
Proof.
  split.
  - intros H. casos_digito c; try lia. exfalso; apply H; reflexivity.
  - intros H.
    assert (E : c = 48 \/ c = 49 \/ c = 50 \/ c = 51 \/ c = 52 \/ c = 53 \/
                c = 54 \/ c = 55 \/ c = 56 \/ c = 57) by lia.
    repeat (destruct E as [-> | E]; [discriminate|]). subst; discriminate.
Qed.

Lemma scan_digitos_chars u rest :
  match rest with [] => True | c :: _ => digito c = None end ->
  scan_digitos (chars_de_uint u ++ rest) = (u, rest).
Proof.
  intros H.
  induction u; cbn [chars_de_uint app scan_digitos digito N.eqb Pos.eqb];
    try (rewrite IHu; reflexivity).
  destruct rest as [|c r]; [reflexivity|].
  cbn [scan_digitos]. rewrite H. reflexivity.
Qed.

Lemma fim_numero_digito rest :
  fim_numero rest = true ->
  match rest with [] => True | c :: _ => digito c = None end.
Proof.
  destruct rest as [|c r]; [trivial|]. simpl.
  destruct (digito c); [discriminate | reflexivity].
Qed.

Lemma scan_frac_fim rest : fim_numero rest = true -> scan_frac rest = ([], rest).
Proof.
  destruct rest as [|c r]; [reflexivity|]. simpl.
  destruct (digito c); [discriminate|].
  destruct (N.eqb_spec c 46); [discriminate | reflexivity].
Qed.

Lemma scan_exp_fim rest : fim_numero rest = true -> scan_exp rest = ([], rest).
Proof.
  destruct rest as [|c r]; [reflexivity|]. simpl.
  destruct (digito c); [discriminate|].
  destruct (N.eqb_spec c 46); [discriminate|].
  destruct (N.eqb_spec c 101); [discriminate|].
  destruct (N.eqb_spec c 69); [discriminate | reflexivity].
Qed.

(** The decimal digits of a positive number start with a non-zero one. *)
Lemma to_uint_cabeca p :
  exists c t, chars_de_uint (Pos.to_uint p) = c :: t /\
              49 <= c <= 57.
Proof.
  assert (Hn : unorm (Pos.to_uint p) = Pos.to_uint p).
  { rewrite <- (DecimalPos.Unsigned.to_of (Pos.to_uint p)).
    rewrite DecimalPos.Unsigned.of_to. reflexivity. }
  pose proof (DecimalPos.Unsigned.to_uint_nonzero p) as Hz.
  destruct (Pos.to_uint p) as [|u|u|u|u|u|u|u|u|u|u] eqn:E;
    try (eexists _, _; split; [reflexivity | lia]).
  - discriminate Hn.
  - exfalso. rewrite unorm_D0 in Hn. unfold unorm in Hn.
    destruct (nzhead u) eqn:Hh; try discriminate Hn.
    + injection Hn as <-. apply Hz. reflexivity.
    + injection Hn as ->. apply (nzhead_nonzero _ _ Hh).
Qed.

Lemma match_number_uint (neg : bool) u c t rest :
  chars_de_uint u = c :: t -> 49 <= c <= 57 -> fim_numero rest = true ->
  match_number ((if neg then [45] else []) ++ chars_de_uint u ++ rest) =
  Some (JInt (Z.of_int (if neg then Neg u else Pos u)), rest).
Proof.
  intros E Hc Hf.
  assert (Hd : digito c <> None) by (apply digito_intervalo; lia).
  assert (H48 : (c =? 48) = false) by (apply N.eqb_neq; lia).
  assert (H45 : (c =? 45) = false) by (apply N.eqb_neq; lia).
  assert (Hs : scan_digitos (c :: t ++ rest) = (u, rest)).
  { change (c :: t ++ rest) with ((c :: t) ++ rest). rewrite <- E.
    apply scan_digitos_chars, fim_numero_digito, Hf. }
  unfold match_number.
  destruct neg; cbn [app N.eqb Pos.eqb]; rewrite E; cbn [app];
    rewrite ?H45; destruct (digito c) eqn:Ed; try contradiction;
    rewrite H48, Hs, (scan_frac_fim _ Hf), (scan_exp_fim _ Hf); reflexivity.
Qed.

Lemma match_number_repr z rest :
  fim_numero rest = true ->
  match_number (repr_int z ++ rest) = Some (JInt z, rest).
Proof.
  intros Hf. unfold repr_int. destruct z as [|p|p].
  - cbn. rewrite (scan_frac_fim _ Hf), (scan_exp_fim _ Hf). reflexivity.
  - destruct (to_uint_cabeca p) as (c & t & E & Hc).
    cbn [Z.to_int].
    pose proof (match_number_uint false _ c t rest E Hc Hf) as Hm.
    cbn [app] in Hm. refine (eq_trans Hm _).
    change (Pos (Pos.to_uint p)) with (Z.to_int (Z.pos p)).
    rewrite DecimalZ.of_to. reflexivity.
  - destruct (to_uint_cabeca p) as (c & t & E & Hc).
    cbn [Z.to_int].
    pose proof (match_number_uint true _ c t rest E Hc Hf) as Hm.
    cbn [app] in Hm |- *. refine (eq_trans Hm _).
    change (Neg (Pos.to_uint p)) with (Z.to_int (Z.neg p)).
    rewrite DecimalZ.of_to. reflexivity.
Qed.

(** The first character of a number as [repr_int] writes it. *)
Lemma repr_int_cabeca z :
  exists c t, repr_int z = c :: t /\
    (48 <= c <= 57 \/ (c = 45 /\ exists d t', t = d :: t' /\ 48 <= d <= 57)).
Proof.
  unfold repr_int. destruct z as [|p|p]; cbn [Z.to_int].
  - eexists _, _; split; [reflexivity | left; lia].
  - destruct (to_uint_cabeca p) as (c & t & E & Hc).
    exists c, t; split; [exact E | left; lia].
  - destruct (to_uint_cabeca p) as (c & t & E & Hc).
    eexists _, _; split; [reflexivity|]. right. split; [reflexivity|].
    exists c, t; split; [exact E | lia].
Qed.

Lemma scan_once_digito n c r :
  48 <= c <= 57 -> scan_once (S n) (c :: r) = match_number (c :: r).
Proof.
  intros H.
  assert (E : c = 48 \/ c = 49 \/ c = 50 \/ c = 51 \/ c = 52 \/ c = 53 \/
              c = 54 \/ c = 55 \/ c = 56 \/ c = 57) by lia.
  repeat (destruct E as [-> | E]; [reflexivity|]). subst; reflexivity.
Qed.

Lemma scan_once_menos n d r :
  48 <= d <= 57 -> scan_once (S n) (45 :: d :: r) = match_number (45 :: d :: r).
Proof.
  intros H.
  assert (E : d = 48 \/ d = 49 \/ d = 50 \/ d = 51 \/ d = 52 \/ d = 53 \/
              d = 54 \/ d = 55 \/ d = 56 \/ d = 57) by lia.
  repeat (destruct E as [-> | E]; [reflexivity|]). subst; reflexivity.
Qed.

Lemma scan_once_int n z rest :
  fim_numero rest = true ->
  scan_once (S n) (repr_int z ++ rest) = Some (JInt z, rest).
Proof.
  intros Hf. rewrite <- (match_number_repr z rest Hf).
  destruct (repr_int_cabeca z) as (c & t & E & [Hc | [-> (d & t' & -> & Hd)]]);
    rewrite E; cbn [app].
  - apply scan_once_digito, Hc.
  - apply scan_once_menos, Hd.
Qed.

(** * Values *)

Lemma json_ind (P : json -> Prop) :
  P JNull -> (forall b, P (JBool b)) -> (forall z, P (JInt z)) ->
  (forall t, P (JFloat t)) -> (forall s, P (JStr s)) ->
  (forall xs, Forall P xs -> P (JArr xs)) ->
  (forall ps, Forall (fun kv => P (snd kv)) ps -> P (JObj ps)) ->
  forall v, P v.
Proof.
  intros Hn Hb Hi Hf Hs Ha Ho.
  fix IH 1. intros [| b | z | t | s | xs | ps];
    [exact Hn | apply Hb | apply Hi | apply Hf | apply Hs | |].
  - apply Ha. induction xs as [|x xs IHxs]; constructor; [apply IH | exact IHxs].
  - apply Ho. induction ps as [|[k x] ps IHps]; constructor;
      [apply IH | exact IHps].
Qed.

Section Ida_e_volta.
Variable indent : option nat.

Abbreviation enc := (iterencode indent false).
Abbreviation nl := (newline_indent indent).
Abbreviation sep := (separator indent).

Lemma iterencode_cabeca v nivel :
  bem_formado v ->
  exists c t, enc nivel v = c :: t /\ eh_ws c = false /\ c <> 93.
Proof.
  intros H. destruct H as [|[]| z |s|xs _|ps _ _];
    try (eexists _, _; split; [reflexivity | split; [reflexivity | discriminate]]).
  - destruct (repr_int_cabeca z) as (c & t & E & Hc).
    exists c, t. split; [exact E|].
    assert (Hr : 48 <= c <= 57 \/ c = 45) by (destruct Hc as [?|[? _]]; auto).
    unfold eh_ws. split.
    + destruct (N.eqb_spec c 32); [lia|]. destruct (N.eqb_spec c 9); [lia|].
      destruct (N.eqb_spec c 10); [lia|]. destruct (N.eqb_spec c 13); [lia|].
      reflexivity.
    + lia.
  - destruct xs;
      (eexists _, _; split; [reflexivity | split; [reflexivity | discriminate]]).
  - destruct ps as [|[k x] ps];
      (eexists _, _; split; [reflexivity | split; [reflexivity | discriminate]]).
Qed.

Lemma skip_ws_iterencode v nivel s :
  bem_formado v -> skip_ws (enc nivel v ++ s) = enc nivel v ++ s.
Proof.
  intros H. destruct (iterencode_cabeca v nivel H) as (c & t & E & Hw & _).
  rewrite E. cbn [app]. apply skip_ws_id, Hw.
Qed.

Lemma fim_numero_nl nivel c rest :
  c = 93 \/ c = 125 -> fim_numero (nl nivel ++ c :: rest) = true.
Proof.
  intros [-> | ->]; destruct indent; reflexivity.
Qed.

Lemma fim_numero_sep nivel rest : fim_numero (sep nivel ++ rest) = true.
Proof. destruct indent; reflexivity. Qed.

Lemma skip_ws_sep nivel s :
  exists r, sep nivel ++ s = 44 :: r /\ skip_ws r = skip_ws s.
Proof.
  unfold separator. destruct indent as [k|] eqn:E.
  - eexists; split; [reflexivity|].
    cbn [app]. rewrite <- E. apply skip_ws_newline_indent.
  - eexists; split; reflexivity.
Qed.

Lemma JSONArray_itens n0 :
  (forall m, (m < n0)%nat -> relido indent m) ->
  forall xs x n nivel rest,
    (n <= n0)%nat ->
    Forall bem_formado (x :: xs) ->
    (list_sum (List.map (fun y => S (tamanho y)) (x :: xs)) <= n)%nat ->
    JSONArray n
      (enc (S nivel) x ++
       flat_map (fun y => sep (S nivel) ++ enc (S nivel) y) xs ++
       nl nivel ++ 93 :: rest) = Some (x :: xs, rest).
Proof.
  intros IH xs. induction xs as [|y xs IHxs]; intros x n nivel rest Hn Hbf Hs;
    destruct n as [|n']; cbn [List.map list_sum fold_right] in Hs; try lia;
    inversion Hbf as [|? ? Hx Hxs]; subst; cbn [JSONArray flat_map app].
  - rewrite (IH n'); [|lia|exact Hx|lia|apply fim_numero_nl; auto].
    rewrite skip_ws_newline_indent. reflexivity.
  - rewrite <- !app_assoc.
    rewrite (IH n'); [|lia|exact Hx|lia|apply fim_numero_sep].
    destruct (skip_ws_sep (S nivel)
                (enc (S nivel) y ++
                 flat_map (fun y0 => sep (S nivel) ++ enc (S nivel) y0) xs ++
                 nl nivel ++ 93 :: rest)) as (r & -> & Hr).
    cbn [skip_ws eh_ws N.eqb Pos.eqb orb]. rewrite Hr.
    rewrite skip_ws_iterencode by (inversion Hxs; assumption).
    rewrite IHxs; [reflexivity|lia|exact Hxs|].
    cbn [List.map list_sum fold_right]. lia.
Qed.

Lemma skip_ws_basestring ea k t :
  skip_ws (encode_basestring ea k ++ t) = encode_basestring ea k ++ t.
Proof. reflexivity. Qed.

Lemma JSONObject_pares n0 :
  (forall m, (m < n0)%nat -> relido indent m) ->
  forall ps k x n nivel rest,
    (n <= n0)%nat ->
    Forall (fun kv => bem_formado (snd kv)) ((k, x) :: ps) ->
    (list_sum (List.map (fun kv => S (tamanho (snd kv))) ((k, x) :: ps)) <= n)%nat ->
    JSONObject n
      (encode_basestring false k ++ [58; 32] ++ enc (S nivel) x ++
       flat_map (fun kv => let '(k', y) := kv in
                  sep (S nivel) ++ encode_basestring false k' ++ [58; 32] ++
                  enc (S nivel) y) ps ++
       nl nivel ++ 125 :: rest) = Some ((k, x) :: ps, rest).
Proof.
  intros IH ps.
  induction ps as [|[k' y] ps IHps]; intros k x n nivel rest Hn Hbf Hs;
    destruct n as [|n']; cbn [List.map list_sum fold_right snd] in Hs; try lia;
    inversion Hbf as [|? ? Hx Hxs]; subst; cbn [snd] in Hx;
    unfold encode_basestring at 1;
    cbn [JSONObject flat_map app N.eqb Pos.eqb];
    rewrite <- !app_assoc; cbn [app]; rewrite scanstring_escape;
    cbn [skip_ws eh_ws N.eqb Pos.eqb orb];
    rewrite skip_ws_iterencode by exact Hx.
  - rewrite (IH n'); [|lia|exact Hx|lia|apply fim_numero_nl; auto].
    rewrite skip_ws_newline_indent. reflexivity.
  - rewrite (IH n'); [|lia|exact Hx|lia|apply fim_numero_sep].
    match goal with
    | |- context [skip_ws (sep ?n ++ ?t)] =>
        destruct (skip_ws_sep n t) as (r & -> & Hr)
    end.
    cbn [skip_ws eh_ws N.eqb Pos.eqb orb]. rewrite Hr.
    rewrite skip_ws_basestring.
    match goal with
    | |- context [JSONObject n' ?t] =>
        assert (E : JSONObject n' t = Some ((k', y) :: ps, rest))
    end.
    { apply (IHps k' y n' nivel rest); [lia|exact Hxs|].
      cbn [List.map list_sum fold_right snd]. lia. }
    rewrite E. reflexivity.
Qed.

Theorem relido_sempre n : relido indent n.
Proof.
  induction n as [n IH] using (well_founded_induction lt_wf).
  intros v Hbf Hn nivel rest Hf.
  destruct n as [|n']; [destruct v; simpl in Hn; lia|].
  destruct Hbf as [|[]|z|s|xs Hxs|ps Hnd Hps].
  - reflexivity.
  - reflexivity.
  - reflexivity.
  - apply scan_once_int, Hf.
  - apply scan_once_str.
  - destruct xs as [|x xs]; [reflexivity|].
    cbn [iterencode app scan_once N.eqb Pos.eqb].
    rewrite <- !app_assoc. rewrite skip_ws_newline_indent.
    inversion Hxs as [|? ? Hx Hxs']; subst.
    destruct (iterencode_cabeca x (S nivel) Hx) as (c & t & E & Hw & H93).
    rewrite skip_ws_iterencode by exact Hx.
    pose proof (JSONArray_itens (S n') IH xs x n' nivel rest) as HA.
    cbn [app] in HA. rewrite E in HA |- *. cbn [app] in HA |- *.
    destruct (N.eqb_spec c 93); [contradiction|].
    assert (HA' := HA ltac:(lia) Hxs ltac:(cbn [tamanho] in Hn; lia)).
    match goal with
    | |- context [JSONArray n' ?u] =>
        assert (E2 : JSONArray n' u = Some (x :: xs, rest)) by exact HA'
    end.
    rewrite E2. reflexivity.
  - destruct ps as [|[k x] ps]; [reflexivity|].
    cbn [iterencode app scan_once N.eqb Pos.eqb].
    repeat (rewrite <- app_assoc; cbn [app]).
    rewrite skip_ws_newline_indent, skip_ws_basestring.
    pose proof (JSONObject_pares (S n') IH ps k x n' nivel rest) as HO.
    unfold encode_basestring at 1 in HO. unfold encode_basestring at 1.
    cbn [app N.eqb Pos.eqb] in HO |- *.
    assert (HO' := HO ltac:(lia) Hps ltac:(cbn [tamanho] in Hn; lia)).
    match goal with
    | |- context [JSONObject n' ?u] =>
        assert (E2 : JSONObject n' u = Some ((k, x) :: ps, rest)) by exact HO'
    end.
    rewrite E2, dict_de_pares_id by exact Hnd. reflexivity.
Qed.

Lemma tamanho_iterencode v :
  bem_formado v -> forall nivel, (tamanho v <= length (enc nivel v))%nat.
Proof.
  induction v as [| b | z | t | s | xs IH | ps IH] using json_ind;
    intros Hbf nivel; try (destruct b); try (cbn; lia).
  - destruct (repr_int_cabeca z) as (c & r & E & _).
    cbn [iterencode tamanho]. rewrite E. cbn [length]. lia.
  - inversion Hbf.
  - inversion Hbf as [| | | |? Hxs|]; subst.
    destruct xs as [|x xs]; [cbn; lia|].
    cbn [iterencode tamanho List.map list_sum fold_right length].
    rewrite !length_app. cbn [length].
    inversion Hxs as [|? ? Hx Hxs']; subst.
    inversion IH as [|? ? IHx IHxs]; subst.
    specialize (IHx Hx (S nivel)).
    assert (Hr : (list_sum (List.map (fun y => S (tamanho y)) xs) <=
                  length (flat_map (fun y => sep (S nivel) ++ enc (S nivel) y) xs))%nat).
    { clear -IHxs Hxs'. induction xs as [|y xs IHl]; [cbn; lia|].
      inversion Hxs' as [|? ? Hy Hys]; subst.
      inversion IHxs as [|? ? IHy IHys]; subst.
      cbn [List.map list_sum fold_right flat_map]. rewrite !length_app.
      specialize (IHy Hy (S nivel)).
      first [specialize (IHl IHys Hys) | specialize (IHl Hys IHys)].
      assert (1 <= length (sep (S nivel)))%nat
        by (unfold separator; destruct indent; cbn; lia).
      unfold list_sum in IHl. lia. }
    unfold list_sum in Hr. lia.
  - inversion Hbf as [| | | | |? Hnd Hps]; subst.
    destruct ps as [|[k x] ps]; [cbn; lia|].
    cbn [iterencode tamanho List.map list_sum fold_right length snd].
    rewrite !length_app. cbn [length].
    inversion Hps as [|? ? Hx Hps']; subst. cbn [snd] in Hx.
    inversion IH as [|? ? IHx IHps]; subst. cbn [snd] in IHx.
    specialize (IHx Hx (S nivel)).
    assert (Hr : (list_sum (List.map (fun kv => S (tamanho (snd kv))) ps) <=
                  length (flat_map (fun kv => let '(k', y) := kv in
                    sep (S nivel) ++ encode_basestring false k' ++
                    [58%N; 32%N] ++ enc (S nivel) y) ps))%nat).
    { clear -IHps Hps'. induction ps as [|[k y] ps IHl]; [cbn; lia|].
      inversion Hps' as [|? ? Hy Hys]; subst. cbn [snd] in Hy.
      inversion IHps as [|? ? IHy IHys]; subst. cbn [snd] in IHy.
      cbn [List.map list_sum fold_right flat_map snd]. rewrite !length_app.
      cbn [length].
      specialize (IHy Hy (S nivel)).
      first [specialize (IHl IHys Hys) | specialize (IHl Hys IHys)].
      unfold list_sum in IHl.
      match goal with
      | |- (S _ + ?A <= _ + ?F)%nat =>
          assert (IHl' : (A <= F)%nat) by exact IHl
      end.
      lia. }
    unfold list_sum in Hr. lia.
Qed.

(** What [json.dumps] writes, [json.loads] reads back. *)
Theorem json_loads_dumps v :
  bem_formado v -> json_loads (json_dumps indent false v) = Some v.
Proof.
  intros Hbf. unfold json_loads, json_dumps.
  pose proof (skip_ws_iterencode v 0%nat [] Hbf) as Hs.
  rewrite app_nil_r in Hs. rewrite Hs.
  pose proof (relido_sempre (S (length (enc 0%nat v))) v Hbf
                ltac:(pose proof (tamanho_iterencode v Hbf 0%nat); lia)
                0%nat [] eq_refl) as Hr.
  rewrite app_nil_r in Hr. rewrite Hr. reflexivity.
Qed.
End Ida_e_volta.

(** * The allowance of calls in [json.loads]

    The counter of [scan_once] never decides an outcome: with more calls
    allowed than the text has characters, the scanner reads what it would
    read with any larger allowance. *)

Lemma length_skip_ws s : (length (skip_ws s) <= length s)%nat.
Proof.
  induction s as [|c s IH]; cbn [skip_ws]; [lia|].
  destruct (eh_ws c); cbn [length] in *; lia.
Qed.

Lemma length_prefixo p : forall s r,
  prefixo p s = Some r -> length s = (length p + length r)%nat.
Proof.
  induction p as [|a p IH]; intros [|b s] r; cbn [prefixo length];
    try discriminate; try (intros H; injection H as <-; reflexivity).
  destruct (a =? b); [|discriminate]. intros H. rewrite (IH s r H). reflexivity.
Qed.

Lemma length_constante nome v s x r :
  constante nome v s = Some (x, r) ->
  nome <> EmptyString -> (length r < length s)%nat.
Proof.
  unfold constante. destruct (prefixo (lit nome) s) as [r'|] eqn:E;
    [|discriminate].
  intros H Hn. injection H as _ <-. apply length_prefixo in E.
  destruct nome; [contradiction|]. cbn in E. lia.
Qed.

Lemma length_cons_fst c o t r :
  cons_fst c o = Some (t, r) -> exists t', o = Some (t', r).
Proof.
  destruct o as [[t' r']|]; [|discriminate]. intros H; injection H as _ <-.
  eauto.
Qed.

Lemma length_scanstring n : forall s t r,
  (length s < n)%nat -> scanstring s = Some (t, r) ->
  (length r < length s)%nat.
Proof.
  induction n as [|n IH]; intros s t r Hn; [lia|].
  destruct s as [|c s]; [discriminate|]. cbn [scanstring].
  destruct (c =? 34); [intros H; injection H as _ <-; cbn; lia|].
  destruct (c =? 92).
  - destruct s as [|e s]; [discriminate|].
    destruct (e =? 117).
    + destruct s as [|h1 [|h2 [|h3 [|h4 s]]]]; try discriminate.
      destruct (hex4 h1 h2 h3 h4) as [uni|]; [|discriminate].
      assert (Hbase : forall t0, cons_fst uni (scanstring s) = Some (t0, r) ->
                (length r < length (c :: e :: h1 :: h2 :: h3 :: h4 :: s))%nat).
      { intros t0 H. apply length_cons_fst in H. destruct H as (t' & H).
        apply IH in H; cbn [length] in *; lia. }
      destruct s as [|b [|u [|g1 [|g2 [|g3 [|g4 s']]]]]]; try apply Hbase.
      destruct (high_surrogate uni && (b =? 92) && (u =? 117));
        [|apply Hbase].
      destruct (hex4 g1 g2 g3 g4) as [uni2|]; [|discriminate].
      destruct (low_surrogate uni2); [|apply Hbase].
      intros H. apply length_cons_fst in H. destruct H as (t' & H).
      apply IH in H; cbn [length] in *; lia.
    + destruct (escape_simples e); [|discriminate].
      intros H. apply length_cons_fst in H. destruct H as (t' & H).
      apply IH in H; cbn [length] in *; lia.
  - destruct (c <? 32); [discriminate|].
    intros H. apply length_cons_fst in H. destruct H as (t' & H).
    apply IH in H; cbn [length] in *; lia.
Qed.

Lemma length_scan_digitos s : forall u r,
  scan_digitos s = (u, r) -> (length r <= length s)%nat.
Proof.
  induction s as [|c s IH]; intros u r; cbn [scan_digitos].
  - intros H; injection H as _ <-. lia.
  - destruct (digito c).
    + destruct (scan_digitos s) as [u' r'] eqn:E.
      intros H; injection H as _ <-. specialize (IH u' r' eq_refl).
      cbn [length]. lia.
    + intros H; injection H as _ <-. lia.
Qed.

Lemma length_scan_frac s t r :
  scan_frac s = (t, r) -> (length r <= length s)%nat.
Proof.
  destruct s as [|p s]; cbn [scan_frac].
  - intros H; injection H as _ <-. lia.
  - destruct (p =? 46); [|intros H; injection H as _ <-; lia].
    destruct (scan_digitos s) as [u r'] eqn:E.
    apply length_scan_digitos in E.
    destruct u; intros H; injection H as _ <-; cbn [length]; lia.
Qed.

Lemma length_scan_exp s t r :
  scan_exp s = (t, r) -> (length r <= length s)%nat.
Proof.
  destruct s as [|e s]; cbn [scan_exp].
  - intros H; injection H as _ <-. lia.
  - destruct ((e =? 101) || (e =? 69)); [|intros H; injection H as _ <-; lia].
    assert (Hs : forall sinal r1,
              (length r1 <= length s)%nat ->
              match scan_digitos r1 with
              | (Nil, _) => ([], e :: s)
              | (u, r') => (e :: sinal ++ chars_de_uint u, r')
              end = (t, r) -> (length r <= length (e :: s))%nat).
    { intros sinal r1 H1. destruct (scan_digitos r1) as [u r'] eqn:E.
      apply length_scan_digitos in E.
      destruct u; intros H; injection H as _ <-; cbn [length]; lia. }
    destruct s as [|g s'].
    + apply (Hs [] []). cbn; lia.
    + destruct ((g =? 45) || (g =? 43)).
      * apply (Hs [g] s'). cbn; lia.
      * apply (Hs [] (g :: s')). lia.
Qed.

Lemma length_match_number s v r :
  match_number s = Some (v, r) -> (length r < length s)%nat.
Proof.
  unfold match_number.
  assert (Hs : forall (neg : bool) s1,
            (length s1 <= length s)%nat ->
            match s1 with
            | [] => None
            | c :: r0 =>
                match digito c with
                | None => None
                | Some _ =>
                    let '(u, r1) :=
                      if c =? 48 then (D0 Nil, r0) else scan_digitos s1 in
                    let '(frac, r2) := scan_frac r1 in
                    let '(exp, r3) := scan_exp r2 in
                    match frac, exp with
                    | [], [] =>
                        Some (JInt (Z.of_int (if neg then Neg u else Pos u)), r3)
                    | _, _ =>
                        Some (JFloat ((if neg then [45] else []) ++
                                      chars_de_uint u ++ frac ++ exp), r3)
                    end
                end
            end = Some (v, r) -> (length r < length s)%nat).
  { intros neg [|c r0] Hl; [discriminate|].
    destruct (digito c) as [d|] eqn:Ed; [|discriminate].
    assert (Hu : forall u r1,
              (if c =? 48 then (D0 Nil, r0) else scan_digitos (c :: r0)) =
              (u, r1) -> (length r1 <= length r0)%nat).
    { intros u r1. destruct (c =? 48).
      - intros H; injection H as _ <-. lia.
      - cbn [scan_digitos]. rewrite Ed.
        destruct (scan_digitos r0) as [u' r'] eqn:E.
        apply length_scan_digitos in E. intros H; injection H as _ <-. exact E. }
    destruct (if c =? 48 then (D0 Nil, r0) else scan_digitos (c :: r0))
      as [u r1] eqn:E1.
    specialize (Hu u r1 eq_refl).
    destruct (scan_frac r1) as [frac r2] eqn:E2. apply length_scan_frac in E2.
    destruct (scan_exp r2) as [exp r3] eqn:E3. apply length_scan_exp in E3.
    cbn [length] in Hl.
    destruct frac, exp; intros H; injection H as _ <-; lia. }
  destruct s as [|c r0]; [apply (Hs false []); lia|].
  destruct (c =? 45); [apply (Hs true r0); cbn; lia | apply (Hs false (c :: r0)); lia].
Qed.

Ltac abre_casos H :=
  repeat match type of H with
         | context [match ?x with _ => _ end] => destruct x eqn:?
         | context [if ?b then _ else _] => destruct b eqn:?
         end; try discriminate H.

Lemma skip_ws_cons_length s c r :
  skip_ws s = c :: r -> (length r < length s)%nat.
Proof.
  intros H. pose proof (length_skip_ws s) as L. rewrite H in L. cbn in L. lia.
Qed.

Ltac reescreve_fatos :=
  repeat match goal with
         | E : ?t = _ |- context [?t] => rewrite E
         end.

Ltac fatos_de_comprimento :=
  repeat match goal with
         | E : skip_ws _ = _ :: _ |- _ => apply skip_ws_cons_length in E
         | E : scanstring ?s = Some _ |- _ =>
             apply (length_scanstring (S (length s))) in E; [|lia]
         | E : constante _ _ _ = Some _ |- _ =>
             apply length_constante in E; [|discriminate]
         | E : match_number _ = Some _ |- _ => apply length_match_number in E
         end.

Lemma basta_scan_once n :
  basta JSONObject n -> basta JSONArray n -> basta scan_once (S n).
Proof.
  intros HO HA s x r H. cbn [scan_once] in H.
  destruct s as [|c s]; [discriminate|].
  abre_casos H.
  all: first [injection H as <- <- | injection H as -> | idtac].
  all: try match goal with
           | E : JSONObject _ _ = Some _ |- _ =>
               destruct (HO _ _ _ E) as [HL HM]
           | E : JSONArray _ _ = Some _ |- _ =>
               destruct (HA _ _ _ E) as [HL HM]
           end.
  all: split;
    [ fatos_de_comprimento; cbn [length] in *; try lia
    | intros m Hm; destruct m as [|m']; [lia|]; cbn [scan_once];
      reescreve_fatos;
      try rewrite HM
        by (fatos_de_comprimento; cbn [length] in *; lia);
      try reflexivity ].
Qed.

Ltac fatos_de_skip_ws :=
  repeat match goal with
         | |- context [skip_ws ?t] =>
             lazymatch goal with
             | _ : (length (skip_ws t) <= length t)%nat |- _ => fail
             | _ => pose proof (length_skip_ws t)
             end
         | _ : context [skip_ws ?t] |- _ =>
             lazymatch goal with
             | _ : (length (skip_ws t) <= length t)%nat |- _ => fail
             | _ => pose proof (length_skip_ws t)
             end
         end.

Ltac usa_basta HS HO HA :=
  repeat match goal with
         | E : scan_once _ _ = Some _ |- _ =>
             let HL := fresh "HL" in let HM := fresh "HM" in
             destruct (HS _ _ _ E) as [HL HM]; clear E
         | E : JSONObject _ _ = Some _ |- _ =>
             let HL := fresh "HL" in let HM := fresh "HM" in
             destruct (HO _ _ _ E) as [HL HM]; clear E
         | E : JSONArray _ _ = Some _ |- _ =>
             let HL := fresh "HL" in let HM := fresh "HM" in
             destruct (HA _ _ _ E) as [HL HM]; clear E
         end.

Ltac fecha_comprimentos :=
  fatos_de_skip_ws; fatos_de_comprimento; cbn [length] in *; lia.

Ltac reescreve_chamadas :=
  repeat match goal with
         | HM : forall m, _ -> ?f m ?t = Some _ |- context [?f _ ?t] =>
             rewrite HM by fecha_comprimentos
         end.

Lemma basta_JSONArray n :
  basta scan_once n -> basta JSONArray n -> basta JSONArray (S n).
Proof.
  intros HS HA s x r H. cbn [JSONArray] in H.
  abre_casos H.
  all: first [injection H as <- <- | injection H as -> | idtac].
  all: usa_basta HS HA HA.
  all: split;
    [ fecha_comprimentos
    | intros m Hm; destruct m as [|m']; [lia|]; cbn [JSONArray];
      reescreve_chamadas; reescreve_fatos; reescreve_chamadas;
      try reflexivity ].
Qed.

Lemma basta_JSONObject n :
  basta scan_once n -> basta JSONObject n -> basta JSONObject (S n).
Proof.
  intros HS HO s x r H. cbn [JSONObject] in H.
  abre_casos H.
  all: first [injection H as <- <- | injection H as -> | idtac].
  all: usa_basta HS HO HO.
  all: split;
    [ fecha_comprimentos
    | intros m Hm; destruct m as [|m']; [lia|]; cbn [JSONObject];
      reescreve_fatos; reescreve_chamadas; reescreve_fatos;
      reescreve_chamadas; try reflexivity ].
Qed.

Lemma basta_sempre n :
  basta scan_once n /\ basta JSONObject n /\ basta JSONArray n.
Proof.
  induction n as [|n (HS & HO & HA)].
  - split; [|split]; intros ? ? ? H; discriminate H.
  - split; [apply basta_scan_once; assumption|].
    split; [apply basta_JSONObject | apply basta_JSONArray]; assumption.
Qed.

(** [json.loads] gives the same outcome with any allowance of calls above
    the length of the text, so its [None] is a text that is not JSON. *)
Theorem json_loads_allowance (s : str) (n : nat) :
  (length s < n)%nat ->
  scan_once n (skip_ws s) = scan_once (S (length s)) (skip_ws s).
Proof.
  intros Hn. pose proof (length_skip_ws s) as Hl.
  destruct (scan_once (S (length s)) (skip_ws s)) as [[v r]|] eqn:E.
  - destruct (proj1 (basta_sempre _) _ _ _ E) as [HL HM]. apply HM. lia.
  - destruct (scan_once n (skip_ws s)) as [[v r]|] eqn:E'; [|reflexivity].
    destruct (proj1 (basta_sempre _) _ _ _ E') as [HL HM].
    rewrite HM in E by lia. discriminate E.
Qed.

(** * Stripping *)

Lemma lstrip_vazio s : lstrip s = [] <-> forallb isspace s = true.
Proof.
  induction s as [|c s IH]; simpl; [tauto|].
  destruct (isspace c); simpl; [exact IH|]. split; discriminate.
Qed.

Lemma lstrip_cabeca s c r : lstrip s = c :: r -> isspace c = false.
Proof.
  induction s as [|d s IH]; simpl; [discriminate|].
  destruct (isspace d) eqn:E; [exact IH|]. intros H; injection H as <- _.
  exact E.
Qed.

(** [strip] leaves nothing exactly when the text is white space only. *)
Lemma strip_vazio s : strip s = [] <-> forallb isspace s = true.
Proof.
  unfold strip. rewrite <- lstrip_vazio. split.
  - intros H. apply (f_equal (@rev N)) in H. rewrite rev_involutive in H.
    simpl in H. apply lstrip_vazio in H.
    rewrite forallb_forall in H.
    destruct (lstrip s) as [|c r] eqn:E; [reflexivity|].
    pose proof (lstrip_cabeca _ _ _ E) as Hc.
    rewrite (H c) in Hc; [discriminate|].
    apply in_rev. rewrite rev_involutive. left; reflexivity.
  - intros ->. reflexivity.
Qed.

Lemma strip_nao_vazio c s : isspace c = false -> strip (c :: s) <> [].
Proof.
  intros Hc H. apply strip_vazio in H. simpl in H. rewrite Hc in H.
  discriminate.
Qed.

(** * The models *)

Section Modelos.
Context `{amb : Ambiente}.

Lemma valida_str_some min max v s :
  valida_str min max v = Some s ->
  v = JStr s /\ str_unicode s = true /\ (min <= length s <= max)%nat.
Proof.
  destruct v; simpl; try discriminate.
  destruct (str_unicode s0) eqn:E1; [|discriminate].
  destruct (Nat.leb_spec min (length s0)) as [Hmin|]; [|discriminate].
  destruct (Nat.leb_spec (length s0) max) as [Hmax|]; [|discriminate].
  simpl. intros Heq; injection Heq as <-. auto.
Qed.

Lemma valida_str_ok min max s :
  str_unicode s = true -> (min <= length s <= max)%nat ->
  valida_str min max (JStr s) = Some s.
Proof.
  intros H1 [H2 H3]. simpl. rewrite H1.
  destruct (Nat.leb_spec min (length s)); [|lia].
  destruct (Nat.leb_spec (length s) max); [|lia]. reflexivity.
Qed.

Lemma valida_descricao_ok (o : option str) :
  match o with
  | Some s => str_unicode s = true /\ (length s <= 2000)%nat
  | None => True
  end ->
  valida_opcional (valida_str 0 2000) (TarefaAtualizar.json_de_str o) = Some o.
Proof.
  destruct o as [s|]; [|reflexivity]. intros [H1 H2].
  unfold valida_opcional. cbn [TarefaAtualizar.json_de_str].
  rewrite valida_str_ok by (auto; lia). reflexivity.
Qed.

Lemma valida_descricao_some v o :
  valida_opcional (valida_str 0 2000) v = Some o ->
  match o with
  | Some s => str_unicode s = true /\ (length s <= 2000)%nat
  | None => True
  end.
Proof.
  unfold valida_opcional.
  destruct v; try discriminate;
    try (intros H; injection H as <-; exact I).
  destruct (valida_str 0 2000 (JStr s)) as [s'|] eqn:E; [|discriminate].
  intros H; injection H as <-.
  apply valida_str_some in E. destruct E as (_ & H1 & H2). split; [auto|lia].
Qed.

(** A task that was built by the constructor satisfies the constraints. *)
Lemma init_valida d t : Tarefa.init d = Ok t -> Tarefa.valida t.
Proof.
  unfold Tarefa.init.
  destruct (campo d "titulo" None (valida_str 1 200)) as [a|] eqn:Ea;
    [|discriminate].
  destruct (campo d "descricao" (Some None)
              (valida_opcional (valida_str 0 2000))) as [b|] eqn:Eb;
    [|discriminate].
  destruct (campo d "concluida" (Some false) valida_bool) as [c|];
    [|discriminate].
  destruct (campo d "id" None valida_int) as [i|]; [|discriminate].
  intros H; injection H as <-. unfold Tarefa.valida; cbn.
  unfold campo in Ea, Eb.
  destruct (dict_get d (lit "titulo")) as [v|]; [|discriminate].
  apply valida_str_some in Ea. destruct Ea as (_ & H1 & H2).
  split; [exact H1 | split; [exact H2|]].
  destruct (dict_get d (lit "descricao")) as [v'|].
  - eapply valida_descricao_some, Eb.
  - injection Eb as <-. exact I.
Qed.

(** The constructor reads a task back from its own dump. *)
Lemma init_model_dump t :
  Tarefa.valida t -> Tarefa.init (Tarefa.model_dump t) = Ok t.
Proof.
  intros (H1 & H2 & H3). destruct t as [a b c i].
  unfold Tarefa.init, Tarefa.model_dump.
  change (campo ?d "titulo" ?p ?f) with (f (JStr a)).
  change (campo ?d "descricao" ?p ?f) with (f (TarefaAtualizar.json_de_str b)).
  change (campo ?d "concluida" ?p ?f) with (f (JBool c)).
  change (campo ?d "id" ?p ?f) with (f (JInt i)).
  cbn [Tarefa.titulo Tarefa.descricao] in H1, H2, H3.
  rewrite (valida_str_ok 1 200 a H1 H2), (valida_descricao_ok b H3).
  reflexivity.
Qed.

Lemma compreensao_dump ts :
  Forall Tarefa.valida ts ->
  compreensao Tarefa_de (List.map (fun t => JObj (Tarefa.model_dump t)) ts) =
  Ok ts.
Proof.
  induction 1 as [|t ts Ht _ IH]; [reflexivity|].
  cbn [List.map compreensao Tarefa_de]. rewrite (init_model_dump t Ht), IH.
  reflexivity.
Qed.

Lemma compreensao_valida xs ts :
  compreensao Tarefa_de xs = Ok ts -> Forall Tarefa.valida ts.
Proof.
  revert ts. induction xs as [|x xs IH]; intros ts; cbn [compreensao].
  - intros H; injection H as <-. constructor.
  - destruct (Tarefa_de x) as [t|e] eqn:E; [|discriminate].
    destruct (compreensao Tarefa_de xs) as [ts'|e]; [|discriminate].
    intros H; injection H as <-. constructor; [|apply IH; reflexivity].
    destruct x; try discriminate. eapply init_valida, E.
Qed.

Lemma bem_formado_dump ts :
  bem_formado (JArr (List.map (fun t => JObj (Tarefa.model_dump t)) ts)).
Proof.
  constructor. induction ts as [|t ts IH]; constructor; [|exact IH].
  constructor.
  - cbn. repeat constructor; cbn; intuition discriminate.
  - unfold Tarefa.model_dump. repeat constructor.
    cbn. destruct (Tarefa.descricao t); constructor.
Qed.

Lemma tarefas_de_texto_de ts :
  Forall Tarefa.valida ts -> tarefas_de_texto (texto_de ts) = Ok ts.
Proof.
  intros H. unfold tarefas_de_texto, texto_de.
  rewrite json_loads_dumps by apply bem_formado_dump.
  cbn [iterar]. apply compreensao_dump, H.
Qed.

Lemma texto_de_cabeca ts : exists r, texto_de ts = 91 :: r.
Proof. destruct ts; eexists; reflexivity. Qed.

(** * The file *)

Lemma ler_nao_altera w : snd (_ler_todas_as_tarefas w) = w.
Proof.
  unfold _ler_todas_as_tarefas.
  destruct (arquivo w) as [c|]; [|reflexivity].
  destruct (strip c); reflexivity.
Qed.

Lemma ler_so_arquivo w w' :
  arquivo w = arquivo w' ->
  fst (_ler_todas_as_tarefas w) = fst (_ler_todas_as_tarefas w').
Proof.
  intros H. unfold _ler_todas_as_tarefas. rewrite H.
  destruct (arquivo w') as [c|]; [|reflexivity].
  destruct (strip c); reflexivity.
Qed.

Lemma ler_valida w ts :
  fst (_ler_todas_as_tarefas w) = Ok ts -> Forall Tarefa.valida ts.
Proof.
  unfold _ler_todas_as_tarefas.
  destruct (arquivo w) as [c|]; [|intros H; injection H as <-; constructor].
  destruct (strip c); [intros H; injection H as <-; constructor|].
  cbn [fst]. unfold tarefas_de_texto.
  destruct (json_loads c) as [v|]; [|discriminate].
  destruct (iterar v) as [xs|]; [|discriminate].
  apply compreensao_valida.
Qed.

Lemma gravar_eq ts w :
  _gravar_todas_as_tarefas ts w = (Ok tt, com_arquivo (Some (texto_de ts)) w).
Proof. reflexivity. Qed.

Lemma ler_texto_de ts w :
  Forall Tarefa.valida ts -> arquivo w = Some (texto_de ts) ->
  _ler_todas_as_tarefas w = (Ok ts, w).
Proof.
  intros Hv Ha. unfold _ler_todas_as_tarefas. rewrite Ha.
  destruct (texto_de_cabeca ts) as (r & E).
  destruct (strip (texto_de ts)) as [|c s] eqn:Es.
  - exfalso. rewrite E in Es. revert Es. apply strip_nao_vazio. reflexivity.
  - rewrite tarefas_de_texto_de by exact Hv. reflexivity.
Qed.
End Modelos.

(** * Sequencing *)

Lemma bind_ok {A B} (m : M A) (k : A -> M B) w a w' :
  m w = (Ok a, w') -> bind m k w = k a w'.
Proof. intros H. unfold bind. rewrite H. reflexivity. Qed.

Lemma bind_erro {A B} (m : M A) (k : A -> M B) w e w' :
  m w = (Erro e, w') -> bind m k w = (Erro e, w').
Proof. intros H. unfold bind. rewrite H. reflexivity. Qed.

Lemma par_eq {A B} (p : A * B) a : fst p = a -> p = (a, snd p).
Proof. destruct p; simpl; intros ->; reflexivity. Qed.

(** * The cache handle *)

Lemma mundo_eq w :
  {| arquivo := arquivo w; cliente_redis := cliente_redis w;
     servidor := servidor w; registro := registro w |} = w.
Proof. destruct w; reflexivity. Qed.

Lemma servidor_eq s : {| no_ar := no_ar s; dados := dados s |} = s.
Proof. destruct s; reflexivity. Qed.

(** With a handle already there, nothing is sent. *)
Lemma obter_redis_presente w r :
  cliente_redis w = Some r -> obter_redis w = (Ok (Some r), w).
Proof.
  intros H. unfold obter_redis, bind, ler_cliente_redis. rewrite H.
  unfold ret. rewrite H. reflexivity.
Qed.

(** Without a handle and with the server not answering: one [PING] is
    sent, and the handle stays unset. *)
Lemma obter_redis_fora w :
  cliente_redis w = None -> no_ar (servidor w) = false ->
  obter_redis w = (Ok None, registrar PING w).
Proof.
  intros Hc Hs. unfold obter_redis, bind, ler_cliente_redis. rewrite Hc.
  unfold try_except, atribuir_cliente_redis, redis_ping, comando.
  cbn. rewrite Hs. cbn. unfold registrar, com_cliente. cbn.
  rewrite Hc. reflexivity.
Qed.

(** Without a handle and with the server answering: one [PING] is sent,
    and the new client becomes the handle. *)
Lemma obter_redis_no_ar w :
  cliente_redis w = None -> no_ar (servidor w) = true ->
  obter_redis w =
  (Ok (Some ClienteRedis),
   {| arquivo := arquivo w; cliente_redis := Some ClienteRedis;
      servidor := servidor w; registro := PING :: registro w |}).
Proof.
  intros Hc Hs. unfold obter_redis, bind, ler_cliente_redis. rewrite Hc.
  unfold try_except, atribuir_cliente_redis, redis_ping, comando.
  cbn. rewrite Hs. reflexivity.
Qed.

(** [obter_redis] never raises and never touches the file. *)
Lemma obter_redis_total w :
  exists r w', obter_redis w = (Ok r, w') /\ arquivo w' = arquivo w /\
               cliente_redis w' = r.
Proof.
  destruct (cliente_redis w) as [r|] eqn:Hc.
  - exists (Some r), w. rewrite (obter_redis_presente w r Hc). auto.
  - destruct (no_ar (servidor w)) eqn:Hs.
    + eexists _, _. rewrite (obter_redis_no_ar w Hc Hs). auto.
    + eexists _, _. rewrite (obter_redis_fora w Hc Hs). auto.
Qed.

Lemma comando_arquivo {A} c f w :
  arquivo (snd (@comando A c f w)) = arquivo w.
Proof.
  unfold comando. cbn. destruct (no_ar (servidor w)); [|reflexivity].
  destruct (f (servidor w)); reflexivity.
Qed.

(** [invalidar_cache_tarefas] never raises and never touches the file. *)
Lemma invalidar_total w :
  exists w', invalidar_cache_tarefas w = (Ok tt, w') /\
             arquivo w' = arquivo w.
Proof.
  unfold invalidar_cache_tarefas.
  destruct (obter_redis_total w) as (r & w1 & E & Ha & _).
  rewrite (bind_ok _ _ _ _ _ E).
  destruct r as [r|].
  - unfold try_except, redis_delete.
    pose proof (comando_arquivo (A := unit) (DEL CHAVE_CACHE_TAREFAS)
                  (fun s => (Ok tt, {| no_ar := no_ar s; dados := None |})) w1)
      as Hf.
    destruct (comando _ _ w1) as [[[]|e] w2]; cbn in Hf |- *;
      eexists; (split; [reflexivity | congruence]).
  - exists w1. split; [reflexivity | exact Ha].
Qed.

Lemma invalidar_fora w :
  cliente_redis w = None -> no_ar (servidor w) = false ->
  invalidar_cache_tarefas w = (Ok tt, registrar PING w).
Proof.
  intros Hc Hs. unfold invalidar_cache_tarefas.
  rewrite (bind_ok _ _ _ _ _ (obter_redis_fora w Hc Hs)). reflexivity.
Qed.

(** * Identifiers *)

Lemma fold_left_max_ge xs : forall x, (x <= fold_left Z.max xs x)%Z.
Proof.
  induction xs as [|y xs IH]; intros x; cbn; [lia|].
  specialize (IH (Z.max x y)). lia.
Qed.

Lemma fold_left_max_in xs : forall x y,
  In y xs -> (y <= fold_left Z.max xs x)%Z.
Proof.
  induction xs as [|z xs IH]; intros x y H; [destruct H|]. cbn.
  destruct H as [->|H]; [|apply IH, H].
  pose proof (fold_left_max_ge xs (Z.max x y)). lia.
Qed.

Lemma max_default_ge ids d y : In y ids -> (y <= max_default ids d)%Z.
Proof.
  destruct ids as [|x xs]; [intros []|]. cbn [max_default].
  intros [->|H]; [apply fold_left_max_ge | apply fold_left_max_in, H].
Qed.

(** The next identifier is above every identifier of the list. *)
Lemma proximo_id_acima ts t :
  In t ts -> (Tarefa.id t < _proximo_id ts)%Z.
Proof.
  intros H. unfold _proximo_id.
  pose proof (max_default_ge (List.map Tarefa.id ts) 0 (Tarefa.id t)
                (in_map _ _ _ H)). lia.
Qed.

(** * The routes *)

Section Rotas.
Context `{amb : Ambiente}.

Lemma ler_eq w ts :
  fst (_ler_todas_as_tarefas w) = Ok ts ->
  _ler_todas_as_tarefas w = (Ok ts, w).
Proof.
  intros H. rewrite (par_eq _ _ H), ler_nao_altera. reflexivity.
Qed.

Lemma ler_erro w e :
  fst (_ler_todas_as_tarefas w) = Erro e ->
  _ler_todas_as_tarefas w = (Erro e, w).
Proof.
  intros H. rewrite (par_eq _ _ H), ler_nao_altera. reflexivity.
Qed.

(** What is read after a list of valid tasks was written, whatever the
    cache did in between. *)
Lemma ler_apos_gravar ts w w' :
  Forall Tarefa.valida ts ->
  arquivo w' = arquivo (com_arquivo (Some (texto_de ts)) w) ->
  fst (_ler_todas_as_tarefas w') = Ok ts.
Proof.
  intros Hv Ha. rewrite (ler_texto_de ts w' Hv Ha). reflexivity.
Qed.


(** [adicionar_tarefa] once the list is read and the task is built. *)
Lemma adicionar_eq (p : TarefaCriar.t) w ts t :
  fst (_ler_todas_as_tarefas w) = Ok ts ->
  Tarefa.init
    [(lit "id", JInt (_proximo_id ts));
     (lit "titulo", JStr (TarefaCriar.titulo p));
     (lit "descricao", TarefaAtualizar.json_de_str (TarefaCriar.descricao p));
     (lit "concluida", JBool (TarefaCriar.concluida p))] = Ok t ->
  adicionar_tarefa p w =
  (Ok t, snd (invalidar_cache_tarefas
                (com_arquivo (Some (texto_de (ts ++ [t]))) w))).
Proof.
  intros Hl Hi. unfold adicionar_tarefa.
  rewrite (bind_ok _ _ _ _ _ (ler_eq w ts Hl)).
  unfold elevar at 1. unfold bind at 1. rewrite Hi.
  unfold bind at 1. rewrite gravar_eq.
  destruct (invalidar_total (com_arquivo (Some (texto_de (ts ++ [t]))) w))
    as (w' & E & _).
  unfold bind. fold (texto_de (ts ++ [t])). rewrite E. reflexivity.
Qed.

(** ** The loop of [editar_tarefa] *)

Lemma editar_laco_ausente task_id payload tarefas resto : forall idx w,
  (forall t, In t resto -> Tarefa.id t <> task_id) ->
  editar_laco task_id payload tarefas idx resto w = (Erro nao_encontrada, w).
Proof.
  induction resto as [|t resto IH]; intros idx w H; [reflexivity|].
  cbn [editar_laco].
  destruct (Z.eqb_spec (Tarefa.id t) task_id) as [E|_].
  - exfalso. apply (H t); [left; reflexivity | exact E].
  - apply IH. intros x Hx. apply H. right; exact Hx.
Qed.

Lemma editar_laco_achado task_id payload tarefas l1 t l2 : forall idx,
  (forall x, In x l1 -> Tarefa.id x <> task_id) ->
  Tarefa.id t = task_id ->
  editar_laco task_id payload tarefas idx (l1 ++ t :: l2) =
  editar_corpo payload tarefas (idx + length l1) t.
Proof.
  induction l1 as [|x l1 IH]; intros idx H Ht; cbn [editar_laco app length].
  - rewrite Ht, Z.eqb_refl, Nat.add_0_r. reflexivity.
  - destruct (Z.eqb_spec (Tarefa.id x) task_id) as [E|_].
    + exfalso. apply (H x); [left; reflexivity | exact E].
    + rewrite IH; [f_equal; lia | | exact Ht].
      intros y Hy; apply H; right; exact Hy.
Qed.

(** The first task with a given id, when there is one. *)
Lemma primeira_ocorrencia task_id (ts : list Tarefa.t) :
  (exists t, In t ts /\ Tarefa.id t = task_id) ->
  exists l1 t l2, ts = l1 ++ t :: l2 /\ Tarefa.id t = task_id /\
                  forall x, In x l1 -> Tarefa.id x <> task_id.
Proof.
  induction ts as [|x ts IH]; intros (t & Hin & Ht); [destruct Hin|].
  destruct (Z.eq_dec (Tarefa.id x) task_id) as [E|N].
  - exists [], x, ts. split; [reflexivity | split; [exact E | intros ? []]].
  - destruct Hin as [->|Hin]; [contradiction|].
    destruct (IH (ex_intro _ t (conj Hin Ht))) as (l1 & t' & l2 & -> & Ht' & Hl).
    exists (x :: l1), t', l2. split; [reflexivity | split; [exact Ht'|]].
    intros y [<-|Hy]; [exact N | apply Hl, Hy].
Qed.

Lemma editar_corpo_erro payload tarefas idx t w e :
  Tarefa.init (Tarefa.model_copy_dump t
                 (TarefaAtualizar.model_dump_exclude_unset payload)) = Erro e ->
  editar_corpo payload tarefas idx t w = (Erro e, w).
Proof.
  intros H. unfold editar_corpo, elevar, bind. rewrite H. reflexivity.
Qed.

Lemma setitem_ok {A} (l : list A) i x w :
  (i < length l)%nat -> setitem l i x w = (Ok (<[i := x]> l), w).
Proof.
  intros H. unfold setitem. destruct (Nat.ltb_spec i (length l)); [|lia].
  reflexivity.
Qed.

Lemma editar_corpo_ok payload tarefas idx t w nova :
  Tarefa.init (Tarefa.model_copy_dump t
                 (TarefaAtualizar.model_dump_exclude_unset payload)) = Ok nova ->
  (idx < length tarefas)%nat ->
  editar_corpo payload tarefas idx t w =
  (Ok nova, snd (invalidar_cache_tarefas
                   (com_arquivo (Some (texto_de (<[idx := nova]> tarefas))) w))).
Proof.
  intros H Hi. unfold editar_corpo. unfold elevar at 1. unfold bind at 1.
  rewrite H. rewrite (bind_ok _ _ _ _ _ (setitem_ok tarefas idx nova w Hi)).
  unfold bind at 1. rewrite gravar_eq.
  destruct (invalidar_total
              (com_arquivo (Some (texto_de (<[idx := nova]> tarefas))) w))
    as (w' & E & _).
  unfold bind. rewrite E. cbn [snd]. unfold getitem.
  rewrite list_lookup_insert_eq by exact Hi. reflexivity.
Qed.

(** [editar_tarefa] when the list is read and no task has the id. *)
Lemma editar_ausente task_id payload w ts :
  fst (_ler_todas_as_tarefas w) = Ok ts ->
  (forall t, In t ts -> Tarefa.id t <> task_id) ->
  editar_tarefa task_id payload w = (Erro nao_encontrada, w).
Proof.
  intros Hl Hn. unfold editar_tarefa.
  rewrite (bind_ok _ _ _ _ _ (ler_eq w ts Hl)).
  apply editar_laco_ausente, Hn.
Qed.
End Rotas.

(** * Properties of the service *)

Section Propriedades.
Context `{amb : Ambiente}.



(** Claim C2.  When the persisted list is [ts] and no task of [ts] has the
    id asked for, [editar_tarefa] raises the 404 [HTTPException], which
    reaches the caller, and nothing changes: the file, the cache and its
    handle are as before. *)
Theorem update_unknown_id (task_id : Z) (payload : TarefaAtualizar.t)
    (w : Mundo) (ts : list Tarefa.t) :
  fst (_ler_todas_as_tarefas w) = Ok ts ->
  (forall t, In t ts -> Tarefa.id t <> task_id) ->
  editar_tarefa task_id payload w =
  (Erro (HTTPException 404 (lit "Tarefa n" ++ [227] ++ lit "o encontrada")), w).
Proof.
  intros Hl Hn. exact (editar_ausente task_id payload w ts Hl Hn).
Qed.

(** A patch that sets the title to [null] leaves [null] as the title of
    the patched copy, whatever else it sets. *)
Lemma titulo_nulo (t : Tarefa.t) (payload : TarefaAtualizar.t) :
  TarefaAtualizar.titulo payload = Some None ->
  dict_get (Tarefa.model_copy_dump t
              (TarefaAtualizar.model_dump_exclude_unset payload))
           (lit "titulo") = Some JNull.
Proof.
  intros H. unfold TarefaAtualizar.model_dump_exclude_unset. rewrite H.
  destruct (TarefaAtualizar.descricao payload) as [[d|]|];
    destruct (TarefaAtualizar.concluida payload) as [[c|]|]; reflexivity.
Qed.

(** Claim C10.  When the persisted list is [ts], some task of [ts] has the
    id asked for and the patch sets the title to [null], [editar_tarefa]
    raises the validation error of the [Tarefa] constructor (not the 404
    exception) before anything is saved: the state is unchanged. *)
Theorem update_title_null (task_id : Z) (payload : TarefaAtualizar.t)
    (w : Mundo) (ts : list Tarefa.t) :
  fst (_ler_todas_as_tarefas w) = Ok ts ->
  (exists t, In t ts /\ Tarefa.id t = task_id) ->
  TarefaAtualizar.titulo payload = Some None ->
  editar_tarefa task_id payload w = (Erro ValidationError, w) /\
  ValidationError <> nao_encontrada.
Proof.
  intros Hl Hex Hp. split; [|discriminate].
  unfold editar_tarefa. rewrite (bind_ok _ _ _ _ _ (ler_eq w ts Hl)).
  destruct (primeira_ocorrencia task_id ts Hex) as (l1 & t & l2 & -> & Ht & Hn).
  rewrite (editar_laco_achado task_id payload _ l1 t l2 0 Hn Ht).
  apply editar_corpo_erro. unfold Tarefa.init, campo at 1.
  rewrite (titulo_nulo t payload Hp). cbn [valida_str]. reflexivity.
Qed.
End Propriedades.

(** The properties above at concrete inputs. *)




Lemma mundo_2_lido :
  fst (@_ler_todas_as_tarefas amb_estrito mundo_2) = Ok [tarefa_1; tarefa_2].
Proof. vm_compute. reflexivity. Defined.

Lemma mundo_2_ids x : In x [tarefa_1; tarefa_2] -> Tarefa.id x <> 999%Z.
Proof. intros [<-|[<-|[]]]; discriminate. Defined.



Lemma update_unknown_id_witness :
  fst (@_ler_todas_as_tarefas amb_estrito mundo_2) = Ok [tarefa_1; tarefa_2] /\
  (forall t, In t [tarefa_1; tarefa_2] -> Tarefa.id t <> 999%Z) /\
  @editar_tarefa amb_estrito 999
    {| TarefaAtualizar.titulo := None; TarefaAtualizar.descricao := None;
       TarefaAtualizar.concluida := Some (Some true) |} mundo_2 =
  (Erro (HTTPException 404 (lit "Tarefa n" ++ [227] ++ lit "o encontrada")),
   mundo_2).
Proof.
  split; [exact mundo_2_lido|]. split; [exact mundo_2_ids|].
  exact (@update_unknown_id amb_estrito 999
           {| TarefaAtualizar.titulo := None; TarefaAtualizar.descricao := None;
              TarefaAtualizar.concluida := Some (Some true) |}
           mundo_2 [tarefa_1; tarefa_2] mundo_2_lido mundo_2_ids).
Defined.

Lemma update_title_null_witness :
  fst (@_ler_todas_as_tarefas amb_estrito mundo_2) = Ok [tarefa_1; tarefa_2] /\
  (exists t, In t [tarefa_1; tarefa_2] /\ Tarefa.id t = 2%Z) /\
  @editar_tarefa amb_estrito 2
    {| TarefaAtualizar.titulo := Some None; TarefaAtualizar.descricao := None;
       TarefaAtualizar.concluida := Some (Some true) |} mundo_2 =
  (Erro ValidationError, mundo_2) /\ ValidationError <> nao_encontrada.
Proof.
  assert (Hex : exists t, In t [tarefa_1; tarefa_2] /\ Tarefa.id t = 2%Z)
    by (exists tarefa_2; split; [right; left; reflexivity | reflexivity]).
  split; [exact mundo_2_lido|]. split; [exact Hex|].
  exact (@update_title_null amb_estrito 2
           {| TarefaAtualizar.titulo := Some None;
              TarefaAtualizar.descricao := None;
              TarefaAtualizar.concluida := Some (Some true) |}
           mundo_2 [tarefa_1; tarefa_2] mundo_2_lido Hex eq_refl).
Defined.

(** * What the routes leave untouched *)

Section Quadro.
Context `{amb : Ambiente}.

Lemma preserva_ret {A} (a : A) : preserva_arquivo (ret a).
Proof. intros w; reflexivity. Qed.

Lemma preserva_raise {A} e : preserva_arquivo (@raise A e).
Proof. intros w; reflexivity. Qed.

Lemma preserva_elevar {A} (r : Resultado A) : preserva_arquivo (elevar r).
Proof. intros w; reflexivity. Qed.

Lemma preserva_bind {A B} (m : M A) (k : A -> M B) :
  preserva_arquivo m -> (forall a, preserva_arquivo (k a)) ->
  preserva_arquivo (bind m k).
Proof.
  intros Hm Hk w. unfold bind. specialize (Hm w).
  destruct (m w) as [[a|e] w1]; cbn [snd] in *; [|exact Hm].
  rewrite Hk. exact Hm.
Qed.

Lemma preserva_try {A} (m h : M A) :
  preserva_arquivo m -> preserva_arquivo h -> preserva_arquivo (try_except m h).
Proof.
  intros Hm Hh w. unfold try_except. specialize (Hm w).
  destruct (m w) as [[a|e] w1]; cbn [snd] in *; [exact Hm|].
  rewrite Hh. exact Hm.
Qed.

Lemma preserva_comando {A} c f : preserva_arquivo (@comando A c f).
Proof. intros w. apply comando_arquivo. Qed.

Lemma preserva_obter_redis : preserva_arquivo obter_redis.
Proof.
  intros w. destruct (obter_redis_total w) as (r & w' & E & Ha & _).
  rewrite E. exact Ha.
Qed.

Lemma preserva_ler : preserva_arquivo _ler_todas_as_tarefas.
Proof. intros w. rewrite ler_nao_altera. reflexivity. Qed.

Lemma preserva_listar : preserva_arquivo listar_tarefas.
Proof.
  unfold listar_tarefas.
  apply preserva_bind; [apply preserva_obter_redis|]. intros r.
  apply preserva_bind.
  - destruct r as [r|]; [|apply preserva_ret].
    apply preserva_try; [|apply preserva_ret].
    apply preserva_bind; [apply preserva_comando|].
    intros [[|c s]|]; try apply preserva_ret.
    apply preserva_bind; [apply preserva_elevar | intros; apply preserva_ret].
  - intros [ts|]; [apply preserva_ret|].
    apply preserva_bind; [apply preserva_ler|]. intros ts.
    apply preserva_bind; [|intros; apply preserva_ret].
    destruct r as [r|]; [|apply preserva_ret].
    apply preserva_try; [apply preserva_comando | apply preserva_ret].
Qed.

Lemma preserva_saude : preserva_arquivo saude.
Proof.
  unfold saude. apply preserva_bind; [apply preserva_obter_redis|].
  intros; apply preserva_ret.
Qed.

Lemma snd_mapear {A B} (f : A -> B) (m : M A) w :
  snd (mapear f m w) = snd (m w).
Proof. unfold mapear, bind. destruct (m w) as [[a|e] w']; reflexivity. Qed.

(** ** Updates *)

(** The id of a task survives any patch: the patch has no such field. *)
Lemma campo_id_copia (t : Tarefa.t) (payload : TarefaAtualizar.t) :
  campo (Tarefa.model_copy_dump t
           (TarefaAtualizar.model_dump_exclude_unset payload))
        "id" None valida_int = Some (Tarefa.id t).
Proof.
  unfold TarefaAtualizar.model_dump_exclude_unset.
  destruct (TarefaAtualizar.titulo payload) as [a|];
    destruct (TarefaAtualizar.descricao payload) as [b|];
    destruct (TarefaAtualizar.concluida payload) as [c|]; reflexivity.
Qed.

Lemma init_copia_id (t nova : Tarefa.t) (payload : TarefaAtualizar.t) :
  Tarefa.init (Tarefa.model_copy_dump t
                 (TarefaAtualizar.model_dump_exclude_unset payload)) = Ok nova ->
  Tarefa.id nova = Tarefa.id t.
Proof.
  unfold Tarefa.init. rewrite campo_id_copia.
  destruct (campo _ "titulo" _ _); [|discriminate].
  destruct (campo _ "descricao" _ _); [|discriminate].
  destruct (campo _ "concluida" _ _); [|discriminate].
  intros H; injection H as <-. reflexivity.
Qed.

(** The constructor on the copy patched with [concluida] alone. *)
Lemma init_copia_concluida (t : Tarefa.t) (c : option bool) :
  Tarefa.valida t ->
  Tarefa.init
    (Tarefa.model_copy_dump t
       (TarefaAtualizar.model_dump_exclude_unset
          {| TarefaAtualizar.titulo := None; TarefaAtualizar.descricao := None;
             TarefaAtualizar.concluida := Some c |})) =
  match valida_bool (TarefaAtualizar.json_de_bool c) with
  | Some b => Ok {| Tarefa.titulo := Tarefa.titulo t;
                    Tarefa.descricao := Tarefa.descricao t;
                    Tarefa.concluida := b; Tarefa.id := Tarefa.id t |}
  | None => Erro ValidationError
  end.
Proof.
  intros (H1 & H2 & H3). unfold Tarefa.init.
  change (campo ?d "titulo" ?q ?f) with (f (JStr (Tarefa.titulo t))).
  change (campo ?d "descricao" ?q ?f)
    with (f (TarefaAtualizar.json_de_str (Tarefa.descricao t))).
  change (campo ?d "concluida" ?q ?f) with (f (TarefaAtualizar.json_de_bool c)).
  change (campo ?d "id" ?q ?f) with (f (JInt (Tarefa.id t))).
  rewrite (valida_str_ok 1 200 _ H1 H2), (valida_descricao_ok _ H3).
  destruct (valida_bool (TarefaAtualizar.json_de_bool c)); reflexivity.
Qed.

(** [editar_tarefa] when the list is read and the task is there: the
    outcome is that of the loop body at the first task with the id. *)
Lemma editar_eq task_id payload w l1 t l2 :
  fst (_ler_todas_as_tarefas w) = Ok (l1 ++ t :: l2) ->
  (forall x, In x l1 -> Tarefa.id x <> task_id) ->
  Tarefa.id t = task_id ->
  editar_tarefa task_id payload w =
  editar_corpo payload (l1 ++ t :: l2) (length l1) t w.
Proof.
  intros Hl Hn Ht. unfold editar_tarefa.
  rewrite (bind_ok _ _ _ _ _ (ler_eq w _ Hl)).
  rewrite (editar_laco_achado task_id payload _ l1 t l2 0 Hn Ht).
  reflexivity.
Qed.

Lemma lookup_meio {A} (l1 : list A) x l2 : (l1 ++ x :: l2) !! length l1 = Some x.
Proof. rewrite list_lookup_middle; reflexivity. Qed.

Lemma antes_do_meio (task_id : Z) (l1 : list Tarefa.t) t l2 j x :
  (forall y, In y l1 -> Tarefa.id y <> task_id) ->
  (j < length l1)%nat -> (l1 ++ t :: l2) !! j = Some x ->
  Tarefa.id x <> task_id.
Proof.
  intros Hn Hj Hx. rewrite lookup_app_l in Hx by exact Hj.
  apply Hn. apply list_elem_of_In. eapply list_elem_of_lookup_2, Hx.
Qed.


Lemma Requisicao_eq_health (r : Requisicao) : r = GET_health \/ r <> GET_health.
Proof. destruct r; [left; reflexivity | right; discriminate ..]. Qed.
End Quadro.

Section Atualizacao.
Context `{amb : Ambiente}.

(** Claim C4.  When the persisted list is [ts], some task has the id asked
    for and the patch supplies [concluida] alone, [editar_tarefa] works on
    the first task [t] with that id, at position [idx], and the persisted
    list afterwards has the same length, the same task at every other
    position, and at [idx] a task with the id, title and description of
    [t].  When the patch gives a boolean, the operation returns [t] with
    [concluida] set to it, and that task is what the list holds at [idx]. *)
Theorem update_completed_only (task_id : Z) (c : option bool) (w : Mundo)
    (ts : list Tarefa.t) :
  fst (_ler_todas_as_tarefas w) = Ok ts ->
  (exists t, In t ts /\ Tarefa.id t = task_id) ->
  exists idx t r w' ts',
    ts !! idx = Some t /\ Tarefa.id t = task_id /\
    (forall j x, (j < idx)%nat -> ts !! j = Some x -> Tarefa.id x <> task_id) /\
    editar_tarefa task_id
      {| TarefaAtualizar.titulo := None; TarefaAtualizar.descricao := None;
         TarefaAtualizar.concluida := Some c |} w = (r, w') /\
    fst (_ler_todas_as_tarefas w') = Ok ts' /\
    length ts' = length ts /\
    (forall j, j <> idx -> ts' !! j = ts !! j) /\
    (exists t', ts' !! idx = Some t' /\ Tarefa.id t' = Tarefa.id t /\
                Tarefa.titulo t' = Tarefa.titulo t /\
                Tarefa.descricao t' = Tarefa.descricao t) /\
    (forall b, c = Some b ->
       let t' := {| Tarefa.titulo := Tarefa.titulo t;
                    Tarefa.descricao := Tarefa.descricao t;
                    Tarefa.concluida := b; Tarefa.id := Tarefa.id t |} in
       r = Ok t' /\ ts' = <[idx := t']> ts).
Proof.
  intros Hl Hex.
  destruct (primeira_ocorrencia task_id ts Hex) as (l1 & t & l2 & -> & Ht & Hn).
  pose proof (ler_valida w _ Hl) as Hv.
  assert (Hvt : Tarefa.valida t).
  { rewrite Forall_forall in Hv. apply Hv. apply list_elem_of_In.
    apply in_or_app. right; left; reflexivity. }
  set (payload := {| TarefaAtualizar.titulo := None;
                     TarefaAtualizar.descricao := None;
                     TarefaAtualizar.concluida := Some c |}).
  pose proof (editar_eq task_id payload w l1 t l2 Hl Hn Ht) as He.
  pose proof (init_copia_concluida t c Hvt) as Hi. fold payload in Hi.
  exists (length l1), t.
  destruct (valida_bool (TarefaAtualizar.json_de_bool c)) as [b'|] eqn:Eb.
  - set (t' := {| Tarefa.titulo := Tarefa.titulo t;
                  Tarefa.descricao := Tarefa.descricao t;
                  Tarefa.concluida := b'; Tarefa.id := Tarefa.id t |}) in *.
    assert (Hlen : (length l1 < length (l1 ++ t :: l2))%nat)
      by (rewrite length_app; cbn; lia).
    rewrite (editar_corpo_ok payload _ _ t w t' Hi Hlen) in He.
    destruct (invalidar_total
                (com_arquivo
                   (Some (texto_de (<[length l1 := t']> (l1 ++ t :: l2)))) w))
      as (w' & E & Ha).
    rewrite E in He. cbn [snd] in He.
    exists (Ok t'), w', (<[length l1 := t']> (l1 ++ t :: l2)).
    split; [apply lookup_meio|]. split; [exact Ht|].
    split; [intros j x Hj Hx; eapply antes_do_meio; eauto|].
    split; [exact He|].
    split.
    { eapply ler_apos_gravar; [|exact Ha].
      apply Forall_insert; [exact Hv|]. eapply init_valida, Hi. }
    split; [apply length_insert|].
    split; [intros j Hj; apply list_lookup_insert_ne; congruence|].
    split.
    { exists t'. split; [apply list_lookup_insert_eq, Hlen | auto]. }
    intros b ->. cbn in Eb. injection Eb as <-. split; reflexivity.
  - rewrite (editar_corpo_erro payload _ _ t w _ Hi) in He.
    exists (Erro ValidationError), w, (l1 ++ t :: l2).
    split; [apply lookup_meio|]. split; [exact Ht|].
    split; [intros j x Hj Hx; eapply antes_do_meio; eauto|].
    split; [exact He|]. split; [exact Hl|]. split; [reflexivity|].
    split; [reflexivity|].
    split; [exists t; split; [apply lookup_meio | auto]|].
    intros b ->. discriminate Eb.
Qed.

End Atualizacao.

Section Leitura.
Context `{amb : Ambiente}.

Lemma Tarefa_de_erros v e :
  Tarefa_de v = Erro e -> e = TypeError \/ e = ValidationError.
Proof.
  destruct v; cbn; try (intros H; injection H as <-; auto).
  unfold Tarefa.init.
  destruct (campo _ "titulo" _ _); [|intros H; injection H as <-; auto].
  destruct (campo _ "descricao" _ _); [|intros H; injection H as <-; auto].
  destruct (campo _ "concluida" _ _); [|intros H; injection H as <-; auto].
  destruct (campo _ "id" _ _); [discriminate|intros H; injection H as <-; auto].
Qed.




Lemma strip_presente c :
  forallb isspace c = false -> exists a s, strip c = a :: s.
Proof.
  intros H. destruct (strip c) as [|a s] eqn:E; [|eauto].
  apply strip_vazio in E. congruence.
Qed.

End Leitura.

(** * The cache handle *)

(** Claim C7, as worded, fails: after a failed initialisation the next
    call sends another [PING], and returns a handle when the server
    answers. *)
Lemma handle_not_permanent : ~ handle_permanente.
Proof.
  intros H.
  specialize (H mundo_novo (registrar PING mundo_novo) eq_refl eq_refl
                {| no_ar := true; dados := None |}).
  discriminate H.
Qed.

(** Claim C7, amended.  A call of [obter_redis] that fails to initialise
    the handle leaves the global unset; every later call then sends a new
    [PING], and returns no handle while the server does not answer and the
    new client as soon as it does, whatever the server was before. *)
Theorem handle_retried (w w1 : Mundo) :
  cliente_redis w = None ->
  obter_redis w = (Ok None, w1) ->
  cliente_redis w1 = None /\
  forall s : ServidorRedis,
    exists w2,
      obter_redis (com_servidor s w1) =
      (Ok (if no_ar s then Some ClienteRedis else None), w2) /\
      registro w2 = PING :: registro w1 /\
      cliente_redis w2 = (if no_ar s then Some ClienteRedis else None).
Proof.
  intros Hc H.
  assert (Hc1 : cliente_redis w1 = None).
  { destruct (obter_redis_total w) as (r & w' & E & _ & Hr).
    rewrite H in E. injection E as <- <-. exact Hr. }
  split; [exact Hc1|]. intros s.
  destruct (no_ar s) eqn:Hs.
  - eexists. rewrite (obter_redis_no_ar (com_servidor s w1) Hc1 Hs). auto.
  - eexists. rewrite (obter_redis_fora (com_servidor s w1) Hc1 Hs). auto.
Qed.

Lemma handle_retried_witness :
  cliente_redis (registrar PING mundo_novo) = None /\
  forall s : ServidorRedis,
    exists w2,
      obter_redis (com_servidor s (registrar PING mundo_novo)) =
      (Ok (if no_ar s then Some ClienteRedis else None), w2) /\
      registro w2 = PING :: registro (registrar PING mundo_novo) /\
      cliente_redis w2 = (if no_ar s then Some ClienteRedis else None).
Proof.
  exact (handle_retried mundo_novo (registrar PING mundo_novo) eq_refl eq_refl).
Defined.

(** * The cache down since the process started *)

Section CacheFora.
Context `{amb : Ambiente}.

Lemma sem_cache_registrar c k w v :
  sem_cache c w v -> sem_cache c (registrar k w) v.
Proof. intros (H1 & H2 & H3). repeat split; assumption. Qed.

Lemma sem_cache_com_arquivo c a w v :
  sem_cache c w v -> sem_cache c (com_arquivo a w) (com_arquivo a v).
Proof. intros (H1 & H2 & H3). repeat split; assumption. Qed.

(** A command sent to a server that does not answer raises. *)
Lemma comando_fora {A} k f w :
  no_ar (servidor w) = false ->
  @comando A k f w = (Erro ConnectionError, registrar k w).
Proof. intros H. unfold comando. cbn. rewrite H. reflexivity. Qed.

(** With the server down, [obter_redis] returns the handle as it is. *)
Lemma obter_redis_sem_cache c w v :
  sem_cache c w v ->
  exists w', obter_redis w = (Ok c, w') /\ sem_cache c w' v.
Proof.
  intros H. pose proof H as (H1 & H2 & H3). destruct c as [r|].
  - exists w. split; [apply obter_redis_presente, H2 | exact H].
  - exists (registrar PING w).
    split; [apply obter_redis_fora; assumption | apply sem_cache_registrar, H].
Qed.

Lemma ler_corresponde c w v :
  sem_cache c w v ->
  corresponde c (_ler_todas_as_tarefas w) (_ler_todas_as_tarefas v).
Proof.
  intros H. split; [apply ler_so_arquivo, H|].
  rewrite !ler_nao_altera. exact H.
Qed.

Lemma bind_corresponde {A B} c (m m' : M A) (k k' : A -> M B) w v :
  corresponde c (m w) (m' v) ->
  (forall a w1 v1, sem_cache c w1 v1 -> corresponde c (k a w1) (k' a v1)) ->
  corresponde c (bind m k w) (bind m' k' v).
Proof.
  unfold bind, corresponde.
  destruct (m w) as [[a|e] w1]; destruct (m' v) as [[a'|e'] v1];
    cbn [fst snd]; intros [Hf Hs] Hk; try discriminate.
  - injection Hf as <-. apply Hk, Hs.
  - injection Hf as <-. split; [reflexivity | exact Hs].
Qed.

Lemma elevar_corresponde {A} c (r : Resultado A) w v :
  sem_cache c w v -> corresponde c (elevar r w) (elevar r v).
Proof. intros H. split; [reflexivity | exact H]. Qed.

Lemma ret_corresponde {A} c (a : A) w v :
  sem_cache c w v -> corresponde c (ret a w) (ret a v).
Proof. intros H. split; [reflexivity | exact H]. Qed.

Lemma raise_corresponde {A} c e w v :
  sem_cache c w v -> corresponde c (@raise A e w) (@raise A e v).
Proof. intros H. split; [reflexivity | exact H]. Qed.

Lemma gravar_corresponde c ts w v :
  sem_cache c w v ->
  corresponde c (_gravar_todas_as_tarefas ts w)
                (_gravar_todas_as_tarefas ts v).
Proof.
  intros H. rewrite !gravar_eq.
  split; [reflexivity | apply sem_cache_com_arquivo, H].
Qed.

(** A command in a [try] whose handler goes on: the exception of the
    server that does not answer is swallowed. *)
Lemma try_comando_sem_cache {A} c k f (a : A) w v :
  sem_cache c w v ->
  corresponde c (try_except (comando k f) (ret a) w) (ret a v).
Proof.
  intros H. pose proof H as (H1 & H2 & H3). unfold try_except.
  rewrite (comando_fora k f w H3).
  split; [reflexivity | apply sem_cache_registrar, H].
Qed.

(** The invalidation reaches no server, and the route goes on. *)
Lemma invalidar_corresponde {A} c (k k' : M A) w v :
  sem_cache c w v ->
  (forall w1 v1, sem_cache c w1 v1 -> corresponde c (k w1) (k' v1)) ->
  corresponde c ((invalidar_cache_tarefas ;;; k) w) (k' v).
Proof.
  intros H Hk. unfold invalidar_cache_tarefas.
  destruct (obter_redis_sem_cache c w v H) as (w1 & E & H1).
  unfold bind at 1. unfold bind at 1. rewrite E.
  destruct c as [r|].
  - pose proof H1 as (_ & _ & H3). unfold try_except, redis_delete.
    rewrite (comando_fora _ _ w1 H3). unfold ret.
    apply Hk, sem_cache_registrar, H1.
  - unfold ret. apply Hk, H1.
Qed.

Lemma saude_sem_cache c w v :
  sem_cache c w v ->
  fst (saude w) =
  Ok {| status := lit "ok";
        redis := match c with Some _ => true | None => false end |} /\
  sem_cache c (snd (saude w)) v.
Proof.
  intros H. unfold saude.
  destruct (obter_redis_sem_cache c w v H) as (w1 & E & H1).
  rewrite (bind_ok _ _ _ _ _ E). split; [reflexivity | exact H1].
Qed.

Lemma saude_corresponde w v :
  sem_cache None w v -> corresponde None (saude w) (saude_so_store v).
Proof. intros H. exact (saude_sem_cache None w v H). Qed.

Lemma bind_ret_r {A} (m : M A) v : bind m ret v = m v.
Proof. unfold bind, ret. destruct (m v) as [[a|e] v1]; reflexivity. Qed.

Lemma listar_corresponde c w v :
  sem_cache c w v -> corresponde c (listar_tarefas w) (listar_so_store v).
Proof.
  intros H. unfold listar_tarefas.
  destruct (obter_redis_sem_cache c w v H) as (w1 & E & H1).
  rewrite (bind_ok _ _ _ _ _ E).
  unfold listar_so_store. rewrite <- (bind_ret_r _ler_todas_as_tarefas v).
  destruct c as [r|].
  - pose proof H1 as (_ & _ & H3).
    unfold bind at 1. unfold try_except at 1. unfold bind at 1.
    unfold redis_get. rewrite (comando_fora _ _ w1 H3). unfold ret at 1.
    apply bind_corresponde;
      [apply ler_corresponde, sem_cache_registrar, H1|].
    intros ts w2 v2 H2.
    change (corresponde (Some r)
              ((try_except (redis_set r CHAVE_CACHE_TAREFAS
                  (json_dumps None true
                     (JArr (List.map (fun t => JObj (Tarefa.model_dump t)) ts)))
                  TTL_CACHE_SEGUNDOS) (ret tt) ;;; ret ts) w2)
              (ret ts v2)).
    pose proof H2 as (_ & _ & H3'). unfold bind, try_except, redis_set.
    rewrite (comando_fora _ _ w2 H3'). unfold ret.
    split; [reflexivity | apply sem_cache_registrar, H2].
  - change (corresponde None
              ((tarefas <- _ler_todas_as_tarefas ;; ret tt ;;; ret tarefas) w1)
              (bind _ler_todas_as_tarefas ret v)).
    apply bind_corresponde; [apply ler_corresponde, H1|].
    intros ts w2 v2 H2. apply ret_corresponde, H2.
Qed.

Lemma adicionar_corresponde c p w v :
  sem_cache c w v -> corresponde c (adicionar_tarefa p w) (criar_so_store p v).
Proof.
  intros H. unfold adicionar_tarefa, criar_so_store.
  apply bind_corresponde; [apply ler_corresponde, H|].
  intros ts w1 v1 H1.
  apply bind_corresponde; [apply elevar_corresponde, H1|].
  intros t w2 v2 H2.
  apply bind_corresponde; [apply gravar_corresponde, H2|].
  intros _ w3 v3 H3.
  apply invalidar_corresponde; [exact H3|].
  intros w4 v4 H4. apply ret_corresponde, H4.
Qed.

Lemma setitem_corresponde {A} c (l : list A) i x w v :
  sem_cache c w v -> corresponde c (setitem l i x w) (setitem l i x v).
Proof.
  intros H. unfold setitem. destruct (i <? length l)%nat;
    [apply ret_corresponde, H | apply raise_corresponde, H].
Qed.

Lemma getitem_corresponde {A} c (l : list A) i w v :
  sem_cache c w v -> corresponde c (getitem l i w) (getitem l i v).
Proof.
  intros H. unfold getitem. destruct (l !! i);
    [apply ret_corresponde, H | apply raise_corresponde, H].
Qed.

Lemma editar_corpo_corresponde c payload tarefas idx t w v :
  sem_cache c w v ->
  corresponde c (editar_corpo payload tarefas idx t w)
                (atualizar_corpo_so_store payload tarefas idx t v).
Proof.
  intros H. unfold editar_corpo, atualizar_corpo_so_store.
  apply bind_corresponde; [apply elevar_corresponde, H|].
  intros nova w1 v1 H1.
  apply bind_corresponde; [apply setitem_corresponde, H1|].
  intros l w2 v2 H2.
  apply bind_corresponde; [apply gravar_corresponde, H2|].
  intros _ w3 v3 H3.
  apply invalidar_corresponde; [exact H3|].
  intros w4 v4 H4. apply getitem_corresponde, H4.
Qed.

Lemma editar_laco_corresponde c task_id payload tarefas resto :
  forall idx w v,
    sem_cache c w v ->
    corresponde c (editar_laco task_id payload tarefas idx resto w)
      (atualizar_laco_so_store task_id payload tarefas idx resto v).
Proof.
  induction resto as [|t resto IH]; intros idx w v H;
    cbn [editar_laco atualizar_laco_so_store].
  - apply raise_corresponde, H.
  - destruct (Tarefa.id t =? task_id)%Z;
      [apply editar_corpo_corresponde, H | apply IH, H].
Qed.

Lemma editar_corresponde c task_id payload w v :
  sem_cache c w v ->
  corresponde c (editar_tarefa task_id payload w)
                (atualizar_so_store task_id payload v).
Proof.
  intros H. unfold editar_tarefa, atualizar_so_store.
  apply bind_corresponde; [apply ler_corresponde, H|].
  intros ts w1 v1 H1. apply editar_laco_corresponde, H1.
Qed.

Lemma mapear_corresponde {A B} c (f : A -> B) (m m' : M A) w v :
  corresponde c (m w) (m' v) -> corresponde c (mapear f m w) (mapear f m' v).
Proof.
  intros H. unfold mapear. apply bind_corresponde; [exact H|].
  intros a w1 v1 Hs. apply ret_corresponde, Hs.
Qed.

(** One request on the task list, answered with the server down and
    answered by the Store alone, whatever the handle. *)
Lemma rota_tarefas_corresponde c r w v :
  r <> GET_health ->
  sem_cache c w v -> corresponde c (rota r w) (rota_so_store r v).
Proof.
  intros Hr H. destruct r as [| |p|i p]; cbn [rota rota_so_store];
    [contradiction | | |]; apply mapear_corresponde.
  - apply listar_corresponde, H.
  - apply adicionar_corresponde, H.
  - apply editar_corresponde, H.
Qed.

(** Any request, when no handle was ever obtained. *)
Lemma rota_corresponde r w v :
  sem_cache None w v -> corresponde None (rota r w) (rota_so_store r v).
Proof.
  intros H. destruct (Requisicao_eq_health r) as [->|Hr].
  - cbn [rota rota_so_store]. apply mapear_corresponde, saude_corresponde, H.
  - apply rota_tarefas_corresponde; assumption.
Qed.

Lemma atender_corresponde rs : forall w v,
  sem_cache None w v ->
  fst (atender rota rs w) = fst (atender rota_so_store rs v) /\
  sem_cache None (snd (atender rota rs w)) (snd (atender rota_so_store rs v)).
Proof.
  induction rs as [|r rs IH]; intros w v H; cbn [atender].
  - split; [reflexivity | exact H].
  - destruct (rota_corresponde r w v H) as [Hf Hs].
    destruct (rota r w) as [a w1]; destruct (rota_so_store r v) as [a' v1].
    cbn [fst snd] in *. subst a'.
    destruct (IH w1 v1 Hs) as [Hf' Hs'].
    destruct (atender rota rs w1) as [l w2];
      destruct (atender rota_so_store rs v1) as [l' v2].
    cbn [fst snd] in *. subst l'. split; [reflexivity | exact Hs'].
Qed.

(** ** What the Store alone answers *)

Lemma compreensao_erros xs e :
  compreensao Tarefa_de xs = Erro e -> e = TypeError \/ e = ValidationError.
Proof.
  induction xs as [|x xs IH]; cbn [compreensao]; [discriminate|].
  destruct (Tarefa_de x) as [t|e'] eqn:E.
  - destruct (compreensao Tarefa_de xs) as [ts|e']; [discriminate|].
    intros H; injection H as <-. apply IH. reflexivity.
  - intros H; injection H as <-. apply (Tarefa_de_erros x e' E).
Qed.

Lemma tarefas_de_texto_erros c e :
  tarefas_de_texto c = Erro e ->
  e = JSONDecodeError \/ e = TypeError \/ e = ValidationError.
Proof.
  unfold tarefas_de_texto.
  destruct (json_loads c) as [v|]; [|intros H; injection H as <-; auto].
  destruct (iterar v) as [xs|e'] eqn:E.
  - intros H. apply compreensao_erros in H. tauto.
  - intros H; injection H as <-.
    destruct v; cbn in E; try discriminate; injection E as <-; auto.
Qed.

Lemma ler_erros w e :
  fst (_ler_todas_as_tarefas w) = Erro e -> ~ erro_de_cache e.
Proof.
  unfold _ler_todas_as_tarefas.
  destruct (arquivo w) as [c|]; [|discriminate].
  destruct (strip c); [discriminate|]. cbn [fst]. intros H.
  apply tarefas_de_texto_erros in H.
  intros [-> | ->]; destruct H as [H|[H|H]]; discriminate H.
Qed.

Lemma init_erros d e : Tarefa.init d = Erro e -> e = ValidationError.
Proof.
  unfold Tarefa.init.
  destruct (campo _ "titulo" _ _); [|intros H; injection H as <-; auto].
  destruct (campo _ "descricao" _ _); [|intros H; injection H as <-; auto].
  destruct (campo _ "concluida" _ _); [|intros H; injection H as <-; auto].
  destruct (campo _ "id" _ _); [discriminate|intros H; injection H as <-; auto].
Qed.

Lemma atualizar_laco_erros task_id payload tarefas resto : forall idx w e,
  fst (atualizar_laco_so_store task_id payload tarefas idx resto w) = Erro e ->
  ~ erro_de_cache e.
Proof.
  induction resto as [|t resto IH]; intros idx w e;
    cbn [atualizar_laco_so_store].
  - intros H; injection H as <-. intros [?|?]; discriminate.
  - destruct (Tarefa.id t =? task_id)%Z; [|apply IH].
    unfold atualizar_corpo_so_store, elevar, bind.
    destruct (Tarefa.init _) as [nova|e'] eqn:Hi.
    + unfold setitem. destruct (idx <? length tarefas)%nat.
      * unfold ret. rewrite gravar_eq. unfold getitem.
        destruct (<[idx := nova]> tarefas !! idx); [discriminate|].
        intros H; injection H as <-. intros [?|?]; discriminate.
      * intros H; injection H as <-. intros [?|?]; discriminate.
    + intros H; injection H as <-. rewrite (init_erros _ _ Hi).
      intros [?|?]; discriminate.
Qed.

(** The Store alone reports the cache as unavailable and raises no error
    of the cache. *)
Lemma rota_so_store_respostas r v :
  match fst (rota_so_store r v) with
  | Ok (RSaude s) => redis s = false
  | Ok _ => True
  | Erro e => ~ erro_de_cache e
  end.
Proof.
  destruct r as [| |p|i p]; cbn [rota_so_store]; unfold mapear, bind.
  - reflexivity.
  - unfold listar_so_store.
    destruct (_ler_todas_as_tarefas v) as [[ts|e] v1] eqn:E; cbn; [exact I|].
    apply (ler_erros v). rewrite E. reflexivity.
  - unfold criar_so_store, bind.
    destruct (_ler_todas_as_tarefas v) as [[ts|e] v1] eqn:E; cbn [fst].
    + unfold elevar. destruct (Tarefa.init _) as [t|e] eqn:Hi.
      * rewrite gravar_eq. exact I.
      * cbn. rewrite (init_erros _ _ Hi). intros [?|?]; discriminate.
    + cbn. apply (ler_erros v). rewrite E. reflexivity.
  - unfold atualizar_so_store, bind.
    destruct (_ler_todas_as_tarefas v) as [[ts|e] v1] eqn:E; cbn [fst].
    + destruct (atualizar_laco_so_store i p ts 0 ts v1) as [[t|e] v2] eqn:E2;
        cbn; [exact I|].
      apply (atualizar_laco_erros i p ts ts 0%nat v1). rewrite E2. reflexivity.
    + cbn. apply (ler_erros v). rewrite E. reflexivity.
Qed.

Lemma atender_so_store_respostas rs : forall v a,
  In a (fst (atender rota_so_store rs v)) ->
  match a with
  | Ok (RSaude s) => redis s = false
  | Ok _ => True
  | Erro e => ~ erro_de_cache e
  end.
Proof.
  induction rs as [|r rs IH]; intros v a; cbn [atender]; [intros []|].
  pose proof (rota_so_store_respostas r v) as Hr.
  destruct (rota_so_store r v) as [a' v1].
  specialize (IH v1 a).
  destruct (atender rota_so_store rs v1) as [l v2]. cbn [fst] in *.
  intros [<-|Hin]; [exact Hr | apply IH, Hin].
Qed.

(** Claim C5.  In a process whose Redis server never answers (no handle
    was ever obtained, and every command raises), the answers to any
    sequence of requests (health, list, create, update) are those that the
    Store alone gives, one by one, and the file ends the same; no answer is
    an error of the cache, every health answer reports the cache as
    unavailable, and the handle stays unset.  And whatever the handle, a
    list, create or update request made while the server does not answer
    has the answer, and leaves the file, that the Store alone gives. *)
Theorem cache_down_store_only (rs : list Requisicao) (w : Mundo) :
  no_ar (servidor w) = false ->
  (cliente_redis w = None ->
   fst (atender rota rs w) = fst (atender rota_so_store rs w) /\
   arquivo (snd (atender rota rs w)) =
   arquivo (snd (atender rota_so_store rs w)) /\
   cliente_redis (snd (atender rota rs w)) = None /\
   (forall s, In (Ok (RSaude s)) (fst (atender rota rs w)) ->
              redis s = false) /\
   (forall e, In (Erro e) (fst (atender rota rs w)) -> ~ erro_de_cache e)) /\
  (forall r, r <> GET_health ->
     fst (rota r w) = fst (rota_so_store r w) /\
     arquivo (snd (rota r w)) = arquivo (snd (rota_so_store r w)) /\
     cliente_redis (snd (rota r w)) = cliente_redis w /\
     forall e, fst (rota r w) = Erro e -> ~ erro_de_cache e).
Proof.
  intros Hs. split.
  - intros Hc.
    assert (H : sem_cache None w w) by (repeat split; assumption).
    destruct (atender_corresponde rs w w H) as [Hf (Ha & Hc' & _)].
    split; [exact Hf|]. split; [exact Ha|]. split; [exact Hc'|].
    rewrite Hf. split.
    + intros s Hin. apply (atender_so_store_respostas rs w _ Hin).
    + intros e Hin. apply (atender_so_store_respostas rs w _ Hin).
  - intros r Hr.
    assert (H : sem_cache (cliente_redis w) w w) by (repeat split; assumption).
    destruct (rota_tarefas_corresponde _ r w w Hr H) as [Hf (Ha & Hc & _)].
    split; [exact Hf|]. split; [exact Ha|]. split; [exact Hc|].
    intros e He. rewrite Hf in He.
    pose proof (rota_so_store_respostas r w) as Hq. rewrite He in Hq. exact Hq.
Qed.
End CacheFora.

(** * The file lock *)

Lemma quantos_dentro_app l1 l2 :
  quantos_dentro (l1 ++ l2) = (quantos_dentro l1 + quantos_dentro l2)%nat.
Proof. unfold quantos_dentro. rewrite List.filter_app, length_app. reflexivity. Qed.

(** Replacing the point of one coroutine moves the count by what the old
    and the new point contribute. *)
Lemma quantos_dentro_insert l : forall i p p',
  l !! i = Some p ->
  (quantos_dentro (<[i := p']> l) + (if Trava.dentro p then 1 else 0) =
   quantos_dentro l + (if Trava.dentro p' then 1 else 0))%nat.
Proof.
  induction l as [|q l IH]; intros [|i] p p' H; try discriminate.
  - injection H as ->. unfold quantos_dentro.
    change (<[0%nat := p']> (p :: l)) with (p' :: l). cbn [List.filter].
    destruct (Trava.dentro p), (Trava.dentro p'); cbn [length]; lia.
  - change ((q :: l) !! S i) with (l !! i) in H. specialize (IH i p p' H).
    unfold quantos_dentro in *.
    change (<[S i := p']> (q :: l)) with (q :: <[i := p']> l).
    cbn [List.filter]. destruct (Trava.dentro q); cbn [length]; lia.
Qed.

Lemma quantos_dentro_um l i p :
  l !! i = Some p -> Trava.dentro p = true -> (1 <= quantos_dentro l)%nat.
Proof.
  intros H Hp. pose proof (quantos_dentro_insert l i p Trava.LerEspera H) as E.
  rewrite Hp in E. cbn in E. lia.
Qed.

Lemma quantos_dentro_dois l i j p q :
  l !! i = Some p -> l !! j = Some q -> i <> j ->
  Trava.dentro p = true -> Trava.dentro q = true ->
  (2 <= quantos_dentro l)%nat.
Proof.
  intros Hi Hj Hij Hp Hq.
  pose proof (quantos_dentro_insert l i p Trava.LerEspera Hi) as E.
  rewrite Hp in E. cbn in E.
  assert (Hj' : <[i := Trava.LerEspera]> l !! j = Some q)
    by (rewrite list_lookup_insert_ne by exact Hij; exact Hj).
  pose proof (quantos_dentro_um _ j q Hj' Hq). lia.
Qed.

Lemma quantos_dentro_existe l :
  (1 <= quantos_dentro l)%nat ->
  exists i p, l !! i = Some p /\ Trava.dentro p = true.
Proof.
  induction l as [|q l IH]; unfold quantos_dentro in *; cbn; [lia|].
  destruct (Trava.dentro q) eqn:E.
  - intros _. exists 0%nat, q. auto.
  - intros H. destruct (IH H) as (i & p & Hi & Hp). exists (S i), p. auto.
Qed.

(** What a step does to the lock matches what it does to the count. *)
Lemma retomar_dentro p d p' o :
  Trava.retomar p d = Some (p', o) ->
  match o with
  | Some true => Trava.dentro p = false /\ Trava.dentro p' = true
  | Some false => Trava.dentro p = true /\ Trava.dentro p' = false
  | None => Trava.dentro p = true /\ Trava.dentro p' = true
  end.
Proof.
  destruct p, d; cbn; intros H; try discriminate; injection H as <- <-; auto.
Qed.

Lemma passo_coerente e s s' :
  trava_coerente s -> Trava.passo e s = Some s' -> trava_coerente s'.
Proof.
  unfold trava_coerente. intros I H.
  destruct e as [| |i d]; cbn in H.
  - injection H as <-. cbn [Trava.locked Trava.corrotinas].
    rewrite quantos_dentro_app.
    change (quantos_dentro [Trava.LerEspera]) with 0%nat. lia.
  - injection H as <-. cbn [Trava.locked Trava.corrotinas].
    rewrite quantos_dentro_app.
    change (quantos_dentro [Trava.GravarEspera]) with 0%nat. lia.
  - destruct (Trava.corrotinas s !! i) as [p|] eqn:Hi; [|discriminate].
    destruct (Trava.retomar p d) as [[p' o]|] eqn:Hr; [|discriminate].
    pose proof (retomar_dentro p d p' o Hr) as Hd.
    pose proof (quantos_dentro_insert (Trava.corrotinas s) i p p' Hi) as E.
    destruct o as [[|]|].
    + destruct (Trava.locked s) eqn:Hl; [discriminate|].
      injection H as <-. cbn [Trava.locked Trava.corrotinas].
      destruct Hd as [Hp Hp']. rewrite Hp, Hp' in E. lia.
    + injection H as <-. cbn [Trava.locked Trava.corrotinas].
      destruct Hd as [Hp Hp'].
      rewrite Hp, Hp' in E.
      pose proof (quantos_dentro_um _ i p Hi Hp).
      destruct (Trava.locked s); lia.
    + injection H as <-. cbn [Trava.locked Trava.corrotinas].
      destruct Hd as [Hp Hp']. rewrite Hp, Hp' in E.
      destruct (Trava.locked s); lia.
Qed.

Lemma executar_coerente es : forall s s',
  trava_coerente s -> Trava.executar es s = Some s' -> trava_coerente s'.
Proof.
  induction es as [|e es IH]; intros s s' I H; cbn in H.
  - injection H as <-. exact I.
  - destruct (Trava.passo e s) as [s1|] eqn:E; [|discriminate].
    apply (IH s1 s' (passo_coerente e s s1 I E) H).
Qed.

(** Claim C9.  In every state that the process reaches by interleaving
    calls of [_ler_todas_as_tarefas] and [_gravar_todas_as_tarefas] at
    their [await]s: two coroutines inside the [async with] block are the
    same coroutine, so at most one read or write of the file is in flight;
    a coroutine inside the block holds the lock; and the lock is held only
    while some coroutine is inside the block, so every way out, by
    [return] or by an exception, has released it. *)
Theorem file_lock_exclusive (es : list Trava.Evento) (s : Trava.Estado) :
  Trava.executar es Trava.inicial = Some s ->
  (forall i j p q,
     Trava.corrotinas s !! i = Some p -> Trava.corrotinas s !! j = Some q ->
     Trava.dentro p = true -> Trava.dentro q = true -> i = j) /\
  (forall i j p q,
     Trava.corrotinas s !! i = Some p -> Trava.corrotinas s !! j = Some q ->
     Trava.em_voo p = true -> Trava.em_voo q = true -> i = j) /\
  (forall i p,
     Trava.corrotinas s !! i = Some p -> Trava.dentro p = true ->
     Trava.locked s = true) /\
  (Trava.locked s = true ->
   exists i p, Trava.corrotinas s !! i = Some p /\ Trava.dentro p = true /\
               Trava.terminou p = false).
Proof.
  intros H.
  assert (I : trava_coerente s)
    by (apply (executar_coerente es Trava.inicial s); [reflexivity | exact H]).
  unfold trava_coerente in I.
  assert (Hd : forall i j p q,
     Trava.corrotinas s !! i = Some p -> Trava.corrotinas s !! j = Some q ->
     Trava.dentro p = true -> Trava.dentro q = true -> i = j).
  { intros i j p q Hi Hj Hp Hq. destruct (Nat.eq_dec i j) as [|N]; [assumption|].
    pose proof (quantos_dentro_dois _ i j p q Hi Hj N Hp Hq).
    destruct (Trava.locked s); lia. }
  split; [exact Hd|]. split; [|split].
  - intros i j p q Hi Hj Hp Hq. apply (Hd i j p q Hi Hj).
    + destruct p; try discriminate; reflexivity.
    + destruct q; try discriminate; reflexivity.
  - intros i p Hi Hp. pose proof (quantos_dentro_um _ i p Hi Hp).
    destruct (Trava.locked s); [reflexivity | lia].
  - intros Hl. rewrite Hl in I.
    destruct (quantos_dentro_existe (Trava.corrotinas s)) as (i & p & Hi & Hp);
      [lia|].
    exists i, p. split; [exact Hi|]. split; [exact Hp|].
    destruct p; try discriminate; reflexivity.
Qed.

(** * The remaining properties at concrete inputs *)

Lemma update_completed_only_witness :
  fst (@_ler_todas_as_tarefas amb_estrito mundo_2) = Ok [tarefa_1; tarefa_2] /\
  (exists t, In t [tarefa_1; tarefa_2] /\ Tarefa.id t = 1%Z) /\
  exists idx t r w' ts',
    [tarefa_1; tarefa_2] !! idx = Some t /\ Tarefa.id t = 1%Z /\
    (forall j x, (j < idx)%nat -> [tarefa_1; tarefa_2] !! j = Some x ->
                 Tarefa.id x <> 1%Z) /\
    @editar_tarefa amb_estrito 1
      {| TarefaAtualizar.titulo := None; TarefaAtualizar.descricao := None;
         TarefaAtualizar.concluida := Some (Some true) |} mundo_2 = (r, w') /\
    fst (@_ler_todas_as_tarefas amb_estrito w') = Ok ts' /\
    length ts' = length [tarefa_1; tarefa_2] /\
    (forall j, j <> idx -> ts' !! j = [tarefa_1; tarefa_2] !! j) /\
    (exists t', ts' !! idx = Some t' /\ Tarefa.id t' = Tarefa.id t /\
                Tarefa.titulo t' = Tarefa.titulo t /\
                Tarefa.descricao t' = Tarefa.descricao t) /\
    (forall b, Some true = Some b ->
       let t' := {| Tarefa.titulo := Tarefa.titulo t;
                    Tarefa.descricao := Tarefa.descricao t;
                    Tarefa.concluida := b; Tarefa.id := Tarefa.id t |} in
       r = Ok t' /\ ts' = <[idx := t']> [tarefa_1; tarefa_2]).
Proof.
  assert (Hex : exists t, In t [tarefa_1; tarefa_2] /\ Tarefa.id t = 1%Z)
    by (exists tarefa_1; split; [left; reflexivity | reflexivity]).
  split; [exact mundo_2_lido|]. split; [exact Hex|].
  exact (@update_completed_only amb_estrito 1 (Some true) mundo_2
           [tarefa_1; tarefa_2] mundo_2_lido Hex).
Defined.


Lemma cache_down_store_only_witness :
  let rs := [GET_health; POST_tasks buy_milk; GET_tasks;
             PUT_tasks 1 so_concluida; PUT_tasks 7 so_concluida] in
  no_ar (servidor mundo_novo) = false /\
  cliente_redis mundo_novo = None /\
  fst (atender (@rota amb_estrito) rs mundo_novo) =
  fst (atender (@rota_so_store amb_estrito) rs mundo_novo) /\
  arquivo (snd (atender (@rota amb_estrito) rs mundo_novo)) =
  arquivo (snd (atender (@rota_so_store amb_estrito) rs mundo_novo)) /\
  cliente_redis (snd (atender (@rota amb_estrito) rs mundo_novo)) = None /\
  (forall s, In (Ok (RSaude s)) (fst (atender (@rota amb_estrito) rs mundo_novo)) ->
             redis s = false) /\
  (forall e, In (Erro e) (fst (atender (@rota amb_estrito) rs mundo_novo)) ->
             ~ erro_de_cache e).
Proof.
  intros rs. split; [reflexivity|]. split; [reflexivity|].
  exact (proj1 (@cache_down_store_only amb_estrito rs mundo_novo eq_refl)
           eq_refl).
Defined.


Lemma file_lock_exclusive_witness :
  Trava.executar
    [Trava.ChamarLer; Trava.ChamarGravar; Trava.Retomar 0 Trava.Segue;
     Trava.Retomar 0 Trava.Segue] Trava.inicial = Some leitura_em_voo /\
  (forall i j p q,
     Trava.corrotinas leitura_em_voo !! i = Some p ->
     Trava.corrotinas leitura_em_voo !! j = Some q ->
     Trava.dentro p = true -> Trava.dentro q = true -> i = j) /\
  (forall i j p q,
     Trava.corrotinas leitura_em_voo !! i = Some p ->
     Trava.corrotinas leitura_em_voo !! j = Some q ->
     Trava.em_voo p = true -> Trava.em_voo q = true -> i = j) /\
  (forall i p,
     Trava.corrotinas leitura_em_voo !! i = Some p -> Trava.dentro p = true ->
     Trava.locked leitura_em_voo = true) /\
  (Trava.locked leitura_em_voo = true ->
   exists i p, Trava.corrotinas leitura_em_voo !! i = Some p /\
               Trava.dentro p = true /\ Trava.terminou p = false).
Proof.
  split; [reflexivity|].
  exact (file_lock_exclusive
           [Trava.ChamarLer; Trava.ChamarGravar; Trava.Retomar 0 Trava.Segue;
            Trava.Retomar 0 Trava.Segue] leitura_em_voo eq_refl).
Defined.

(** * Examples *)

(** While the read is in flight, the call that waits for the lock cannot
    be resumed; once the read has returned, it can. *)
Example espera_pela_trava :
  Trava.passo (Trava.Retomar 1 Trava.Segue) leitura_em_voo = None /\
  Trava.executar
    [Trava.Retomar 0 Trava.Segue; Trava.Retomar 0 Trava.Retorna;
     Trava.Retomar 1 Trava.Segue] leitura_em_voo =
  Some {| Trava.locked := true;
          Trava.corrotinas := [Trava.Retornou; Trava.GravarDumps] |}.
Proof. split; reflexivity. Qed.

(** The next id follows the largest id, also when every id is negative. *)
Example proximo_id_negativo :
  _proximo_id [ {| Tarefa.titulo := lit "a"; Tarefa.descricao := None;
                   Tarefa.concluida := false; Tarefa.id := -5 |} ] = (-4)%Z.
Proof. reflexivity. Qed.

(** An empty list is written as two brackets, and a file that holds an
    empty JSON object reads as the empty list as well. *)
Example lista_vazia :
  texto_de [] = lit "[]" /\
  fst (@_ler_todas_as_tarefas amb_estrito
         (com_arquivo (Some (lit "{}")) mundo_novo)) = Ok [].
Proof. split; reflexivity. Qed.

(** With the server answering, the second listing is served from the cache
    and the first creation afterwards deletes the entry. *)
Example cache_no_ar :
  let w0 := com_servidor {| no_ar := true; dados := None |} mundo_2 in
  let w1 := snd (@listar_tarefas amb_estrito w0) in
  let w2 := snd (@listar_tarefas amb_estrito w1) in
  let w3 := snd (@adicionar_tarefa amb_estrito buy_milk w2) in
  fst (@listar_tarefas amb_estrito w1) = Ok [tarefa_1; tarefa_2] /\
  List.map (fun c => match c with
                     | PING => 0 | GET _ => 1 | SET _ _ _ => 2 | DEL _ => 3
                     end) (registro w3) = [3; 1; 2; 1; 0] /\
  dados (servidor w2) <> None /\ dados (servidor w3) = None.
Proof. vm_compute. repeat split; discriminate. Qed.

(** After the startup hook with the server down, the file holds the empty
    list, there is no handle, and the first task created gets the id 1. *)
Example partida :
  let w := snd (ao_iniciar mundo_novo) in
  arquivo w = Some (lit "[]") /\ cliente_redis w = None /\
  fst (@adicionar_tarefa amb_estrito buy_milk w) = Ok tarefa_1.
Proof. repeat split. Qed.

(** Numbers: an integer is read as an [int], a number with a fraction or
    an exponent as the float of its text; a leading zero, a trailing comma
    and text after the value are refused. *)
Example numeros_lidos :
  json_loads (lit " [0, -12, 1.5e3, -0, NaN] ") =
  Some (JArr [JInt 0; JInt (-12); JFloat (lit "1.5e3"); JInt 0;
              JFloat (lit "NaN")]) /\
  json_loads (lit "[01]") = None /\ json_loads (lit "[1,]") = None /\
  json_loads (lit "[1] 2") = None /\ json_loads (lit "-") = None.
Proof. repeat split. Qed.

(** Strings: an escape gives its code point, two escaped surrogates give
    the one character they stand for, and a raw line feed is refused. *)
Example strings_lidas :
  json_loads ([34] ++ lit "a\u00e9\n" ++ [34]) = Some (JStr [97; 233; 10]) /\
  json_loads ([34] ++ lit "\ud83d\ude00" ++ [34]) = Some (JStr [128512]) /\
  json_loads ([34; 97; 10; 34]) = None /\
  encode_basestring true [97; 233; 128512] =
  [34] ++ lit "a\u00e9\ud83d\ude00" ++ [34].
Proof. repeat split. Qed.

(** An object keeps the last value of a key that comes twice, at the place
    of the first. *)
Example chave_repetida :
  json_loads (json_dumps None false
                (JObj [(lit "a", JInt 1); (lit "b", JInt 2); (lit "a", JInt 3)])) =
  Some (JObj [(lit "a", JInt 3); (lit "b", JInt 2)]).
Proof. reflexivity. Qed.
(** * Start-up, identifiers and the cache handle *)

Section Partida.
Context `{amb : Ambiente}.

(** The handle that a call of [obter_redis] returns in [w]. *)
Lemma obter_redis_casos w :
  exists w',
    obter_redis w =
      (Ok (match cliente_redis w with
           | Some r => Some r
           | None => if no_ar (servidor w) then Some ClienteRedis else None
           end), w') /\
    arquivo w' = arquivo w /\ servidor w' = servidor w /\
    cliente_redis w' =
      match cliente_redis w with
      | Some r => Some r
      | None => if no_ar (servidor w) then Some ClienteRedis else None
      end /\
    registro w' =
      match cliente_redis w with
      | Some _ => registro w
      | None => PING :: registro w
      end.
Proof.
  destruct (cliente_redis w) as [r|] eqn:Hc.
  - exists w. rewrite (obter_redis_presente w r Hc). auto.
  - destruct (no_ar (servidor w)) eqn:Hs.
    + eexists. rewrite (obter_redis_no_ar w Hc Hs). cbn. auto.
    + eexists. rewrite (obter_redis_fora w Hc Hs). cbn. auto.
Qed.

(** Property X1.  [ao_iniciar] never raises.  It creates the data file
    with the text of the empty list when there is none and leaves an
    existing file as it is, so that a read after a start on no file gives
    the empty list and a read after a start on a file gives what the file
    gave before; the cache entry is not touched. *)
Theorem startup_creates_store (w : Mundo) :
  exists w',
    ao_iniciar w = (Ok tt, w') /\
    arquivo w' =
      match arquivo w with
      | None => Some (lit "[]")
      | Some c => Some c
      end /\
    fst (_ler_todas_as_tarefas w') =
      match arquivo w with
      | None => Ok []
      | Some _ => fst (_ler_todas_as_tarefas w)
      end /\
    servidor w' = servidor w.
Proof.
  unfold ao_iniciar.
  destruct (arquivo w) as [c|] eqn:Ha.
  - unfold bind at 1. rewrite Ha.
    destruct (obter_redis_casos w) as (w' & E & Hf & Hs & _).
    exists w'. unfold bind. rewrite E. split; [reflexivity|].
    split; [congruence|]. split; [|exact Hs].
    apply ler_so_arquivo. exact Hf.
  - unfold bind at 1. rewrite Ha.
    destruct (obter_redis_casos (com_arquivo (Some (lit "[]")) w))
      as (w' & E & Hf & Hs & _).
    exists w'. unfold bind. rewrite E. split; [reflexivity|].
    split; [exact Hf|]. split; [|exact Hs].
    unfold _ler_todas_as_tarefas. rewrite Hf. reflexivity.
Qed.

(** ** Identifiers *)

Lemma fold_left_max_atingido xs : forall x,
  fold_left Z.max xs x = x \/ In (fold_left Z.max xs x) xs.
Proof.
  induction xs as [|y xs IH]; intros x; cbn [fold_left]; [left; reflexivity|].
  destruct (IH (Z.max x y)) as [E|Hin].
  - rewrite E. destruct (Z.max_spec x y) as [[_ ->]|[_ ->]];
      [right; left; reflexivity | left; reflexivity].
  - right; right; exact Hin.
Qed.

Lemma max_default_atingido x xs d :
  In (max_default (x :: xs) d) (x :: xs).
Proof.
  cbn [max_default]. destruct (fold_left_max_atingido xs x) as [->|H];
    [left; reflexivity | right; exact H].
Qed.

(** Property X2.  [_proximo_id] gives 1 on the empty list and otherwise
    one more than the id of some task of the list, which is the largest:
    the result is above every id of the list, so it is the id of no task,
    and a gap left among smaller ids is never filled. *)
Theorem next_id_follows_largest (ts : list Tarefa.t) :
  (forall t, In t ts -> (Tarefa.id t < _proximo_id ts)%Z) /\
  match ts with
  | [] => _proximo_id ts = 1%Z
  | _ :: _ =>
      exists t, In t ts /\ _proximo_id ts = (Tarefa.id t + 1)%Z /\
                forall x, In x ts -> (Tarefa.id x <= Tarefa.id t)%Z
  end.
Proof.
  split; [intros t; apply proximo_id_acima|].
  destruct ts as [|a ts]; [reflexivity|].
  pose proof (max_default_atingido (Tarefa.id a) (List.map Tarefa.id ts) 0)
    as Hin.
  change (Tarefa.id a :: List.map Tarefa.id ts)
    with (List.map Tarefa.id (a :: ts)) in Hin.
  apply in_map_iff in Hin. destruct Hin as (t & Ht & Hin).
  exists t. split; [exact Hin|]. unfold _proximo_id.
  rewrite <- Ht. split; [reflexivity|]. intros x Hx. rewrite Ht.
  apply (max_default_ge (List.map Tarefa.id (a :: ts))). apply in_map.
  exact Hx.
Qed.

(** ** The handle, once obtained *)

(** Property X3.  Once a call of [obter_redis] has returned a handle,
    every later call returns that handle and sends nothing to the server,
    whatever has become of the server and of the file in between: the
    connection is not checked again. *)
Theorem handle_reused (w w1 : Mundo) (r : Redis) :
  obter_redis w = (Ok (Some r), w1) ->
  forall (s : ServidorRedis) (a : option str),
    obter_redis (com_servidor s (com_arquivo a w1)) =
    (Ok (Some r), com_servidor s (com_arquivo a w1)).
Proof.
  intros H s a.
  destruct (obter_redis_casos w) as (w' & E & _ & _ & Hc & _).
  rewrite H in E. injection E as Hr <-.
  apply obter_redis_presente. cbn. rewrite Hc, <- Hr. reflexivity.
Qed.

(** Property X4.  [saude] never raises, answers with status ok, and
    reports the cache as available exactly when a handle was obtained
    before or the server answers the ping of this call; so with a handle
    obtained earlier it reports the cache as available even when the
    server no longer answers.  The file and the cache entry are left as
    they were. *)
Theorem health_reports_handle (w : Mundo) :
  exists w',
    saude w =
      (Ok {| status := lit "ok";
             redis := match cliente_redis w with
                      | Some _ => true
                      | None => no_ar (servidor w)
                      end |}, w') /\
    arquivo w' = arquivo w /\ servidor w' = servidor w.
Proof.
  destruct (obter_redis_casos w) as (w' & E & Hf & Hs & _).
  exists w'. unfold saude. rewrite (bind_ok _ _ _ _ _ E). unfold ret.
  split; [|split; assumption].
  destruct (cliente_redis w); [reflexivity|].
  destruct (no_ar (servidor w)); reflexivity.
Qed.

(** [invalidar_cache_tarefas] in full. *)
Lemma invalidar_casos w :
  exists w',
    invalidar_cache_tarefas w = (Ok tt, w') /\
    arquivo w' = arquivo w /\
    no_ar (servidor w') = no_ar (servidor w) /\
    dados (servidor w') =
      (if no_ar (servidor w) then None else dados (servidor w)) /\
    cliente_redis w' =
      match cliente_redis w with
      | Some r => Some r
      | None => if no_ar (servidor w) then Some ClienteRedis else None
      end.
Proof.
  destruct (obter_redis_casos w) as (w1 & E & Hf & Hs & Hc & _).
  unfold invalidar_cache_tarefas. rewrite (bind_ok _ _ _ _ _ E).
  destruct (cliente_redis w) as [r|].
  - unfold try_except, redis_delete, comando. cbn. rewrite Hs.
    destruct (no_ar (servidor w)) eqn:Hn; cbn;
      (eexists; split; [reflexivity|]); cbn; rewrite ?Hs, ?Hn; auto.
  - destruct (no_ar (servidor w)) eqn:Hn.
    + unfold try_except, redis_delete, comando. cbn. rewrite Hs, Hn. cbn.
      eexists; split; [reflexivity|]. cbn. auto.
    + exists w1. split; [reflexivity|]. rewrite Hs, Hn. auto.
Qed.

(** Property X5.  [invalidar_cache_tarefas] never raises and never
    touches the file.  When the server answers, the cached list is gone
    afterwards; when it does not, the failure is swallowed and the entry
    stays as it was. *)
Theorem invalidation_effect (w : Mundo) :
  exists w',
    invalidar_cache_tarefas w = (Ok tt, w') /\
    arquivo w' = arquivo w /\
    no_ar (servidor w') = no_ar (servidor w) /\
    dados (servidor w') =
      (if no_ar (servidor w) then None else dados (servidor w)).
Proof.
  destruct (invalidar_casos w) as (w' & E & Hf & Hn & Hd & _).
  exists w'. auto.
Qed.
End Partida.
(** * The list route and the cache *)

Section Listagem.
Context `{amb : Ambiente}.

Lemma redis_get_eq r k w :
  redis_get r k w =
  (if no_ar (servidor w) then Ok (dados (servidor w))
   else Erro ConnectionError, registrar (GET k) w).
Proof.
  unfold redis_get, comando. cbn. destruct (no_ar (servidor w)); reflexivity.
Qed.

(** The first [try] of [listar_tarefas]: every failure counts as a miss. *)
Lemma tentar_cache_eq r w :
  try_except
    (em_cache <- redis_get r CHAVE_CACHE_TAREFAS ;;
     match em_cache with
     | Some (c :: s) =>
         ts <- elevar (tarefas_de_texto (c :: s)) ;; ret (Some ts)
     | _ => ret None
     end)
    (ret None) w =
  (Ok (lido_do_cache w), registrar (GET CHAVE_CACHE_TAREFAS) w).
Proof.
  unfold try_except, bind. rewrite redis_get_eq. unfold lido_do_cache.
  destruct (no_ar (servidor w)); [|reflexivity].
  destruct (dados (servidor w)) as [[|c s]|]; try reflexivity.
  unfold elevar, ret. destruct (tarefas_de_texto (c :: s)); reflexivity.
Qed.

(** The second [try] of [listar_tarefas]: the entry is stored when the
    server answers and accepts the expiry. *)
Lemma guardar_cache_eq r ts w :
  exists w',
    try_except
      (redis_set r CHAVE_CACHE_TAREFAS (texto_cache ts) TTL_CACHE_SEGUNDOS)
      (ret tt) w = (Ok tt, w') /\
    arquivo w' = arquivo w /\ cliente_redis w' = cliente_redis w /\
    no_ar (servidor w') = no_ar (servidor w) /\
    dados (servidor w') =
      (if no_ar (servidor w) && (0 <? TTL_CACHE_SEGUNDOS)%Z
       then Some (texto_cache ts) else dados (servidor w)) /\
    registro w' =
      SET CHAVE_CACHE_TAREFAS (texto_cache ts) TTL_CACHE_SEGUNDOS ::
      registro w.
Proof.
  unfold try_except, redis_set, comando. cbn.
  destruct (no_ar (servidor w)) eqn:Hn; cbn.
  - destruct (0 <? TTL_CACHE_SEGUNDOS)%Z; cbn;
      (eexists; split; [reflexivity|]); cbn; auto.
  - eexists; split; [reflexivity|]; cbn; auto.
Qed.

(** [listar_tarefas] in full: the answer, and what is left behind. *)
Lemma listar_casos w :
  exists w',
    listar_tarefas w =
      (match lido_do_cache w with
       | Some ts => Ok ts
       | None => fst (_ler_todas_as_tarefas w)
       end, w') /\
    arquivo w' = arquivo w /\
    no_ar (servidor w') = no_ar (servidor w) /\
    cliente_redis w' =
      match cliente_redis w with
      | Some r => Some r
      | None => if no_ar (servidor w) then Some ClienteRedis else None
      end /\
    dados (servidor w') =
      match lido_do_cache w, fst (_ler_todas_as_tarefas w) with
      | None, Ok ts =>
          if no_ar (servidor w) && (0 <? TTL_CACHE_SEGUNDOS)%Z
          then Some (texto_cache ts) else dados (servidor w)
      | _, _ => dados (servidor w)
      end /\
    match lido_do_cache w, fst (_ler_todas_as_tarefas w) with
    | None, Ok ts =>
        no_ar (servidor w) = true ->
        exists l,
          registro w' =
          SET CHAVE_CACHE_TAREFAS (texto_cache ts) TTL_CACHE_SEGUNDOS :: l
    | _, _ => True
    end.
Proof.
  destruct (obter_redis_casos w) as (w1 & E & Hf & Hs & Hc & _).
  unfold listar_tarefas. rewrite (bind_ok _ _ _ _ _ E).
  assert (Hlido : forall k, lido_do_cache (registrar k w1) = lido_do_cache w)
    by (intros k; unfold lido_do_cache; cbn; rewrite Hs; reflexivity).
  assert (Hler : forall w2, arquivo w2 = arquivo w ->
            _ler_todas_as_tarefas w2 = (fst (_ler_todas_as_tarefas w), w2)).
  { intros w2 H2. rewrite <- (ler_so_arquivo w2 w H2).
    rewrite <- (ler_nao_altera w2) at 3. apply surjective_pairing. }
  remember (match cliente_redis w with
            | Some r => Some r
            | None => if no_ar (servidor w) then Some ClienteRedis else None
            end) as h eqn:Hh.
  destruct h as [r|].
  - rewrite (bind_ok _ _ _ _ _ (tentar_cache_eq r w1)).
    assert (Hl1 : lido_do_cache w1 = lido_do_cache w)
      by (unfold lido_do_cache; rewrite Hs; reflexivity).
    rewrite Hl1.
    destruct (lido_do_cache w) as [ts|] eqn:Hl.
    + eexists. split; [reflexivity|]. cbn. rewrite Hs. repeat split; auto.
    + pose proof (Hler (registrar (GET CHAVE_CACHE_TAREFAS) w1) Hf) as Hr.
      destruct (fst (_ler_todas_as_tarefas w)) as [ts|e].
      * rewrite (bind_ok _ _ _ _ _ Hr).
        destruct (guardar_cache_eq r ts
                    (registrar (GET CHAVE_CACHE_TAREFAS) w1))
          as (w3 & E3 & Hf3 & Hc3 & Hn3 & Hd3 & Hr3).
        fold (texto_cache ts). rewrite (bind_ok _ _ _ _ _ E3).
        exists w3. split; [reflexivity|]. cbn in Hf3, Hc3, Hn3, Hd3.
        rewrite Hf3, Hn3, Hc3, Hd3, Hs. repeat split; auto.
        intros _. eexists. exact Hr3.
      * rewrite (bind_erro _ _ _ _ _ Hr). eexists. split; [reflexivity|].
        cbn. rewrite Hs. repeat split; auto.
  - assert (Hn : no_ar (servidor w) = false)
      by (destruct (cliente_redis w); [discriminate|];
          destruct (no_ar (servidor w)); [discriminate | reflexivity]).
    assert (Hl : lido_do_cache w = None)
      by (unfold lido_do_cache; rewrite Hn; reflexivity).
    rewrite Hl, Hn. unfold ret at 1. unfold bind at 1.
    pose proof (Hler w1 Hf) as Hr.
    destruct (fst (_ler_todas_as_tarefas w)) as [ts|e].
    + rewrite (bind_ok _ _ _ _ _ Hr). exists w1. split; [reflexivity|].
      rewrite Hs, Hn. repeat split; auto. discriminate.
    + rewrite (bind_erro _ _ _ _ _ Hr). exists w1. split; [reflexivity|].
      rewrite Hs, Hn. repeat split; auto.
Qed.

(** Property X6.  [listar_tarefas] answers from the cache, without
    looking at the file, when the server answers and holds under the key a
    text that is not empty and that reads as a list of tasks.  In every
    other case (no server, no entry, an empty entry, an entry that does
    not parse or does not validate) it answers what reading the file
    gives, the exception of the read included.  It never changes the
    file. *)
Theorem list_answer (w : Mundo) :
  fst (listar_tarefas w) =
    match lido_do_cache w with
    | Some ts => Ok ts
    | None => fst (_ler_todas_as_tarefas w)
    end /\
  arquivo (snd (listar_tarefas w)) = arquivo w.
Proof.
  destruct (listar_casos w) as (w' & E & Hf & _). rewrite E. auto.
Qed.

End Listagem.
(** * The write routes *)

Section Escritas.
Context `{amb : Ambiente}.

Lemma posicao_laco task_id payload tarefas resto : forall idx,
  editar_laco task_id payload tarefas idx resto =
  match posicao task_id resto with
  | None => raise nao_encontrada
  | Some (i, t) => editar_corpo payload tarefas (idx + i) t
  end.
Proof.
  induction resto as [|t resto IH]; intros idx; cbn [editar_laco posicao];
    [reflexivity|].
  destruct (Tarefa.id t =? task_id)%Z; [rewrite Nat.add_0_r; reflexivity|].
  rewrite IH. destruct (posicao task_id resto) as [[i x]|]; [|reflexivity].
  f_equal. lia.
Qed.

Lemma posicao_some task_id ts : forall i t,
  posicao task_id ts = Some (i, t) ->
  ts !! i = Some t /\ Tarefa.id t = task_id /\
  forall j x, (j < i)%nat -> ts !! j = Some x -> Tarefa.id x <> task_id.
Proof.
  induction ts as [|a ts IH]; intros i t H; cbn [posicao] in H; [discriminate|].
  destruct (Z.eqb_spec (Tarefa.id a) task_id) as [E|N].
  - injection H as <- <-. split; [reflexivity|]. split; [exact E|].
    intros j x Hj; lia.
  - destruct (posicao task_id ts) as [[k y]|]; [|discriminate].
    injection H as <- <-. destruct (IH k y eq_refl) as (H1 & H2 & H3).
    split; [exact H1|]. split; [exact H2|].
    intros [|j] x Hj Hx; cbn in Hx.
    + injection Hx as <-. exact N.
    + apply (H3 j x); [lia | exact Hx].
Qed.

Lemma posicao_none task_id ts :
  posicao task_id ts = None -> forall t, In t ts -> Tarefa.id t <> task_id.
Proof.
  induction ts as [|a ts IH]; intros H t Hin; [destruct Hin|].
  cbn [posicao] in H.
  destruct (Z.eqb_spec (Tarefa.id a) task_id) as [E|N]; [discriminate|].
  destruct (posicao task_id ts) as [[k y]|]; [discriminate|].
  destruct Hin as [<-|Hin]; [exact N | apply IH; auto].
Qed.

(** [adicionar_tarefa] in full. *)
Lemma adicionar_casos p w :
  exists w',
    adicionar_tarefa p w =
      (resposta_escrita (resultado_escrita (criar_puro p) w), w') /\
    apos_escrita (resultado_escrita (criar_puro p) w) w w'.
Proof.
  unfold resultado_escrita, criar_puro.
  destruct (fst (_ler_todas_as_tarefas w)) as [ts|e] eqn:Hl.
  - match goal with
    | |- context [Tarefa.init ?d] => destruct (Tarefa.init d) as [t|e] eqn:Hi
    end.
    + rewrite (adicionar_eq p w ts t Hl Hi).
      destruct (invalidar_casos (com_arquivo (Some (texto_de (ts ++ [t]))) w))
        as (w' & E & Hf & Hn & Hd & _).
      rewrite E. exists w'. split; [reflexivity|].
      split; [exact Hf | split; [exact Hn | exact Hd]].
    + exists w. unfold adicionar_tarefa.
      rewrite (bind_ok _ _ _ _ _ (ler_eq w ts Hl)).
      unfold elevar at 1. unfold bind at 1. rewrite Hi.
      split; [reflexivity|]. repeat split.
  - exists w. unfold adicionar_tarefa.
    rewrite (bind_erro _ _ _ _ _ (ler_erro w e Hl)).
    split; [reflexivity|]. repeat split.
Qed.

(** [editar_tarefa] in full. *)
Lemma editar_casos task_id p w :
  exists w',
    editar_tarefa task_id p w =
      (resposta_escrita (resultado_escrita (editar_puro task_id p) w), w') /\
    apos_escrita (resultado_escrita (editar_puro task_id p) w) w w'.
Proof.
  unfold resultado_escrita, editar_puro.
  destruct (fst (_ler_todas_as_tarefas w)) as [ts|e] eqn:Hl.
  - unfold editar_tarefa. rewrite (bind_ok _ _ _ _ _ (ler_eq w ts Hl)).
    rewrite posicao_laco.
    destruct (posicao task_id ts) as [[idx t]|] eqn:Hp.
    + destruct (posicao_some task_id ts idx t Hp) as (Hi & _ & _).
      apply lookup_lt_Some in Hi. cbn [Nat.add].
      match goal with
      | |- context [Tarefa.init ?d] => destruct (Tarefa.init d) as [nova|e] eqn:Hn
      end.
      * rewrite (editar_corpo_ok p ts idx t w nova Hn Hi).
        destruct (invalidar_casos
                    (com_arquivo (Some (texto_de (<[idx := nova]> ts))) w))
          as (w' & E & Hf & Hna & Hd & _).
        rewrite E. exists w'. split; [reflexivity|].
        split; [exact Hf | split; [exact Hna | exact Hd]].
      * rewrite (editar_corpo_erro p ts idx t w e Hn).
        exists w. split; [reflexivity|]. repeat split.
    + exists w. split; [reflexivity|]. repeat split.
  - exists w. unfold editar_tarefa.
    rewrite (bind_erro _ _ _ _ _ (ler_erro w e Hl)).
    split; [reflexivity|]. repeat split.
Qed.

Lemma fst_mapear {A B} (f : A -> B) (m : M A) w :
  fst (mapear f m w) =
  match fst (m w) with
  | Ok a => Ok (f a)
  | Erro e => Erro e
  end.
Proof. unfold mapear, bind. destruct (m w) as [[a|e] w']; reflexivity. Qed.





Lemma resposta_escrita_ok r t :
  resposta_escrita r = Ok t -> exists ts, r = Ok (t, ts).
Proof.
  destruct r as [[t' ts]|e']; [|discriminate].
  cbn. intros H; injection H as ->. exists ts; reflexivity.
Qed.


Lemma resultado_escrita_arquivo puro w v :
  arquivo w = arquivo v ->
  resultado_escrita puro w = resultado_escrita puro v.
Proof.
  intros H. unfold resultado_escrita. rewrite (ler_so_arquivo w v H).
  reflexivity.
Qed.

(** Property X9.  A create and an update decide on the file alone: two
    processes whose files hold the same text give the same answer and
    store the same text, whatever their caches hold and whether or not
    their servers answer. *)
Theorem writes_ignore_cache (r : Requisicao) (w v : Mundo) :
  r <> GET_health -> r <> GET_tasks ->
  arquivo w = arquivo v ->
  fst (rota r w) = fst (rota r v) /\
  arquivo (snd (rota r w)) = arquivo (snd (rota r v)).
Proof.
  intros H1 H2 Ha.
  destruct r as [| |p|i p]; try contradiction; cbn [rota];
    rewrite !fst_mapear, !snd_mapear.
  - destruct (adicionar_casos p w) as (w' & E & Hf & _).
    destruct (adicionar_casos p v) as (v' & E' & Hf' & _).
    rewrite E, E'. cbn [fst snd]. rewrite Hf, Hf'.
    rewrite (resultado_escrita_arquivo (criar_puro p) w v Ha).
    split; [reflexivity|].
    destruct (resultado_escrita (criar_puro p) v) as [[? ?]|?]; auto.
  - destruct (editar_casos i p w) as (w' & E & Hf & _).
    destruct (editar_casos i p v) as (v' & E' & Hf' & _).
    rewrite E, E'. cbn [fst snd]. rewrite Hf, Hf'.
    rewrite (resultado_escrita_arquivo (editar_puro i p) w v Ha).
    split; [reflexivity|].
    destruct (resultado_escrita (editar_puro i p) v) as [[? ?]|?]; auto.
Qed.

(** ** After a write *)

Lemma criar_puro_ok p ts t ts' :
  Forall Tarefa.valida ts -> criar_puro p ts = Ok (t, ts') ->
  ts' = ts ++ [t] /\ Forall Tarefa.valida ts' /\ In t ts' /\
  Tarefa.id t = _proximo_id ts.
Proof.
  intros Hv. unfold criar_puro.
  match goal with
  | |- context [Tarefa.init ?d] => destruct (Tarefa.init d) as [x|] eqn:Hi
  end; [|discriminate].
  intros H; injection H as <- <-.
  split; [reflexivity|]. split.
  - apply Forall_app. split; [exact Hv|]. constructor; [|constructor].
    eapply init_valida, Hi.
  - split; [apply in_or_app; right; left; reflexivity|].
    unfold Tarefa.init in Hi.
    change (campo _ "id" None valida_int) with (Some (_proximo_id ts)) in Hi.
    destruct (campo _ "titulo" _ _); [|discriminate].
    destruct (campo _ "descricao" _ _); [|discriminate].
    destruct (campo _ "concluida" _ _); [|discriminate].
    injection Hi as <-. reflexivity.
Qed.

Lemma editar_puro_ok task_id p ts t ts' :
  Forall Tarefa.valida ts -> editar_puro task_id p ts = Ok (t, ts') ->
  exists idx t0,
    posicao task_id ts = Some (idx, t0) /\ ts' = <[idx := t]> ts /\
    Forall Tarefa.valida ts' /\ In t ts'.
Proof.
  intros Hv. unfold editar_puro.
  destruct (posicao task_id ts) as [[idx t0]|] eqn:Hp; [|discriminate].
  match goal with
  | |- context [Tarefa.init ?d] => destruct (Tarefa.init d) as [x|] eqn:Hi
  end; [|discriminate].
  intros H; injection H as <- <-. exists idx, t0.
  split; [reflexivity|]. split; [reflexivity|].
  destruct (posicao_some task_id ts idx t0 Hp) as (Hl & _).
  apply lookup_lt_Some in Hl. split.
  - apply Forall_insert; [exact Hv | eapply init_valida, Hi].
  - apply list_elem_of_In. eapply list_elem_of_lookup_2.
    apply list_lookup_insert_eq. exact Hl.
Qed.

Lemma lido_apos_escrita x w w' :
  apos_escrita (Ok x) w w' -> lido_do_cache w' = None.
Proof.
  intros (_ & Hn & Hd). unfold lido_do_cache. rewrite Hn, Hd.
  destruct (no_ar (servidor w)); reflexivity.
Qed.

Lemma listar_apos_escrita t ts' w w' :
  Forall Tarefa.valida ts' ->
  apos_escrita (Ok (t, ts')) w w' ->
  fst (listar_tarefas w') = Ok ts'.
Proof.
  intros Hv H. pose proof (lido_apos_escrita _ _ _ H) as Hl.
  destruct H as (Hf & _).
  destruct (listar_casos w') as (w2 & E & _). rewrite E, Hl. cbn [fst].
  rewrite (ler_texto_de ts' w' Hv Hf). reflexivity.
Qed.

(** Property X10.  Right after a create or an update that succeeded, a
    list request returns the list that was just stored, which holds the
    task that was answered: it is never served a list that was cached
    before the write, whether the invalidation reached the server or
    not. *)
Theorem list_after_write (r : Requisicao) (w : Mundo) (a : Resposta) :
  r <> GET_health -> r <> GET_tasks ->
  fst (rota r w) = Ok a ->
  exists t ts',
    a = RTarefa t /\ In t ts' /\
    arquivo (snd (rota r w)) = Some (texto_de ts') /\
    fst (listar_tarefas (snd (rota r w))) = Ok ts'.
Proof.
  intros H1 H2.
  destruct r as [| |p|i p]; try contradiction; cbn [rota];
    rewrite fst_mapear, snd_mapear.
  - destruct (adicionar_casos p w) as (w' & E & Ha). rewrite E. cbn [fst snd].
    destruct (resposta_escrita _) as [t|] eqn:Hr; [|discriminate].
    intros H; injection H as <-.
    destruct (resposta_escrita_ok _ _ Hr) as (ts' & Hp). rewrite Hp in Ha.
    unfold resultado_escrita in Hp.
    destruct (fst (_ler_todas_as_tarefas w)) as [ts|] eqn:Hl; [|discriminate].
    destruct (criar_puro_ok p ts t ts' (ler_valida w ts Hl) Hp)
      as (_ & Hv & Hin & _).
    exists t, ts'. split; [reflexivity|]. split; [exact Hin|].
    split; [apply Ha | eapply listar_apos_escrita; eassumption].
  - destruct (editar_casos i p w) as (w' & E & Ha). rewrite E. cbn [fst snd].
    destruct (resposta_escrita _) as [t|] eqn:Hr; [|discriminate].
    intros H; injection H as <-.
    destruct (resposta_escrita_ok _ _ Hr) as (ts' & Hp). rewrite Hp in Ha.
    unfold resultado_escrita in Hp.
    destruct (fst (_ler_todas_as_tarefas w)) as [ts|] eqn:Hl; [|discriminate].
    destruct (editar_puro_ok i p ts t ts' (ler_valida w ts Hl) Hp)
      as (_ & _ & _ & _ & Hv & Hin).
    exists t, ts'. split; [reflexivity|]. split; [exact Hin|].
    split; [apply Ha | eapply listar_apos_escrita; eassumption].
Qed.

(** ** What a patch does *)

Lemma copia_titulo (t : Tarefa.t) (p : TarefaAtualizar.t) :
  dict_get (Tarefa.model_copy_dump t
              (TarefaAtualizar.model_dump_exclude_unset p)) (lit "titulo") =
  Some (match TarefaAtualizar.titulo p with
        | Some v => TarefaAtualizar.json_de_str v
        | None => JStr (Tarefa.titulo t)
        end).
Proof.
  unfold TarefaAtualizar.model_dump_exclude_unset.
  destruct (TarefaAtualizar.titulo p) as [a|];
    destruct (TarefaAtualizar.descricao p) as [b|];
    destruct (TarefaAtualizar.concluida p) as [c|]; reflexivity.
Qed.

Lemma copia_descricao (t : Tarefa.t) (p : TarefaAtualizar.t) :
  dict_get (Tarefa.model_copy_dump t
              (TarefaAtualizar.model_dump_exclude_unset p))
           (lit "descricao") =
  Some (TarefaAtualizar.json_de_str
          (match TarefaAtualizar.descricao p with
           | Some v => v
           | None => Tarefa.descricao t
           end)).
Proof.
  unfold TarefaAtualizar.model_dump_exclude_unset.
  destruct (TarefaAtualizar.titulo p) as [a|];
    destruct (TarefaAtualizar.descricao p) as [b|];
    destruct (TarefaAtualizar.concluida p) as [c|]; reflexivity.
Qed.

Lemma copia_concluida (t : Tarefa.t) (p : TarefaAtualizar.t) :
  dict_get (Tarefa.model_copy_dump t
              (TarefaAtualizar.model_dump_exclude_unset p))
           (lit "concluida") =
  Some (match TarefaAtualizar.concluida p with
        | Some v => TarefaAtualizar.json_de_bool v
        | None => JBool (Tarefa.concluida t)
        end).
Proof.
  unfold TarefaAtualizar.model_dump_exclude_unset.
  destruct (TarefaAtualizar.titulo p) as [a|];
    destruct (TarefaAtualizar.descricao p) as [b|];
    destruct (TarefaAtualizar.concluida p) as [c|]; reflexivity.
Qed.

(** The constructor on the copy patched with values that a task accepts. *)
Lemma init_remendo (t : Tarefa.t) (p : TarefaAtualizar.t) :
  Tarefa.valida t -> remendo_aceito p ->
  Tarefa.init (Tarefa.model_copy_dump t
                 (TarefaAtualizar.model_dump_exclude_unset p)) =
  Ok (remendar p t).
Proof.
  intros (H1 & H2 & H3) (A1 & A2 & A3).
  unfold Tarefa.init. rewrite campo_id_copia. unfold campo.
  rewrite copia_titulo, copia_descricao, copia_concluida. unfold remendar.
  destruct (TarefaAtualizar.titulo p) as [[s|]|]; [| destruct A1 |].
  - destruct A1 as (A1 & A1').
    cbn [TarefaAtualizar.json_de_str]. rewrite (valida_str_ok 1 200 _ A1 A1').
    destruct (TarefaAtualizar.descricao p) as [[d|]|];
      [rewrite (valida_descricao_ok (Some d) A2)
      |rewrite (valida_descricao_ok None I)
      |rewrite (valida_descricao_ok _ H3)];
      (destruct (TarefaAtualizar.concluida p) as [[b|]|];
       [reflexivity | contradiction | reflexivity]).
  - rewrite (valida_str_ok 1 200 _ H1 H2).
    destruct (TarefaAtualizar.descricao p) as [[d|]|];
      [rewrite (valida_descricao_ok (Some d) A2)
      |rewrite (valida_descricao_ok None I)
      |rewrite (valida_descricao_ok _ H3)];
      (destruct (TarefaAtualizar.concluida p) as [[b|]|];
       [reflexivity | contradiction | reflexivity]).
Qed.

Lemma posicao_existe task_id ts :
  (exists t, In t ts /\ Tarefa.id t = task_id) ->
  exists idx t, posicao task_id ts = Some (idx, t).
Proof.
  intros (t & Hin & Ht).
  destruct (posicao task_id ts) as [[idx x]|] eqn:Hp; [eauto|].
  exfalso. exact (posicao_none task_id ts Hp t Hin Ht).
Qed.

(** Property X11.  When the file reads as [ts], some task has the id
    asked for and every value that the patch supplies is one a task
    accepts, [editar_tarefa] answers the first task with that id with each
    supplied field replaced and every other field, the id included, as it
    was, and stores the list with that task at the same position and
    every other task as before. *)
Theorem update_applies_patch (task_id : Z) (p : TarefaAtualizar.t)
    (w : Mundo) (ts : list Tarefa.t) :
  fst (_ler_todas_as_tarefas w) = Ok ts ->
  (exists t, In t ts /\ Tarefa.id t = task_id) ->
  remendo_aceito p ->
  exists idx t w',
    ts !! idx = Some t /\ Tarefa.id t = task_id /\
    (forall j x, (j < idx)%nat -> ts !! j = Some x -> Tarefa.id x <> task_id) /\
    editar_tarefa task_id p w = (Ok (remendar p t), w') /\
    fst (_ler_todas_as_tarefas w') = Ok (<[idx := remendar p t]> ts).
Proof.
  intros Hl Hex Ha.
  destruct (posicao_existe task_id ts Hex) as (idx & t & Hp).
  destruct (posicao_some task_id ts idx t Hp) as (Hi & Ht & Hfirst).
  pose proof (ler_valida w ts Hl) as Hv.
  assert (Hvt : Tarefa.valida t).
  { rewrite Forall_forall in Hv. apply Hv.
    eapply list_elem_of_lookup_2, Hi. }
  pose proof (ler_valida w ts Hl) as Hv'.
  destruct (editar_casos task_id p w) as (w' & E & Hf & _).
  unfold resultado_escrita, editar_puro in E, Hf.
  rewrite Hl, Hp, (init_remendo t p Hvt Ha) in E, Hf.
  cbn [resposta_escrita] in E. cbn beta iota in Hf.
  exists idx, t, w'. split; [exact Hi|]. split; [exact Ht|].
  split; [exact Hfirst|]. split; [exact E|].
  rewrite (ler_texto_de (<[idx := remendar p t]> ts) w');
    [reflexivity | | exact Hf].
  apply Forall_insert; [exact Hv'|]. eapply init_valida.
  apply (init_remendo t p Hvt Ha).
Qed.

(** ** A create, and what follows it *)






Lemma atender_cons (h : Requisicao -> M Resposta) r rs w :
  atender h (r :: rs) w =
  (fst (h r w) :: fst (atender h rs (snd (h r w))),
   snd (atender h rs (snd (h r w)))).
Proof.
  cbn [atender]. destruct (h r w) as [a w1]. cbn [fst snd].
  destruct (atender h rs w1) as [l w2]. reflexivity.
Qed.

End Escritas.
(** * The file lock never blocks for good *)

Lemma falta_total_insert l : forall i p p',
  l !! i = Some p ->
  (falta_total (<[i := p']> l) + falta p = falta_total l + falta p')%nat.
Proof.
  induction l as [|q l IH]; intros [|i] p p' H; try discriminate.
  - injection H as ->. unfold falta_total.
    change (<[0%nat := p']> (p :: l)) with (p' :: l).
    cbn [List.map list_sum fold_right]. lia.
  - change ((q :: l) !! S i) with (l !! i) in H. specialize (IH i p p' H).
    unfold falta_total in *.
    change (<[S i := p']> (q :: l)) with (q :: <[i := p']> l).
    cbn [List.map list_sum fold_right]. unfold list_sum in IH. lia.
Qed.

Lemma falta_total_existe l :
  (1 <= falta_total l)%nat ->
  exists i p, l !! i = Some p /\ Trava.terminou p = false.
Proof.
  induction l as [|q l IH]; unfold falta_total in *;
    cbn [List.map list_sum fold_right]; [lia|].
  destruct (Trava.terminou q) eqn:E.
  - intros H. assert (Hq : falta q = 0%nat) by (destruct q; try discriminate; reflexivity).
    rewrite Hq in H. destruct (IH H) as (i & p & Hi & Hp).
    exists (S i), p. auto.
  - intros _. exists 0%nat, q. auto.
Qed.

Lemma falta_total_zero l :
  falta_total l = 0%nat ->
  forall i p, l !! i = Some p -> Trava.terminou p = true.
Proof.
  intros H i p Hi. destruct (Trava.terminou p) eqn:E; [reflexivity|].
  pose proof (falta_total_insert l i p Trava.Retornou Hi) as F.
  cbn [falta] in F. destruct p; try discriminate; cbn [falta] in F; lia.
Qed.

(** A call that is inside the block, or that waits while the lock is
    free, can take its normal step, which leaves one step less to take. *)
Lemma passo_normal s i p :
  Trava.corrotinas s !! i = Some p -> Trava.terminou p = false ->
  Trava.dentro p = true \/ Trava.locked s = false ->
  exists d s',
    segue_normal p = Some d /\ d <> Trava.Levanta /\
    Trava.passo (Trava.Retomar i d) s = Some s' /\
    (falta_total (Trava.corrotinas s') + 1 =
     falta_total (Trava.corrotinas s))%nat /\
    length (Trava.corrotinas s') = length (Trava.corrotinas s).
Proof.
  intros Hi Ht Hd. cbn [Trava.passo]. rewrite Hi.
  destruct p; try discriminate Ht;
    (destruct Hd as [Hd|Hd]; [try discriminate Hd|]);
    try rewrite Hd; cbn [Trava.retomar segue_normal];
    eexists _, _; (split; [reflexivity|]); (split; [discriminate|]);
    (split; [reflexivity|]); cbn [Trava.corrotinas];
    rewrite length_insert;
    (split; [|reflexivity]);
    match goal with
    | |- context [<[i := ?q]> _] =>
        pose proof (falta_total_insert (Trava.corrotinas s) i _ q Hi) as F
    end; cbn [falta] in F; lia.
Qed.

Lemma termina_de n : forall s,
  trava_coerente s -> falta_total (Trava.corrotinas s) = n ->
  exists es' s',
    Forall retomada_normal es' /\
    Trava.executar es' s = Some s' /\
    falta_total (Trava.corrotinas s') = 0%nat /\
    trava_coerente s' /\
    length (Trava.corrotinas s') = length (Trava.corrotinas s).
Proof.
  induction n as [|n IH]; intros s Hc Hn.
  - exists [], s. repeat split; auto.
  - destruct (falta_total_existe (Trava.corrotinas s) ltac:(lia))
      as (j & q & Hj & Hq).
    assert (Hx : exists i p, Trava.corrotinas s !! i = Some p /\
                   Trava.terminou p = false /\
                   (Trava.dentro p = true \/ Trava.locked s = false)).
    { destruct (Trava.locked s) eqn:Hl.
      - unfold trava_coerente in Hc. rewrite Hl in Hc.
        destruct (quantos_dentro_existe (Trava.corrotinas s) ltac:(lia))
          as (i & p & Hi & Hp).
        exists i, p. split; [exact Hi|]. split; [|left; exact Hp].
        destruct p; try discriminate Hp; reflexivity.
      - exists j, q. auto. }
    destruct Hx as (i & p & Hi & Hp & Hd).
    destruct (passo_normal s i p Hi Hp Hd) as (d & s1 & _ & Hnl & E & Hf & Hlen).
    destruct (IH s1 (passo_coerente _ _ _ Hc E) ltac:(lia))
      as (es' & s' & Hes & Ex & Hz & Hc' & Hlen').
    exists (Trava.Retomar i d :: es'), s'.
    split; [constructor; [exact Hnl | exact Hes]|].
    split; [cbn [Trava.executar]; rewrite E; exact Ex|].
    split; [exact Hz|]. split; [exact Hc' | congruence].
Qed.

(** Property X14.  The lock never blocks the file for good: from every
    state that interleaving calls of [_ler_todas_as_tarefas] and
    [_gravar_todas_as_tarefas] reaches, the calls made so far can all be
    resumed, each by its normal steps and none by an exception, until
    every one of them has left its function, and the lock is then free. *)
Theorem pending_calls_can_finish (es : list Trava.Evento) (s : Trava.Estado) :
  Trava.executar es Trava.inicial = Some s ->
  exists es' s',
    Forall retomada_normal es' /\
    Trava.executar es' s = Some s' /\
    (forall i p, Trava.corrotinas s' !! i = Some p ->
                 Trava.terminou p = true) /\
    Trava.locked s' = false /\
    length (Trava.corrotinas s') = length (Trava.corrotinas s).
Proof.
  intros H.
  assert (Hc : trava_coerente s)
    by (apply (executar_coerente es Trava.inicial s); [reflexivity | exact H]).
  destruct (termina_de _ s Hc eq_refl) as (es' & s' & Hes & Ex & Hz & Hc' & Hl).
  exists es', s'. split; [exact Hes|]. split; [exact Ex|].
  split; [apply falta_total_zero, Hz|]. split; [|exact Hl].
  unfold trava_coerente in Hc'.
  destruct (Trava.locked s'); [|reflexivity].
  destruct (quantos_dentro_existe (Trava.corrotinas s') ltac:(lia))
    as (i & p & Hi & Hp).
  pose proof (falta_total_zero _ Hz i p Hi) as Ht.
  destruct p; discriminate.
Qed.
(** * [json.dumps] with [ensure_ascii=True], and any layout *)

Lemma hex4_escape_u n r :
  n < 65536 -> exists h1 h2 h3 h4,
    escape_u n ++ r = 92 :: 117 :: h1 :: h2 :: h3 :: h4 :: r /\
    hex4 h1 h2 h3 h4 = Some n.
Proof.
  intros H. eexists _, _, _, _. split; [reflexivity|]. apply hex4_escape, H.
Qed.

(** A surrogate pair is read back as the character it stands for. *)
Lemma scanstring_par hi lo r :
  high_surrogate hi = true -> low_surrogate lo = true ->
  scanstring (escape_u hi ++ escape_u lo ++ r) =
  cons_fst (join_surrogates hi lo) (scanstring r).
Proof.
  intros Hh Hl.
  assert (Hhi : hi < 65536)
    by (unfold high_surrogate in Hh; apply andb_true_iff in Hh;
        destruct Hh as (_ & Hh); apply N.leb_le in Hh; lia).
  assert (Hlo : lo < 65536)
    by (unfold low_surrogate in Hl; apply andb_true_iff in Hl;
        destruct Hl as (_ & Hl); apply N.leb_le in Hl; lia).
  destruct (hex4_escape_u lo r Hlo) as (g1 & g2 & g3 & g4 & -> & Eg).
  destruct (hex4_escape_u hi (92 :: 117 :: g1 :: g2 :: g3 :: g4 :: r) Hhi)
    as (h1 & h2 & h3 & h4 & -> & Eh).
  cbn [scanstring N.eqb Pos.eqb]. rewrite Eh, Hh. cbn [andb].
  rewrite Eg, Hl. reflexivity.
Qed.

Lemma scanstring_escape_char_ascii c r :
  escalar c = true ->
  scanstring (escape_char true c ++ r) = cons_fst c (scanstring r).
Proof.
  intros He. unfold escalar, surrogate in He.
  apply andb_true_iff in He. destruct He as (Hc & Hs).
  apply N.ltb_lt in Hc. apply negb_true_iff in Hs.
  unfold escape_char, escape_curto.
  destruct (N.eqb_spec c 34) as [->|H34]; [reflexivity|].
  destruct (N.eqb_spec c 92) as [->|H92]; [reflexivity|].
  destruct (N.eqb_spec c 10) as [->|H10]; [reflexivity|].
  destruct (N.eqb_spec c 13) as [->|H13]; [reflexivity|].
  destruct (N.eqb_spec c 9) as [->|H9]; [reflexivity|].
  destruct (N.eqb_spec c 12) as [->|H12]; [reflexivity|].
  destruct (N.eqb_spec c 8) as [->|H8]; [reflexivity|].
  destruct (N.ltb_spec c 32) as [Hlt|Hge].
  - unfold escape_u. cbn [app]. apply scanstring_u.
    + apply hex4_escape. lia.
    + unfold high_surrogate. destruct (N.leb_spec 55296 c); [lia | reflexivity].
  - cbn [negb]. destruct (N.ltb_spec c 127) as [H127|H127].
    + cbn [app]. apply scanstring_cru; assumption.
    + destruct (N.ltb_spec c 65536) as [Hb|Hb].
      * unfold escape_u. cbn [app]. apply scanstring_u.
        -- apply hex4_escape. exact Hb.
        -- unfold high_surrogate.
           destruct (N.leb_spec 55296 c); [|reflexivity].
           destruct (N.leb_spec c 56319); [|reflexivity].
           exfalso. cbn [andb] in Hs. apply N.leb_gt in Hs. lia.
      * rewrite <- app_assoc.
        assert (Hq : (c - 65536) / 1024 < 1024)
          by (apply N.Div0.div_lt_upper_bound; lia).
        assert (Hm : (c - 65536) mod 1024 < 1024)
          by (apply N.mod_lt; discriminate).
        rewrite (N.mod_small _ _ Hq).
        pose proof (N.div_mod (c - 65536) 1024 ltac:(discriminate)) as E.
        revert E Hq Hm. generalize ((c - 65536) / 1024) as q.
        generalize ((c - 65536) mod 1024) as m. intros m q E Hq Hm.
        clear Hs. rewrite scanstring_par.
        -- f_equal. unfold join_surrogates. lia.
        -- unfold high_surrogate. apply andb_true_iff.
           split; apply N.leb_le; lia.
        -- unfold low_surrogate. apply andb_true_iff.
           split; apply N.leb_le; lia.
Qed.

Lemma scanstring_escape_em ea s rest :
  legivel ea s ->
  scanstring (flat_map (escape_char ea) s ++ 34 :: rest) = Some (s, rest).
Proof.
  destruct ea; [|intros _; apply scanstring_escape].
  intros H. specialize (H eq_refl).
  induction s as [|c s IH]; [reflexivity|].
  cbn [forallb] in H. apply andb_true_iff in H. destruct H as (Hc & Hs).
  cbn [flat_map]. rewrite <- app_assoc, scanstring_escape_char_ascii by exact Hc.
  rewrite (IH Hs). reflexivity.
Qed.

Lemma scan_once_str_em ea n s rest :
  legivel ea s ->
  scan_once (S n) (encode_basestring ea s ++ rest) = Some (JStr s, rest).
Proof.
  intros H. unfold encode_basestring. cbn [app scan_once N.eqb Pos.eqb].
  rewrite <- app_assoc. cbn [app]. rewrite scanstring_escape_em by exact H.
  reflexivity.
Qed.

Section Qualquer_formato.
Variable indent : option nat.
Variable ea : bool.

Abbreviation enc := (iterencode indent ea).
Abbreviation nl := (newline_indent indent).
Abbreviation sep := (separator indent).
Abbreviation bom := (strings_em (legivel ea)).

Lemma iterencode_cabeca_em v nivel :
  bem_formado v ->
  exists c t, enc nivel v = c :: t /\ eh_ws c = false /\ c <> 93.
Proof.
  intros H. destruct H as [|[]| z |s|xs _|ps _ _];
    try (eexists _, _; split; [reflexivity | split; [reflexivity | discriminate]]).
  - destruct (iterencode_cabeca indent (JInt z) nivel (bf_int z))
      as (c & t & E & Hc).
    exists c, t. split; [exact E | exact Hc].
  - destruct xs;
      (eexists _, _; split; [reflexivity | split; [reflexivity | discriminate]]).
  - destruct ps as [|[k x] ps];
      (eexists _, _; split; [reflexivity | split; [reflexivity | discriminate]]).
Qed.

Lemma skip_ws_iterencode_em v nivel s :
  bem_formado v -> skip_ws (enc nivel v ++ s) = enc nivel v ++ s.
Proof.
  intros H. destruct (iterencode_cabeca_em v nivel H) as (c & t & E & Hw & _).
  rewrite E. cbn [app]. apply skip_ws_id, Hw.
Qed.

Lemma JSONArray_itens_em n0 :
  (forall m, (m < n0)%nat -> relido_em indent ea m) ->
  forall xs x n nivel rest,
    (n <= n0)%nat ->
    Forall bem_formado (x :: xs) -> Forall bom (x :: xs) ->
    (list_sum (List.map (fun y => S (tamanho y)) (x :: xs)) <= n)%nat ->
    JSONArray n
      (enc (S nivel) x ++
       flat_map (fun y => sep (S nivel) ++ enc (S nivel) y) xs ++
       nl nivel ++ 93 :: rest) = Some (x :: xs, rest).
Proof.
  intros IH xs.
  induction xs as [|y xs IHxs]; intros x n nivel rest Hn Hbf Hst Hs;
    destruct n as [|n']; cbn [List.map list_sum fold_right] in Hs; try lia;
    inversion Hbf as [|? ? Hx Hxs]; inversion Hst as [|? ? Sx Sxs]; subst;
    cbn [JSONArray flat_map app].
  - rewrite (IH n'); [|lia|exact Hx|exact Sx|lia|apply fim_numero_nl; auto].
    rewrite skip_ws_newline_indent. reflexivity.
  - rewrite <- !app_assoc.
    rewrite (IH n'); [|lia|exact Hx|exact Sx|lia|apply fim_numero_sep].
    destruct (skip_ws_sep indent (S nivel)
                (enc (S nivel) y ++
                 flat_map (fun y0 => sep (S nivel) ++ enc (S nivel) y0) xs ++
                 nl nivel ++ 93 :: rest)) as (r & -> & Hr).
    cbn [skip_ws eh_ws N.eqb Pos.eqb orb]. rewrite Hr.
    rewrite skip_ws_iterencode_em by (inversion Hxs; assumption).
    rewrite IHxs; [reflexivity|lia|exact Hxs|exact Sxs|].
    cbn [List.map list_sum fold_right]. lia.
Qed.

Lemma JSONObject_pares_em n0 :
  (forall m, (m < n0)%nat -> relido_em indent ea m) ->
  forall ps k x n nivel rest,
    (n <= n0)%nat ->
    Forall (fun kv => bem_formado (snd kv)) ((k, x) :: ps) ->
    Forall (fun kv => legivel ea (fst kv) /\ bom (snd kv)) ((k, x) :: ps) ->
    (list_sum (List.map (fun kv => S (tamanho (snd kv))) ((k, x) :: ps)) <= n)%nat ->
    JSONObject n
      (encode_basestring ea k ++ [58; 32] ++ enc (S nivel) x ++
       flat_map (fun kv => let '(k', y) := kv in
                  sep (S nivel) ++ encode_basestring ea k' ++ [58; 32] ++
                  enc (S nivel) y) ps ++
       nl nivel ++ 125 :: rest) = Some ((k, x) :: ps, rest).
Proof.
  intros IH ps.
  induction ps as [|[k' y] ps IHps]; intros k x n nivel rest Hn Hbf Hst Hs;
    destruct n as [|n']; cbn [List.map list_sum fold_right snd] in Hs; try lia;
    inversion Hbf as [|? ? Hx Hxs]; inversion Hst as [|? ? [Sk Sx] Sxs]; subst;
    cbn [snd fst] in Hx, Sk, Sx;
    unfold encode_basestring at 1;
    cbn [JSONObject flat_map app N.eqb Pos.eqb];
    rewrite <- !app_assoc; cbn [app];
    rewrite (scanstring_escape_em ea k _ Sk);
    cbn [skip_ws eh_ws N.eqb Pos.eqb orb];
    rewrite skip_ws_iterencode_em by exact Hx.
  - rewrite (IH n'); [|lia|exact Hx|exact Sx|lia|apply fim_numero_nl; auto].
    rewrite skip_ws_newline_indent. reflexivity.
  - rewrite (IH n'); [|lia|exact Hx|exact Sx|lia|apply fim_numero_sep].
    match goal with
    | |- context [skip_ws (sep ?n ++ ?t)] =>
        destruct (skip_ws_sep indent n t) as (r & -> & Hr)
    end.
    cbn [skip_ws eh_ws N.eqb Pos.eqb orb]. rewrite Hr.
    rewrite skip_ws_basestring.
    match goal with
    | |- context [JSONObject n' ?t] =>
        assert (E : JSONObject n' t = Some ((k', y) :: ps, rest))
    end.
    { apply (IHps k' y n' nivel rest); [lia|exact Hxs|exact Sxs|].
      cbn [List.map list_sum fold_right snd]. lia. }
    rewrite E. reflexivity.
Qed.

Lemma relido_sempre_em n : relido_em indent ea n.
Proof.
  induction n as [n IH] using (well_founded_induction lt_wf).
  intros v Hbf Hst Hn nivel rest Hf.
  destruct n as [|n']; [destruct v; simpl in Hn; lia|].
  destruct Hbf as [|[]|z|s|xs Hxs|ps Hnd Hps].
  - reflexivity.
  - reflexivity.
  - reflexivity.
  - apply scan_once_int, Hf.
  - apply scan_once_str_em. inversion Hst; assumption.
  - destruct xs as [|x xs]; [reflexivity|].
    cbn [iterencode app scan_once N.eqb Pos.eqb].
    rewrite <- !app_assoc. rewrite skip_ws_newline_indent.
    inversion Hxs as [|? ? Hx Hxs']; subst.
    assert (Sxs : Forall bom (x :: xs)) by (inversion Hst; assumption).
    destruct (iterencode_cabeca_em x (S nivel) Hx) as (c & t & E & Hw & H93).
    rewrite skip_ws_iterencode_em by exact Hx.
    pose proof (JSONArray_itens_em (S n') IH xs x n' nivel rest) as HA.
    cbn [app] in HA. rewrite E in HA |- *. cbn [app] in HA |- *.
    destruct (N.eqb_spec c 93); [contradiction|].
    assert (HA' := HA ltac:(lia) Hxs Sxs ltac:(cbn [tamanho] in Hn; lia)).
    match goal with
    | |- context [JSONArray n' ?u] =>
        assert (E2 : JSONArray n' u = Some (x :: xs, rest)) by exact HA'
    end.
    rewrite E2. reflexivity.
  - destruct ps as [|[k x] ps]; [reflexivity|].
    cbn [iterencode app scan_once N.eqb Pos.eqb].
    repeat (rewrite <- app_assoc; cbn [app]).
    rewrite skip_ws_newline_indent, skip_ws_basestring.
    assert (Sps : Forall (fun kv => legivel ea (fst kv) /\ bom (snd kv))
                    ((k, x) :: ps)) by (inversion Hst; assumption).
    pose proof (JSONObject_pares_em (S n') IH ps k x n' nivel rest) as HO.
    unfold encode_basestring at 1 in HO. unfold encode_basestring at 1.
    cbn [app N.eqb Pos.eqb] in HO |- *.
    assert (HO' := HO ltac:(lia) Hps Sps ltac:(cbn [tamanho] in Hn; lia)).
    match goal with
    | |- context [JSONObject n' ?u] =>
        assert (E2 : JSONObject n' u = Some ((k, x) :: ps, rest)) by exact HO'
    end.
    rewrite E2, dict_de_pares_id by exact Hnd. reflexivity.
Qed.
End Qualquer_formato.

Lemma skip_ws_brancos ws r :
  forallb eh_ws ws = true -> skip_ws (ws ++ r) = skip_ws r.
Proof.
  induction ws as [|c ws IH]; [reflexivity|]. cbn [forallb app skip_ws].
  intros H. apply andb_true_iff in H. destruct H as (-> & H). apply IH, H.
Qed.

Lemma fim_numero_brancos ws : forallb eh_ws ws = true -> fim_numero ws = true.
Proof.
  destruct ws as [|c ws]; [reflexivity|]. cbn [forallb fim_numero].
  intros H. apply andb_true_iff in H. destruct H as (H & _).
  unfold eh_ws in H. rewrite !orb_true_iff, !N.eqb_eq in H.
  destruct H as [[[-> | ->] | ->] | ->]; reflexivity.
Qed.

(** What [json.dumps] writes in any layout, [json.loads] reads back, also
    between blank characters. *)
Lemma json_loads_dumps_em indent ea v antes depois :
  bem_formado v -> strings_em (legivel ea) v ->
  forallb eh_ws antes = true -> forallb eh_ws depois = true ->
  json_loads (antes ++ json_dumps indent ea v ++ depois) = Some v.
Proof.
  intros Hbf Hst Ha Hd. unfold json_loads, json_dumps.
  set (s := antes ++ iterencode indent ea 0 v ++ depois).
  rewrite <- (json_loads_allowance s (S (length s) + tamanho v)) by lia.
  unfold s at 2. rewrite (skip_ws_brancos antes _ Ha).
  rewrite (skip_ws_iterencode_em indent ea v 0%nat depois Hbf).
  rewrite (relido_sempre_em indent ea (S (length s) + tamanho v) v Hbf Hst
             ltac:(lia) 0%nat depois (fim_numero_brancos depois Hd)).
  pose proof (skip_ws_brancos depois [] Hd) as E. rewrite app_nil_r in E.
  rewrite E. reflexivity.
Qed.

Section Formatos.
Context `{amb : Ambiente}.

Lemma escalar_de s :
  str_unicode s = true -> codigos s = true -> forallb escalar s = true.
Proof.
  unfold str_unicode, codigos, escalar.
  induction s as [|c s IH]; [reflexivity|]. cbn [forallb].
  rewrite !andb_true_iff. intros (H1 & H2) (H3 & H4). auto.
Qed.

Lemma legivel_dump ea ts :
  Forall Tarefa.valida ts ->
  (ea = true -> Forall tarefa_unicode ts) ->
  strings_em (legivel ea)
    (JArr (List.map (fun t => JObj (Tarefa.model_dump t)) ts)).
Proof.
  intros Hv Hu. constructor.
  induction ts as [|t ts IH]; constructor.
  - inversion Hv as [|? ? (V1 & _ & V3) _]; subst.
    assert (Ut : ea = true -> tarefa_unicode t)
      by (intros E; specialize (Hu E); inversion Hu; assumption).
    constructor. unfold Tarefa.model_dump.
    repeat constructor; cbn [fst snd]; try (intros _; reflexivity).
    + intros E. destruct (Ut E) as (U1 & _). apply escalar_de; assumption.
    + destruct (Tarefa.descricao t) as [d|] eqn:Ed; constructor.
      intros E. destruct (Ut E) as (_ & U2). rewrite Ed in U2.
      destruct V3 as (V3 & _). apply escalar_de; assumption.
  - apply IH; [inversion Hv; assumption|].
    intros E. specialize (Hu E). inversion Hu; assumption.
Qed.

Lemma tarefas_de_texto_em indent ea ts antes depois :
  Forall Tarefa.valida ts ->
  (ea = true -> Forall tarefa_unicode ts) ->
  forallb eh_ws antes = true -> forallb eh_ws depois = true ->
  tarefas_de_texto
    (antes ++
     json_dumps indent ea
       (JArr (List.map (fun t => JObj (Tarefa.model_dump t)) ts)) ++
     depois) = Ok ts.
Proof.
  intros Hv Hu Ha Hd. unfold tarefas_de_texto.
  rewrite json_loads_dumps_em;
    [|apply bem_formado_dump | apply legivel_dump; assumption
     |exact Ha|exact Hd].
  cbn [iterar]. apply compreensao_dump, Hv.
Qed.

Lemma tarefas_de_texto_cache ts :
  Forall Tarefa.valida ts -> Forall tarefa_unicode ts ->
  tarefas_de_texto (texto_cache ts) = Ok ts.
Proof.
  intros Hv Hu.
  pose proof (tarefas_de_texto_em None true ts [] [] Hv (fun _ => Hu)
                eq_refl eq_refl) as H.
  cbn [app] in H. rewrite app_nil_r in H. exact H.
Qed.

(** Property X15.  What [_ler_todas_as_tarefas] reads does not depend on
    the layout of the file: the dump of a list of valid tasks is read as
    that list whether it was written compact or with any indentation,
    with the characters kept or, provided the strings hold code points of
    Unicode, escaped to ASCII, and with any spaces, tabs and line ends
    before and after it. *)
Theorem load_any_layout (indent : option nat) (ensure_ascii : bool)
    (ts : list Tarefa.t) (antes depois : list N) (w : Mundo) :
  Forall Tarefa.valida ts ->
  (ensure_ascii = true -> Forall tarefa_unicode ts) ->
  forallb eh_ws antes = true -> forallb eh_ws depois = true ->
  arquivo w =
    Some (antes ++
          json_dumps indent ensure_ascii
            (JArr (List.map (fun t => JObj (Tarefa.model_dump t)) ts)) ++
          depois) ->
  _ler_todas_as_tarefas w = (Ok ts, w).
Proof.
  intros Hv Hu Hantes Hdepois Ha. unfold _ler_todas_as_tarefas. rewrite Ha.
  pose proof (tarefas_de_texto_em indent ensure_ascii ts antes depois Hv Hu
                Hantes Hdepois) as Ht.
  set (e := json_dumps indent ensure_ascii
              (JArr (List.map (fun t => JObj (Tarefa.model_dump t)) ts))) in *.
  assert (He : exists r, e = 91 :: r)
    by (unfold e, json_dumps; destruct ts; eexists; reflexivity).
  destruct He as (r & He).
  assert (Hs : forallb isspace (antes ++ e ++ depois) = false).
  { rewrite forallb_app, He. cbn [app forallb].
    apply andb_false_iff. right. reflexivity. }
  destruct (strip_presente _ Hs) as (a & s & Es).
  rewrite Es, Ht. reflexivity.
Qed.
End Formatos.
(** * The cache while the server answers *)

Section CacheNoAr.
Context `{amb : Ambiente}.

Lemma texto_cache_cabeca ts : exists r, texto_cache ts = 91 :: r.
Proof. destruct ts; eexists; reflexivity. Qed.

(** What a list request finds once the dump of [ts] is the entry. *)
Lemma lido_texto_cache w ts :
  no_ar (servidor w) = true ->
  dados (servidor w) = Some (texto_cache ts) ->
  Forall Tarefa.valida ts -> Forall tarefa_unicode ts ->
  lido_do_cache w = Some ts.
Proof.
  intros Hn Hd Hv Hu. unfold lido_do_cache. rewrite Hn, Hd.
  destruct (texto_cache_cabeca ts) as (r & E).
  pose proof (tarefas_de_texto_cache ts Hv Hu) as Ht.
  rewrite E in Ht |- *. rewrite Ht. reflexivity.
Qed.


(** Property X16.  Asking for the list twice in a row gives the same
    answer twice, whether the first answer came from the cache or from
    the file, whether or not the server answers, and also when the answer
    is the exception of the read. *)
Theorem list_twice_same (w : Mundo) :
  arquivo_unicode w ->
  fst (listar_tarefas (snd (listar_tarefas w))) = fst (listar_tarefas w).
Proof.
  intros Hu.
  destruct (listar_casos w) as (w1 & E1 & Hf1 & Hn1 & _ & Hd1 & _).
  rewrite E1. cbn [fst snd].
  destruct (listar_casos w1) as (w2 & E2 & _). rewrite E2. cbn [fst].
  rewrite (ler_so_arquivo w1 w Hf1).
  destruct (lido_do_cache w) as [ts|] eqn:Hl.
  - assert (H1 : lido_do_cache w1 = Some ts).
    { unfold lido_do_cache in *. rewrite Hn1, Hd1. exact Hl. }
    rewrite H1. reflexivity.
  - destruct (fst (_ler_todas_as_tarefas w)) as [ts|e] eqn:Hr.
    + destruct (no_ar (servidor w) && (0 <? TTL_CACHE_SEGUNDOS)%Z) eqn:Hc.
      * apply andb_true_iff in Hc. destruct Hc as (Hn & _).
        rewrite (lido_texto_cache w1 ts); [reflexivity| | exact Hd1 | |].
        -- rewrite Hn1. exact Hn.
        -- exact (ler_valida w ts Hr).
        -- exact (Hu ts Hr).
      * assert (H1 : lido_do_cache w1 = None).
        { unfold lido_do_cache in *. rewrite Hn1, Hd1. exact Hl. }
        rewrite H1. reflexivity.
    + assert (H1 : lido_do_cache w1 = None).
      { unfold lido_do_cache in *. rewrite Hn1, Hd1. exact Hl. }
      rewrite H1. reflexivity.
Qed.


(** ** Any sequence of requests while the server answers *)

(** The strings of a task that the constructor built are those of its
    keyword arguments. *)
Lemma init_strings d x :
  Tarefa.init d = Ok x ->
  dict_get d (lit "titulo") = Some (JStr (Tarefa.titulo x)) /\
  match Tarefa.descricao x with
  | Some s => dict_get d (lit "descricao") = Some (JStr s)
  | None => True
  end.
Proof.
  unfold Tarefa.init.
  destruct (campo d "titulo" None (valida_str 1 200)) as [a|] eqn:Ea;
    [|discriminate].
  destruct (campo d "descricao" (Some None)
              (valida_opcional (valida_str 0 2000))) as [b|] eqn:Eb;
    [|discriminate].
  destruct (campo d "concluida" (Some false) valida_bool) as [c|];
    [|discriminate].
  destruct (campo d "id" None valida_int) as [i|]; [|discriminate].
  intros H; injection H as <-. cbn [Tarefa.titulo Tarefa.descricao].
  unfold campo in Ea, Eb. split.
  - destruct (dict_get d (lit "titulo")) as [v|]; [|discriminate].
    apply valida_str_some in Ea. destruct Ea as (-> & _). reflexivity.
  - destruct b as [s|]; [|exact I].
    destruct (dict_get d (lit "descricao")) as [v|]; [|discriminate].
    unfold valida_opcional in Eb. destruct v; try discriminate.
    destruct (valida_str 0 2000 (JStr s0)) as [s'|] eqn:E; [|discriminate].
    injection Eb as ->. apply valida_str_some in E.
    destruct E as (E & _). injection E as ->. reflexivity.
Qed.

Lemma criar_puro_unicode p ts t ts' :
  criar_puro p ts = Ok (t, ts') ->
  requisicao_unicode (POST_tasks p) ->
  Forall tarefa_unicode ts -> Forall tarefa_unicode ts'.
Proof.
  unfold criar_puro.
  match goal with
  | |- context [Tarefa.init ?d] => destruct (Tarefa.init d) as [x|] eqn:Hi
  end; [|discriminate].
  intros H (U1 & U2) Hu; injection H as <- <-.
  apply Forall_app. split; [exact Hu|]. constructor; [|constructor].
  destruct (init_strings _ _ Hi) as (S1 & S2).
  change (dict_get _ (lit "titulo"))
    with (Some (JStr (TarefaCriar.titulo p))) in S1.
  injection S1 as S1. split; [rewrite <- S1; exact U1|].
  destruct (Tarefa.descricao x) as [s|]; [|exact I].
  change (dict_get _ (lit "descricao"))
    with (Some (TarefaAtualizar.json_de_str (TarefaCriar.descricao p))) in S2.
  destruct (TarefaCriar.descricao p) as [s'|]; [|discriminate].
  injection S2 as <-. exact U2.
Qed.

Lemma editar_puro_unicode task_id p ts t ts' :
  editar_puro task_id p ts = Ok (t, ts') ->
  requisicao_unicode (PUT_tasks task_id p) ->
  Forall tarefa_unicode ts -> Forall tarefa_unicode ts'.
Proof.
  unfold editar_puro.
  destruct (posicao task_id ts) as [[idx t0]|] eqn:Hp; [|discriminate].
  match goal with
  | |- context [Tarefa.init ?d] => destruct (Tarefa.init d) as [x|] eqn:Hi
  end; [|discriminate].
  intros H (U1 & U2) Hu; injection H as <- <-.
  destruct (posicao_some task_id ts idx t0 Hp) as (Hl & _).
  assert (Ht0 : tarefa_unicode t0).
  { rewrite Forall_forall in Hu. apply Hu. eapply list_elem_of_lookup_2, Hl. }
  apply Forall_insert; [exact Hu|].
  destruct (init_strings _ _ Hi) as (S1 & S2).
  rewrite copia_titulo in S1. destruct Ht0 as (T1 & T2). split.
  - destruct (TarefaAtualizar.titulo p) as [[s|]|]; try discriminate;
      injection S1 as <-; assumption.
  - destruct (Tarefa.descricao x) as [s|]; [|exact I].
    rewrite copia_descricao in S2.
    destruct (TarefaAtualizar.descricao p) as [[s'|]|]; try discriminate.
    + injection S2 as <-. exact U2.
    + destruct (Tarefa.descricao t0); [|discriminate].
      injection S2 as <-. exact T2.
Qed.

(** The Store alone answers a request on the task list as the service
    does when its server is down. *)
Lemma so_store_como_fora r v :
  r <> GET_health ->
  fst (rota_so_store r v) =
    fst (rota r (com_servidor {| no_ar := false; dados := None |} v)) /\
  arquivo (snd (rota_so_store r v)) =
    arquivo (snd (rota r (com_servidor {| no_ar := false; dados := None |} v))).
Proof.
  intros Hr.
  destruct (rota_tarefas_corresponde (cliente_redis v) r
              (com_servidor {| no_ar := false; dados := None |} v) v Hr)
    as (H1 & H2 & _).
  - repeat split.
  - split; [symmetry; exact H1 | symmetry; exact H2].
Qed.

Lemma servido_mesmo w w' :
  arquivo w' = arquivo w ->
  no_ar (servidor w') = no_ar (servidor w) ->
  dados (servidor w') = dados (servidor w) ->
  servido_com_cache w -> servido_com_cache w'.
Proof.
  intros Hf Hn Hd (I1 & I2 & I3).
  assert (Hl : lido_do_cache w' = lido_do_cache w)
    by (unfold lido_do_cache; rewrite Hn, Hd; reflexivity).
  split; [congruence|]. split.
  - intros ts H. rewrite (ler_so_arquivo w' w Hf). apply I2. congruence.
  - intros ts H. apply I3. rewrite <- (ler_so_arquivo w' w Hf). exact H.
Qed.

(** After a write that succeeded. *)
Lemma servido_apos_escrita t ts' w w' :
  no_ar (servidor w) = true ->
  Forall Tarefa.valida ts' -> Forall tarefa_unicode ts' ->
  apos_escrita (Ok (t, ts')) w w' -> servido_com_cache w'.
Proof.
  intros Hn Hv Hu Ha. pose proof (lido_apos_escrita _ _ _ Ha) as Hl.
  destruct Ha as (Hf & Hn' & _). split; [congruence|]. split.
  - intros ts H. congruence.
  - intros ts H. rewrite (ler_texto_de ts' w' Hv Hf) in H.
    injection H as <-. exact Hu.
Qed.

Lemma escrita_com_cache (r : Requisicao) puro m w v :
  r <> GET_health ->
  (forall u, exists u',
      m u = (resposta_escrita (resultado_escrita puro u), u') /\
      apos_escrita (resultado_escrita puro u) u u') ->
  (forall u, rota r u = mapear RTarefa m u) ->
  (forall ts t ts', puro ts = Ok (t, ts') ->
     Forall Tarefa.valida ts -> Forall tarefa_unicode ts ->
     Forall Tarefa.valida ts' /\ Forall tarefa_unicode ts') ->
  servido_com_cache w -> arquivo w = arquivo v ->
  sem_redis (fst (rota r w)) = fst (rota_so_store r v) /\
  arquivo (snd (rota r w)) = arquivo (snd (rota_so_store r v)) /\
  servido_com_cache (snd (rota r w)).
Proof.
  intros Hr Hm Hrota Hpuro Hi Ha.
  destruct (so_store_como_fora r v Hr) as (S1 & S2). rewrite S1, S2.
  set (v0 := com_servidor {| no_ar := false; dados := None |} v).
  rewrite !Hrota, !fst_mapear, !snd_mapear.
  destruct (Hm w) as (w' & E & A). destruct (Hm v0) as (v' & E' & A').
  rewrite E, E'. cbn [fst snd].
  assert (Hres : resultado_escrita puro v0 = resultado_escrita puro w)
    by (apply resultado_escrita_arquivo; symmetry; exact Ha).
  rewrite Hres in *.
  destruct (resultado_escrita puro w) as [[t ts']|e] eqn:Hp.
  - cbn [resposta_escrita sem_redis].
    split; [reflexivity|].
    destruct A as (Af & An & Ad). destruct A' as (Af' & _).
    split; [congruence|].
    unfold resultado_escrita in Hp.
    destruct (fst (_ler_todas_as_tarefas w)) as [ts|] eqn:Hl; [|discriminate].
    destruct Hi as (I1 & I2 & I3).
    destruct (Hpuro ts t ts' Hp (ler_valida w ts Hl) (I3 ts Hl)) as (Hv & Hu).
    apply (servido_apos_escrita t ts' w w' I1 Hv Hu).
    split; [exact Af | split; [exact An | exact Ad]].
  - cbn [resposta_escrita sem_redis]. split; [reflexivity|].
    destruct A as (Af & An & Ad). destruct A' as (Af' & _).
    split; [cbn in Af'; congruence|].
    apply (servido_mesmo w w' Af An Ad Hi).
Qed.

Lemma rota_com_cache r w v :
  servido_com_cache w -> requisicao_unicode r -> arquivo w = arquivo v ->
  sem_redis (fst (rota r w)) = fst (rota_so_store r v) /\
  arquivo (snd (rota r w)) = arquivo (snd (rota_so_store r v)) /\
  servido_com_cache (snd (rota r w)).
Proof.
  intros Hi Hu Ha. destruct r as [| |p|i p].
  - cbn [rota rota_so_store]. rewrite !fst_mapear, !snd_mapear.
    destruct (obter_redis_casos w) as (w' & E & Hf & Hs & _).
    unfold saude. rewrite (bind_ok _ _ _ _ _ E). cbn.
    split; [reflexivity|]. split; [congruence|].
    apply (servido_mesmo w w' Hf); [rewrite Hs; reflexivity ..| exact Hi].
  - cbn [rota rota_so_store]. rewrite !fst_mapear, !snd_mapear.
    destruct (listar_casos w) as (w' & E & Hf & Hn & _ & Hd & _).
    rewrite E. cbn [fst snd]. unfold listar_so_store.
    rewrite ler_nao_altera, <- (ler_so_arquivo w v Ha).
    destruct Hi as (I1 & I2 & I3).
    destruct (lido_do_cache w) as [ts|] eqn:Hl.
    + rewrite (I2 ts Hl). cbn [sem_redis].
      split; [reflexivity|]. split; [congruence|].
      apply (servido_mesmo w w' Hf Hn Hd).
      split; [exact I1|]. split; [|exact I3].
      intros ts' H. apply I2. congruence.
    + assert (Hsr : forall x : Resultado (list Tarefa.t),
                sem_redis match x with
                          | Ok a => Ok (RLista a)
                          | Erro e => Erro e
                          end =
                match x with Ok a => Ok (RLista a) | Erro e => Erro e end)
        by (intros [a|e]; reflexivity).
      rewrite Hsr. split; [reflexivity|]. split; [congruence|].
      assert (Hi : servido_com_cache w).
      { split; [exact I1|]. split; [|exact I3].
        intros ts' H. rewrite Hl in H. discriminate. }
      destruct (fst (_ler_todas_as_tarefas w)) as [ts|e] eqn:Hr;
        [|apply (servido_mesmo w w' Hf Hn Hd Hi)].
      rewrite I1 in Hd. cbn [andb] in Hd.
      destruct (0 <? TTL_CACHE_SEGUNDOS)%Z;
        [|apply (servido_mesmo w w' Hf Hn Hd Hi)].
      split; [congruence|]. split.
      * intros ts' H.
        rewrite (lido_texto_cache w' ts) in H;
          [| congruence | exact Hd | exact (ler_valida w ts Hr)
           | exact (I3 ts Hr)].
        injection H as <-. rewrite (ler_so_arquivo w' w Hf). exact Hr.
      * intros ts' H. apply I3. rewrite <- (ler_so_arquivo w' w Hf). exact H.
  - apply (escrita_com_cache (POST_tasks p) (criar_puro p) (adicionar_tarefa p));
      [discriminate | apply adicionar_casos | reflexivity | | exact Hi | exact Ha].
    intros ts t ts' Hp Hv Hun.
    destruct (criar_puro_ok p ts t ts' Hv Hp) as (_ & Hv' & _).
    split; [exact Hv' | exact (criar_puro_unicode p ts t ts' Hp Hu Hun)].
  - apply (escrita_com_cache (PUT_tasks i p) (editar_puro i p)
             (editar_tarefa i p));
      [discriminate | apply editar_casos | reflexivity | | exact Hi | exact Ha].
    intros ts t ts' Hp Hv Hun.
    destruct (editar_puro_ok i p ts t ts' Hv Hp) as (_ & _ & _ & _ & Hv' & _).
    split; [exact Hv' | exact (editar_puro_unicode i p ts t ts' Hp Hu Hun)].
Qed.

Lemma atender_com_cache rs : forall w v,
  servido_com_cache w -> Forall requisicao_unicode rs ->
  arquivo w = arquivo v ->
  List.map sem_redis (fst (atender rota rs w)) =
    fst (atender rota_so_store rs v) /\
  arquivo (snd (atender rota rs w)) =
    arquivo (snd (atender rota_so_store rs v)) /\
  servido_com_cache (snd (atender rota rs w)).
Proof.
  induction rs as [|r rs IH]; intros w v Hi Hu Ha.
  - cbn. auto.
  - inversion Hu as [|? ? Hr Hrs]; subst.
    destruct (rota_com_cache r w v Hi Hr Ha) as (H1 & H2 & H3).
    rewrite !atender_cons. cbn [fst snd List.map].
    destruct (IH _ _ H3 Hrs H2) as (J1 & J2 & J3).
    rewrite H1, J1. auto.
Qed.

Lemma saude_no_ar rs : forall w s,
  no_ar (servidor w) = true ->
  In (Ok (RSaude s)) (fst (atender rota rs w)) -> redis s = true.
Proof.
  induction rs as [|r rs IH]; intros w s Hn; [intros []|].
  rewrite atender_cons. cbn [fst]. intros [H|H].
  - destruct r as [| |p|i p]; cbn [rota] in H; rewrite fst_mapear in H.
    + destruct (obter_redis_casos w) as (w' & E & _).
      unfold saude in H. rewrite (bind_ok _ _ _ _ _ E) in H. cbn in H.
      injection H as <-. cbn. rewrite Hn.
      destruct (cliente_redis w); reflexivity.
    + destruct (fst (listar_tarefas w)); discriminate.
    + destruct (fst (adicionar_tarefa p w)); discriminate.
    + destruct (fst (editar_tarefa i p w)); discriminate.
  - apply (IH (snd (rota r w)) s); [|exact H].
    destruct r as [| |p|i p]; cbn [rota]; rewrite snd_mapear.
    + destruct (obter_redis_casos w) as (w' & E & _ & Hs & _).
      unfold saude. rewrite (bind_ok _ _ _ _ _ E). cbn. congruence.
    + destruct (listar_casos w) as (w' & E & _ & Hn' & _). rewrite E.
      cbn. congruence.
    + destruct (adicionar_casos p w) as (w' & E & _ & Hn' & _). rewrite E.
      cbn. congruence.
    + destruct (editar_casos i p w) as (w' & E & _ & Hn' & _). rewrite E.
      cbn. congruence.
Qed.

(** Property X18.  While the server answers throughout, the cache does
    not change what the service answers: from a state in which the cached
    list, if any, is the list of the file, the answers to any sequence of
    requests (health, list, create, update) are those that the Store
    alone gives, one by one, except that every health answer reports the
    cache as available, and the file ends the same.  A list request is
    served from the cache only when the cache holds what the file holds,
    because every write that succeeds removes the entry. *)
Theorem cache_up_store_only (rs : list Requisicao) (w : Mundo) :
  no_ar (servidor w) = true ->
  cache_coerente w ->
  arquivo_unicode w ->
  Forall requisicao_unicode rs ->
  List.map sem_redis (fst (atender rota rs w)) =
    fst (atender rota_so_store rs w) /\
  arquivo (snd (atender rota rs w)) =
    arquivo (snd (atender rota_so_store rs w)) /\
  (forall s, In (Ok (RSaude s)) (fst (atender rota rs w)) ->
             redis s = true) /\
  cache_coerente (snd (atender rota rs w)).
Proof.
  intros Hn Hc Hu Hr.
  destruct (atender_com_cache rs w w (conj Hn (conj Hc Hu)) Hr eq_refl)
    as (H1 & H2 & _ & H3 & _).
  split; [exact H1|]. split; [exact H2|]. split; [|exact H3].
  intros s. apply saude_no_ar, Hn.
Qed.
End CacheNoAr.
(** * The limits of the invalidation and of the lock *)

Section Limites.
Context `{amb : Ambiente}.

(** Property X19.  A write made while the server does not answer cannot
    remove the cached list: the failure of the invalidation is swallowed
    and the write succeeds.  When the server answers again with the entry
    still there, a list request returns the list from before the write,
    and not what the file holds. *)
Theorem stale_list_after_outage (r : Requisicao) (w : Mundo) (a : Resposta)
    (c : N) (s : list N) (ts0 : list Tarefa.t) :
  r <> GET_health -> r <> GET_tasks ->
  no_ar (servidor w) = false ->
  dados (servidor w) = Some (c :: s) ->
  tarefas_de_texto (c :: s) = Ok ts0 ->
  fst (rota r w) = Ok a ->
  exists t ts',
    a = RTarefa t /\
    fst (_ler_todas_as_tarefas (snd (rota r w))) = Ok ts' /\ In t ts' /\
    fst (listar_tarefas (servidor_de_volta (snd (rota r w)))) = Ok ts0.
Proof.
  intros H1 H2 Hn Hd Ht.
  assert (Hgen : forall puro m,
            (exists w', m w = (resposta_escrita (resultado_escrita puro w), w') /\
                        apos_escrita (resultado_escrita puro w) w w') ->
            (forall ts t ts', puro ts = Ok (t, ts') -> Forall Tarefa.valida ts ->
                              Forall Tarefa.valida ts' /\ In t ts') ->
            fst (mapear RTarefa m w) = Ok a ->
            exists t ts',
              a = RTarefa t /\
              fst (_ler_todas_as_tarefas (snd (mapear RTarefa m w))) = Ok ts' /\
              In t ts' /\
              fst (listar_tarefas
                     (servidor_de_volta (snd (mapear RTarefa m w)))) = Ok ts0).
  { intros puro m (w' & E & A) Hp. rewrite fst_mapear, snd_mapear, E.
    cbn [fst snd].
    destruct (resposta_escrita _) as [t|] eqn:Hr; [|discriminate].
    intros H; injection H as <-.
    destruct (resposta_escrita_ok _ _ Hr) as (ts' & Hres). rewrite Hres in A.
    unfold resultado_escrita in Hres.
    destruct (fst (_ler_todas_as_tarefas w)) as [ts|] eqn:Hl; [|discriminate].
    destruct (Hp ts t ts' Hres (ler_valida w ts Hl)) as (Hv & Hin).
    destruct A as (Af & An & Ad). rewrite Hn in Ad.
    exists t, ts'. split; [reflexivity|].
    split; [rewrite (ler_texto_de ts' w' Hv Af); reflexivity|].
    split; [exact Hin|].
    destruct (listar_casos (servidor_de_volta w')) as (w2 & E2 & _).
    rewrite E2. cbn [fst].
    assert (Hlido : lido_do_cache (servidor_de_volta w') = Some ts0).
    { unfold lido_do_cache, servidor_de_volta. cbn. rewrite Ad, Hd, Ht.
      reflexivity. }
    rewrite Hlido. reflexivity. }
  destruct r as [| |p|i p]; try contradiction; cbn [rota].
  - apply (Hgen (criar_puro p)); [apply adicionar_casos|].
    intros ts t ts' Hp Hv.
    destruct (criar_puro_ok p ts t ts' Hv Hp) as (_ & Hv' & Hin & _). auto.
  - apply (Hgen (editar_puro i p)); [apply editar_casos|].
    intros ts t ts' Hp Hv.
    destruct (editar_puro_ok i p ts t ts' Hv Hp) as (_ & _ & _ & _ & Hv' & Hin).
    auto.
Qed.

(** Property X20.  What the constructor accepts, it accepts again from
    the dump of the task it built, and gives the same task: validating a
    stored task again, as [editar_tarefa] does with the patched copy,
    never fails by itself and never changes a field. *)
Theorem constructor_accepts_its_dump (d : list (str * json)) (t : Tarefa.t) :
  Tarefa.init d = Ok t ->
  Tarefa.valida t /\ Tarefa.init (Tarefa.model_dump t) = Ok t.
Proof.
  intros H. pose proof (init_valida d t H) as Hv.
  split; [exact Hv | apply init_model_dump, Hv].
Qed.



(** [editar_tarefa] from the point where the list has been read. *)
Lemma editar_apos_ler_casos task_id p ts u :
  Forall Tarefa.valida ts ->
  exists u',
    editar_laco task_id p ts 0 ts u =
      (resposta_escrita (editar_puro task_id p ts), u') /\
    arquivo u' =
      match editar_puro task_id p ts with
      | Ok (_, ts') => Some (texto_de ts')
      | Erro _ => arquivo u
      end.
Proof.
  intros Hv. rewrite posicao_laco. unfold editar_puro.
  destruct (posicao task_id ts) as [[idx t]|] eqn:Hp.
  - destruct (posicao_some task_id ts idx t Hp) as (Hi & _).
    apply lookup_lt_Some in Hi. cbn [Nat.add].
    destruct (Tarefa.init _) as [nova|e] eqn:Hn.
    + rewrite (editar_corpo_ok p ts idx t u nova Hn Hi).
      destruct (invalidar_casos
                  (com_arquivo (Some (texto_de (<[idx := nova]> ts))) u))
        as (u' & E & Hf & _).
      rewrite E. exists u'. split; [reflexivity | exact Hf].
    + rewrite (editar_corpo_erro p ts idx t u e Hn).
      exists u. split; reflexivity.
  - exists u. split; reflexivity.
Qed.

(** Property X22.  Two updates that interleave lose the first: the lock
    is given back between the read and the write of a request, and when
    two updates both read an existing file before either writes and the
    second would succeed on its own, the second is answered as on its own
    and the file ends exactly as if it had been the only one, whatever the
    first one changed. *)
Theorem interleaved_updates_lose_first (i j : Z) (p q : TarefaAtualizar.t)
    (w wb : Mundo) (ts : list Tarefa.t) (b : Tarefa.t) :
  arquivo w <> None ->
  fst (_ler_todas_as_tarefas w) = Ok ts ->
  editar_tarefa j q w = (Ok b, wb) ->
  (forall k r, editar_tarefa k r =
               (tarefas <- _ler_todas_as_tarefas ;;
                editar_laco k r tarefas 0 tarefas)) /\
  exists a w3 w4,
    editar_laco i p ts 0 ts w = (a, w3) /\
    editar_laco j q ts 0 ts w3 = (Ok b, w4) /\
    arquivo w4 = arquivo wb.
Proof.
  intros _ Hl Hb. split; [reflexivity|].
  pose proof (ler_valida w ts Hl) as Hv.
  destruct (editar_apos_ler_casos i p ts w Hv) as (w3 & E3 & _).
  destruct (editar_apos_ler_casos j q ts w3 Hv) as (w4 & E4 & Hf4).
  destruct (editar_casos j q w) as (wb' & Eb & Ab & _).
  rewrite Hb in Eb. injection Eb as Er <-.
  unfold resultado_escrita in Er, Ab. rewrite Hl in Er, Ab.
  exists (resposta_escrita (editar_puro i p ts)), w3, w4.
  split; [exact E3|]. rewrite <- Er in E4. split; [exact E4|].
  rewrite Hf4, Ab.
  destruct (editar_puro j q ts) as [[? ?]|?]; [reflexivity | discriminate Er].
Qed.

(** Property X23.  A file that cannot be read blocks every request on the
    task list: when [_ler_todas_as_tarefas] raises, a create and an update
    raise the same exception and change nothing at all, whatever their
    payload, and a list request raises it too unless the cache still
    serves a list; only the health route goes on answering. *)
Theorem unreadable_store_blocks_requests (r : Requisicao) (w : Mundo)
    (e : Excecao) :
  fst (_ler_todas_as_tarefas w) = Erro e ->
  match r with
  | POST_tasks _ | PUT_tasks _ _ => rota r w = (Erro e, w)
  | GET_tasks => lido_do_cache w = None -> fst (rota r w) = Erro e
  | GET_health => exists s, fst (rota r w) = Ok (RSaude s)
  end.
Proof.
  intros Hl. destruct r as [| |p|i p]; cbn [rota].
  - destruct (obter_redis_casos w) as (w' & E & _).
    rewrite fst_mapear. unfold saude. rewrite (bind_ok _ _ _ _ _ E). cbn.
    eexists; reflexivity.
  - intros Hc. rewrite fst_mapear.
    destruct (listar_casos w) as (w' & E & _). rewrite E, Hc, Hl. reflexivity.
  - unfold mapear. unfold bind at 1. unfold adicionar_tarefa.
    rewrite (bind_erro _ _ _ _ _ (ler_erro w e Hl)). reflexivity.
  - unfold mapear. unfold bind at 1. unfold editar_tarefa.
    rewrite (bind_erro _ _ _ _ _ (ler_erro w e Hl)). reflexivity.
Qed.
End Limites.

(** * Requests in sequence *)

Section Sequencias.
Context `{amb : Ambiente}.

Lemma valida_opcional_de_str o o' :
  valida_opcional (valida_str 0 2000) (TarefaAtualizar.json_de_str o) =
    Some o' -> o' = o.
Proof.
  destruct o as [s|]; cbn [TarefaAtualizar.json_de_str valida_opcional].
  - destruct (valida_str 0 2000 (JStr s)) as [s'|] eqn:E; [|discriminate].
    intros H; injection H as <-. apply valida_str_some in E.
    destruct E as (E & _). injection E as ->. reflexivity.
  - intros H; injection H as <-. reflexivity.
Qed.

(** Patching the patched task again changes nothing. *)
Lemma init_copia_de_novo t p t' :
  Tarefa.init (Tarefa.model_copy_dump t
                 (TarefaAtualizar.model_dump_exclude_unset p)) = Ok t' ->
  Tarefa.init (Tarefa.model_copy_dump t'
                 (TarefaAtualizar.model_dump_exclude_unset p)) = Ok t'.
Proof.
  unfold Tarefa.init. rewrite !campo_id_copia. unfold campo.
  rewrite !copia_titulo, !copia_descricao, !copia_concluida.
  destruct (valida_str 1 200 _) as [a|] eqn:Ea; [|discriminate].
  destruct (valida_opcional (valida_str 0 2000) _) as [b|] eqn:Eb;
    [|discriminate].
  destruct (valida_bool _) as [c|] eqn:Ec; [|discriminate].
  intros H; injection H as <-.
  cbn [Tarefa.titulo Tarefa.descricao Tarefa.concluida Tarefa.id].
  assert (Ha : valida_str 1 200
                 match TarefaAtualizar.titulo p with
                 | Some v => TarefaAtualizar.json_de_str v
                 | None => JStr a
                 end = Some a).
  { destruct (TarefaAtualizar.titulo p); [exact Ea|].
    pose proof (valida_str_some _ _ _ _ Ea) as (E & _).
    injection E as E. rewrite E in Ea. exact Ea. }
  assert (Hb : valida_opcional (valida_str 0 2000)
                 (TarefaAtualizar.json_de_str
                    match TarefaAtualizar.descricao p with
                    | Some v => v
                    | None => b
                    end) = Some b).
  { destruct (TarefaAtualizar.descricao p); [exact Eb|].
    pose proof (valida_opcional_de_str _ _ Eb) as E.
    rewrite <- E in Eb. exact Eb. }
  assert (Hc : valida_bool
                 match TarefaAtualizar.concluida p with
                 | Some v => TarefaAtualizar.json_de_bool v
                 | None => JBool c
                 end = Some c).
  { destruct (TarefaAtualizar.concluida p); [exact Ec | reflexivity]. }
  rewrite Ha, Hb, Hc. reflexivity.
Qed.

Lemma posicao_insert task_id ts : forall idx t t',
  posicao task_id ts = Some (idx, t) -> Tarefa.id t' = task_id ->
  posicao task_id (<[idx := t']> ts) = Some (idx, t').
Proof.
  induction ts as [|a ts IH]; intros idx t t' H Ht; cbn [posicao] in H;
    [discriminate|].
  destruct (Z.eqb_spec (Tarefa.id a) task_id) as [E|N].
  - injection H as <- <-. change (<[0%nat := t']> (a :: ts)) with (t' :: ts).
    cbn [posicao]. rewrite Ht, Z.eqb_refl. reflexivity.
  - destruct (posicao task_id ts) as [[k y]|] eqn:Hp; [|discriminate].
    injection H as <- <-.
    change (<[S k := t']> (a :: ts)) with (a :: <[k := t']> ts).
    cbn [posicao]. destruct (Z.eqb_spec (Tarefa.id a) task_id); [contradiction|].
    rewrite (IH k y t' eq_refl Ht). reflexivity.
Qed.

(** Property X24.  An update is idempotent: when [editar_tarefa] has
    answered a task, the same update made again answers the same task and
    leaves in the file the text that the first one left. *)
Theorem update_twice_same (task_id : Z) (p : TarefaAtualizar.t)
    (w w1 : Mundo) (t' : Tarefa.t) :
  editar_tarefa task_id p w = (Ok t', w1) ->
  exists w2,
    editar_tarefa task_id p w1 = (Ok t', w2) /\ arquivo w2 = arquivo w1.
Proof.
  intros H.
  destruct (editar_casos task_id p w) as (w1' & E & A).
  rewrite H in E. injection E as Er <-.
  symmetry in Er. destruct (resposta_escrita_ok _ _ Er) as (ts' & Hres).
  rewrite Hres in A. destruct A as (Af & _).
  unfold resultado_escrita in Hres.
  destruct (fst (_ler_todas_as_tarefas w)) as [ts|] eqn:Hl; [|discriminate].
  pose proof (ler_valida w ts Hl) as Hv.
  destruct (editar_puro_ok task_id p ts t' ts' Hv Hres)
    as (idx & t & Hp & -> & Hv' & _).
  unfold editar_puro in Hres. rewrite Hp in Hres.
  destruct (Tarefa.init _) as [x|] eqn:Hi; [|discriminate].
  injection Hres as ->.
  destruct (posicao_some task_id ts idx t Hp) as (_ & Ht & _).
  pose proof (init_copia_id t t' p Hi) as Hid.
  destruct (editar_casos task_id p w1) as (w2 & E2 & A2).
  unfold resultado_escrita, editar_puro in E2, A2.
  rewrite (ler_texto_de _ w1 Hv' Af) in E2, A2. cbn [fst] in E2, A2.
  rewrite (posicao_insert task_id ts idx t t' Hp ltac:(congruence)) in E2, A2.
  rewrite (init_copia_de_novo t p t' Hi) in E2, A2.
  cbn [resposta_escrita] in E2. destruct A2 as (Af2 & _).
  rewrite list_insert_insert_eq in Af2.
  exists w2. split; [exact E2 | congruence].
Qed.

(** ** The ids of the file *)

Lemma map_id_insert ts : forall idx (t t' : Tarefa.t),
  ts !! idx = Some t -> Tarefa.id t' = Tarefa.id t ->
  List.map Tarefa.id (<[idx := t']> ts) = List.map Tarefa.id ts.
Proof.
  induction ts as [|a ts IH]; intros [|idx] t t' H Ht; try discriminate.
  - injection H as ->. change (<[0%nat := t']> (t :: ts)) with (t' :: ts).
    cbn [List.map]. rewrite Ht. reflexivity.
  - change (<[S idx := t']> (a :: ts)) with (a :: <[idx := t']> ts).
    cbn [List.map]. rewrite (IH idx t t' H Ht). reflexivity.
Qed.

(** What the file holds after a request, from what it held before. *)
Lemma rota_lista r w ts :
  fst (_ler_todas_as_tarefas w) = Ok ts ->
  exists ts',
    fst (_ler_todas_as_tarefas (snd (rota r w))) = Ok ts' /\
    (ts' = ts \/
     (exists t, ts' = ts ++ [t] /\ Tarefa.id t = _proximo_id ts) \/
     (length ts' = length ts /\
      List.map Tarefa.id ts' = List.map Tarefa.id ts)).
Proof.
  intros Hl. pose proof (ler_valida w ts Hl) as Hv.
  destruct r as [| |p|i p]; cbn [rota]; rewrite snd_mapear.
  - exists ts. split; [|auto].
    rewrite <- Hl. apply ler_so_arquivo, preserva_saude.
  - exists ts. split; [|auto].
    rewrite <- Hl. apply ler_so_arquivo, preserva_listar.
  - destruct (adicionar_casos p w) as (w' & E & Af & _). rewrite E. cbn [snd].
    unfold resultado_escrita in Af. rewrite Hl in Af.
    destruct (criar_puro p ts) as [[t ts']|e] eqn:Hp.
    + destruct (criar_puro_ok p ts t ts' Hv Hp) as (-> & Hv' & _ & Hid).
      exists (ts ++ [t]). split; [rewrite (ler_texto_de _ w' Hv' Af); reflexivity|].
      right; left. exists t. auto.
    + exists ts. split; [|auto]. rewrite <- Hl. apply ler_so_arquivo, Af.
  - destruct (editar_casos i p w) as (w' & E & Af & _). rewrite E. cbn [snd].
    unfold resultado_escrita in Af. rewrite Hl in Af.
    destruct (editar_puro i p ts) as [[t ts']|e] eqn:Hp.
    + destruct (editar_puro_ok i p ts t ts' Hv Hp)
        as (idx & t0 & Hpos & -> & Hv' & _).
      exists (<[idx := t]> ts).
      split; [rewrite (ler_texto_de _ w' Hv' Af); reflexivity|].
      right; right. split; [apply length_insert|].
      destruct (posicao_some i ts idx t0 Hpos) as (Hi & _).
      apply (map_id_insert ts idx t0 t Hi).
      unfold editar_puro in Hp. rewrite Hpos in Hp.
      destruct (Tarefa.init _) as [x|] eqn:Hx; [|discriminate].
      injection Hp as -> _. exact (init_copia_id t0 t p Hx).
    + exists ts. split; [|auto]. rewrite <- Hl. apply ler_so_arquivo, Af.
Qed.

Lemma proximo_id_denso ts :
  ids_de_um ts -> _proximo_id ts = (Z.of_nat (length ts) + 1)%Z.
Proof.
  unfold ids_de_um, _proximo_id. intros ->.
  destruct (length ts) as [|n]; [reflexivity|].
  pose proof (max_default_atingido 1 (List.map Z.of_nat (seq 2 n)) 0) as Hin.
  change (1%Z :: List.map Z.of_nat (seq 2 n))
    with (List.map Z.of_nat (seq 1 (S n))) in Hin.
  apply in_map_iff in Hin. destruct Hin as (k & Hk & Hin).
  apply in_seq in Hin.
  pose proof (max_default_ge (List.map Z.of_nat (seq 1 (S n))) 0
                (Z.of_nat (S n))) as Hge.
  assert (Hmem : In (Z.of_nat (S n)) (List.map Z.of_nat (seq 1 (S n))))
    by (apply in_map, in_seq; lia).
  specialize (Hge Hmem). lia.
Qed.

Lemma ids_de_um_passo r w ts :
  fst (_ler_todas_as_tarefas w) = Ok ts -> ids_de_um ts ->
  exists ts',
    fst (_ler_todas_as_tarefas (snd (rota r w))) = Ok ts' /\
    ids_de_um ts' /\ (length ts <= length ts')%nat.
Proof.
  intros Hl Hd.
  destruct (rota_lista r w ts Hl) as (ts' & Hl' & [->|[(t & -> & Ht)|(Hn & Hi)]]).
  - exists ts. auto.
  - exists (ts ++ [t]). split; [exact Hl'|]. split.
    + unfold ids_de_um. rewrite List.map_app, length_app. cbn [length List.map].
      rewrite Nat.add_1_r, seq_S, List.map_app. cbn [List.map].
      rewrite <- Hd, Ht, (proximo_id_denso ts Hd). do 2 f_equal. lia.
    + rewrite length_app. lia.
  - exists ts'. split; [exact Hl'|]. split; [|lia].
    unfold ids_de_um. rewrite Hi, Hn. exact Hd.
Qed.

(** Property X25.  The service keeps its store readable and its ids
    dense: when the file reads as a list whose ids are 1, 2, ..., n in
    the order of the list (the empty list at the start), then after any
    sequence of requests (health, list, create, update), failed ones
    included, it reads as a list that is no shorter and whose ids are
    again 1, 2, ... in the order of the list. *)
Theorem ids_count_from_one (rs : list Requisicao) :
  forall (w : Mundo) (ts : list Tarefa.t),
    fst (_ler_todas_as_tarefas w) = Ok ts ->
    List.map Tarefa.id ts = List.map Z.of_nat (seq 1 (length ts)) ->
    exists ts',
      fst (_ler_todas_as_tarefas (snd (atender rota rs w))) = Ok ts' /\
      List.map Tarefa.id ts' = List.map Z.of_nat (seq 1 (length ts')) /\
      (length ts <= length ts')%nat.
Proof.
  induction rs as [|r rs IH]; intros w ts Hl Hd.
  - exists ts. auto.
  - rewrite atender_cons. cbn [snd].
    destruct (ids_de_um_passo r w ts Hl Hd) as (ts1 & Hl1 & Hd1 & Hn1).
    destruct (IH _ ts1 Hl1 Hd1) as (ts' & Hl' & Hd' & Hn').
    exists ts'. split; [exact Hl'|]. split; [exact Hd' | lia].
Qed.
End Sequencias.
(** * The further properties at concrete inputs *)

Lemma mundo_2_unicode w :
  arquivo w = arquivo mundo_2 -> @arquivo_unicode amb_estrito w.
Proof.
  intros Ha ts H.
  rewrite (@ler_so_arquivo amb_estrito w mundo_2 Ha), mundo_2_lido in H.
  injection H as <-. repeat constructor.
Qed.

Lemma handle_reused_witness :
  let w := com_servidor {| no_ar := true; dados := None |} mundo_novo in
  let w1 := snd (obter_redis w) in
  obter_redis w = (Ok (Some ClienteRedis), w1) /\
  forall (s : ServidorRedis) (a : option str),
    obter_redis (com_servidor s (com_arquivo a w1)) =
    (Ok (Some ClienteRedis), com_servidor s (com_arquivo a w1)).
Proof.
  intros w w1. split; [reflexivity|].
  exact (handle_reused w w1 ClienteRedis eq_refl).
Defined.



Lemma writes_ignore_cache_witness :
  let r := POST_tasks buy_milk in
  r <> GET_health /\ r <> GET_tasks /\
  arquivo mundo_2 = arquivo mundo_2_sem_resposta /\
  fst (@rota amb_estrito r mundo_2) =
    fst (@rota amb_estrito r mundo_2_sem_resposta) /\
  arquivo (snd (@rota amb_estrito r mundo_2)) =
    arquivo (snd (@rota amb_estrito r mundo_2_sem_resposta)).
Proof.
  intros r.
  assert (H1 : r <> GET_health) by discriminate.
  assert (H2 : r <> GET_tasks) by discriminate.
  split; [exact H1|]. split; [exact H2|]. split; [reflexivity|].
  exact (@writes_ignore_cache amb_estrito r mundo_2 mundo_2_sem_resposta
           H1 H2 eq_refl).
Defined.

Lemma list_after_write_witness :
  let r := POST_tasks buy_milk in
  r <> GET_health /\ r <> GET_tasks /\
  fst (@rota amb_estrito r mundo_2_no_ar) = Ok (RTarefa tarefa_3) /\
  exists t ts',
    RTarefa tarefa_3 = RTarefa t /\ In t ts' /\
    arquivo (snd (@rota amb_estrito r mundo_2_no_ar)) = Some (texto_de ts') /\
    fst (@listar_tarefas amb_estrito (snd (@rota amb_estrito r mundo_2_no_ar))) =
      Ok ts'.
Proof.
  intros r.
  assert (H1 : r <> GET_health) by discriminate.
  assert (H2 : r <> GET_tasks) by discriminate.
  split; [exact H1|]. split; [exact H2|]. split; [reflexivity|].
  exact (@list_after_write amb_estrito r mundo_2_no_ar (RTarefa tarefa_3)
           H1 H2 eq_refl).
Defined.

Lemma renomear_aceito : remendo_aceito renomear.
Proof. repeat split; cbn; try lia. discriminate. Qed.

Lemma update_applies_patch_witness :
  fst (@_ler_todas_as_tarefas amb_estrito mundo_2) = Ok [tarefa_1; tarefa_2] /\
  (exists t, In t [tarefa_1; tarefa_2] /\ Tarefa.id t = 2%Z) /\
  remendo_aceito renomear /\
  exists idx t w',
    [tarefa_1; tarefa_2] !! idx = Some t /\ Tarefa.id t = 2%Z /\
    (forall j x, (j < idx)%nat -> [tarefa_1; tarefa_2] !! j = Some x ->
                 Tarefa.id x <> 2%Z) /\
    @editar_tarefa amb_estrito 2 renomear mundo_2 =
      (Ok (remendar renomear t), w') /\
    fst (@_ler_todas_as_tarefas amb_estrito w') =
      Ok (<[idx := remendar renomear t]> [tarefa_1; tarefa_2]).
Proof.
  assert (Hex : exists t, In t [tarefa_1; tarefa_2] /\ Tarefa.id t = 2%Z)
    by (exists tarefa_2; split; [right; left; reflexivity | reflexivity]).
  split; [exact mundo_2_lido|]. split; [exact Hex|].
  split; [exact renomear_aceito|].
  exact (@update_applies_patch amb_estrito 2 renomear mundo_2
           [tarefa_1; tarefa_2] mundo_2_lido Hex renomear_aceito).
Defined.



Lemma pending_calls_can_finish_witness :
  Trava.executar
    [Trava.ChamarLer; Trava.ChamarGravar; Trava.Retomar 0 Trava.Segue;
     Trava.Retomar 0 Trava.Segue] Trava.inicial = Some leitura_em_voo /\
  exists es' s',
    Forall retomada_normal es' /\
    Trava.executar es' leitura_em_voo = Some s' /\
    (forall i p, Trava.corrotinas s' !! i = Some p ->
                 Trava.terminou p = true) /\
    Trava.locked s' = false /\
    length (Trava.corrotinas s') = length (Trava.corrotinas leitura_em_voo).
Proof.
  split; [reflexivity|].
  exact (pending_calls_can_finish
           [Trava.ChamarLer; Trava.ChamarGravar; Trava.Retomar 0 Trava.Segue;
            Trava.Retomar 0 Trava.Segue] leitura_em_voo eq_refl).
Defined.

Lemma tarefas_1_2_validas : Forall Tarefa.valida [tarefa_1; tarefa_2].
Proof. repeat constructor; cbn; lia. Qed.

Lemma tarefas_1_2_unicode : Forall tarefa_unicode [tarefa_1; tarefa_2].
Proof. repeat constructor. Qed.

Lemma load_any_layout_witness :
  let w := com_arquivo
             (Some ([32; 10] ++
                    json_dumps None true
                      (JArr (List.map (fun t => JObj (Tarefa.model_dump t))
                                      [tarefa_1; tarefa_2])) ++ [10]))
             mundo_novo in
  Forall Tarefa.valida [tarefa_1; tarefa_2] /\
  (true = true -> Forall tarefa_unicode [tarefa_1; tarefa_2]) /\
  forallb eh_ws [32; 10] = true /\ forallb eh_ws [10] = true /\
  @_ler_todas_as_tarefas amb_estrito w = (Ok [tarefa_1; tarefa_2], w).
Proof.
  intros w. split; [exact tarefas_1_2_validas|].
  split; [intros _; exact tarefas_1_2_unicode|]. split; [reflexivity|].
  split; [reflexivity|].
  exact (@load_any_layout amb_estrito None true [tarefa_1; tarefa_2]
           [32; 10] [10] w tarefas_1_2_validas (fun _ => tarefas_1_2_unicode)
           eq_refl eq_refl eq_refl).
Defined.

Lemma list_twice_same_witness :
  @arquivo_unicode amb_estrito mundo_2_no_ar /\
  fst (@listar_tarefas amb_estrito
         (snd (@listar_tarefas amb_estrito mundo_2_no_ar))) =
  fst (@listar_tarefas amb_estrito mundo_2_no_ar).
Proof.
  split; [exact (mundo_2_unicode mundo_2_no_ar eq_refl)|].
  exact (@list_twice_same amb_estrito mundo_2_no_ar
           (mundo_2_unicode mundo_2_no_ar eq_refl)).
Defined.


Lemma cache_up_store_only_witness :
  let rs := [GET_health; GET_tasks; POST_tasks buy_milk; GET_tasks;
             PUT_tasks 3 renomear; GET_tasks; PUT_tasks 7 so_concluida] in
  no_ar (servidor mundo_2_no_ar) = true /\
  @cache_coerente amb_estrito mundo_2_no_ar /\
  @arquivo_unicode amb_estrito mundo_2_no_ar /\
  Forall requisicao_unicode rs /\
  List.map sem_redis (fst (atender (@rota amb_estrito) rs mundo_2_no_ar)) =
    fst (atender (@rota_so_store amb_estrito) rs mundo_2_no_ar) /\
  arquivo (snd (atender (@rota amb_estrito) rs mundo_2_no_ar)) =
    arquivo (snd (atender (@rota_so_store amb_estrito) rs mundo_2_no_ar)) /\
  (forall s, In (Ok (RSaude s))
               (fst (atender (@rota amb_estrito) rs mundo_2_no_ar)) ->
             redis s = true) /\
  @cache_coerente amb_estrito (snd (atender (@rota amb_estrito) rs
                                      mundo_2_no_ar)).
Proof.
  intros rs.
  assert (Hc : @cache_coerente amb_estrito mundo_2_no_ar)
    by (intros ts H; discriminate H).
  assert (Hr : Forall requisicao_unicode rs) by (repeat constructor).
  split; [reflexivity|]. split; [exact Hc|].
  split; [exact (mundo_2_unicode mundo_2_no_ar eq_refl)|]. split; [exact Hr|].
  exact (@cache_up_store_only amb_estrito rs mundo_2_no_ar eq_refl Hc
           (mundo_2_unicode mundo_2_no_ar eq_refl) Hr).
Defined.

Lemma stale_list_after_outage_witness :
  let r := POST_tasks buy_milk in
  let w := mundo_2_sem_resposta in
  r <> GET_health /\ r <> GET_tasks /\
  no_ar (servidor w) = false /\
  dados (servidor w) = Some (91 :: List.tl (texto_cache [tarefa_1])) /\
  @tarefas_de_texto amb_estrito (91 :: List.tl (texto_cache [tarefa_1])) =
    Ok [tarefa_1] /\
  fst (@rota amb_estrito r w) = Ok (RTarefa tarefa_3) /\
  exists t ts',
    RTarefa tarefa_3 = RTarefa t /\
    fst (@_ler_todas_as_tarefas amb_estrito (snd (@rota amb_estrito r w))) =
      Ok ts' /\ In t ts' /\
    fst (@listar_tarefas amb_estrito
           (servidor_de_volta (snd (@rota amb_estrito r w)))) = Ok [tarefa_1].
Proof.
  intros r w.
  assert (H1 : r <> GET_health) by discriminate.
  assert (H2 : r <> GET_tasks) by discriminate.
  split; [exact H1|]. split; [exact H2|]. split; [reflexivity|].
  split; [reflexivity|]. split; [reflexivity|]. split; [reflexivity|].
  exact (@stale_list_after_outage amb_estrito r w (RTarefa tarefa_3) 91
           (List.tl (texto_cache [tarefa_1])) [tarefa_1] H1 H2 eq_refl eq_refl
           eq_refl eq_refl).
Defined.

Lemma constructor_accepts_its_dump_witness :
  @Tarefa.init [(lit "id", JInt 1); (lit "titulo", JStr (lit "Buy milk"));
                (lit "extra", JNull)] amb_estrito = Ok tarefa_1 /\
  Tarefa.valida tarefa_1 /\
  @Tarefa.init (Tarefa.model_dump tarefa_1) amb_estrito = Ok tarefa_1.
Proof.
  split; [reflexivity|].
  exact (@constructor_accepts_its_dump amb_estrito
           [(lit "id", JInt 1); (lit "titulo", JStr (lit "Buy milk"));
            (lit "extra", JNull)] tarefa_1 eq_refl).
Defined.


Lemma update_twice_same_witness :
  let w1 := snd (@editar_tarefa amb_estrito 2 renomear mundo_2) in
  @editar_tarefa amb_estrito 2 renomear mundo_2 =
    (Ok (remendar renomear tarefa_2), w1) /\
  exists w2,
    @editar_tarefa amb_estrito 2 renomear w1 =
      (Ok (remendar renomear tarefa_2), w2) /\
    arquivo w2 = arquivo w1.
Proof.
  intros w1. split; [reflexivity|].
  exact (@update_twice_same amb_estrito 2 renomear mundo_2 w1
           (remendar renomear tarefa_2) eq_refl).
Defined.

Lemma ids_count_from_one_witness :
  let rs := [POST_tasks buy_milk; PUT_tasks 1 renomear; GET_tasks;
             POST_tasks buy_milk; PUT_tasks 9 so_concluida] in
  fst (@_ler_todas_as_tarefas amb_estrito mundo_novo) = Ok [] /\
  List.map Tarefa.id [] = List.map Z.of_nat (seq 1 (length (@nil Tarefa.t))) /\
  exists ts',
    fst (@_ler_todas_as_tarefas amb_estrito
           (snd (atender (@rota amb_estrito) rs mundo_novo))) = Ok ts' /\
    List.map Tarefa.id ts' = List.map Z.of_nat (seq 1 (length ts')) /\
    (length (@nil Tarefa.t) <= length ts')%nat.
Proof.
  intros rs. split; [reflexivity|]. split; [reflexivity|].
  exact (@ids_count_from_one amb_estrito rs mundo_novo [] eq_refl eq_refl).
Defined.

Lemma interleaved_updates_lose_first_witness :
  let wb := snd (@editar_tarefa amb_estrito 2 renomear mundo_2) in
  arquivo mundo_2 <> None /\
  fst (@_ler_todas_as_tarefas amb_estrito mundo_2) = Ok [tarefa_1; tarefa_2] /\
  @editar_tarefa amb_estrito 2 renomear mundo_2 =
    (Ok (remendar renomear tarefa_2), wb) /\
  (forall k r, @editar_tarefa amb_estrito k r =
               (tarefas <- @_ler_todas_as_tarefas amb_estrito ;;
                @editar_laco amb_estrito k r tarefas 0 tarefas)) /\
  exists a w3 w4,
    @editar_laco amb_estrito 1 so_concluida [tarefa_1; tarefa_2] 0
      [tarefa_1; tarefa_2] mundo_2 = (a, w3) /\
    @editar_laco amb_estrito 2 renomear [tarefa_1; tarefa_2] 0
      [tarefa_1; tarefa_2] w3 = (Ok (remendar renomear tarefa_2), w4) /\
    arquivo w4 = arquivo wb.
Proof.
  intros wb.
  assert (Ha : arquivo mundo_2 <> None) by discriminate.
  split; [exact Ha|]. split; [exact mundo_2_lido|]. split; [reflexivity|].
  exact (@interleaved_updates_lose_first amb_estrito 1 2 so_concluida renomear
           mundo_2 wb [tarefa_1; tarefa_2] (remendar renomear tarefa_2)
           Ha mundo_2_lido eq_refl).
Defined.

Lemma unreadable_store_blocks_requests_witness :
  fst (@_ler_todas_as_tarefas amb_estrito mundo_sem_titulo) =
    Erro ValidationError /\
  @rota amb_estrito (POST_tasks buy_milk) mundo_sem_titulo =
    (Erro ValidationError, mundo_sem_titulo).
Proof.
  split; [reflexivity|].
  exact (@unreadable_store_blocks_requests amb_estrito (POST_tasks buy_milk)
           mundo_sem_titulo ValidationError eq_refl).
Defined.
